(** * Graph workflow engine (HTN plan selector): model and properties

    Shallow embedding of
    [extensions/before_main_llm_call/_15_htn_plan_selector.py]:
    the plan matcher, the verification evaluator, the graph traversal
    engine with its event log, and the per-turn entry point.

    Conventions of the embedding.
    - Python dictionaries that are looked up by key are [gmap string _];
      a key that the code reads with [d.get(k, default)] is an [option]
      field and the default is written where the code writes it.
    - The plan library's [plans] dictionary is an association list, because
      the matcher depends on its iteration order.
    - Python integers are [Z].  Text is [string] (8-bit characters);
      [lower] and [strip] act on the ASCII range.
    - Exceptions are the [KeyError] and [IndexError] that well-typed
      library documents can cause; logging and attribute access on the
      agent do not fail.
    - The traversal state dictionary is one mutable object shared by the
      agent attribute and the local variable [state]; the engine is
      written in a state-and-exception monad over a [World] that holds
      that object together with the attribute's attachment flag, the log
      and the prompt injection slot. *)

From Stdlib Require Import ZArith Lia Bool Ascii.
From stdpp Require Import base option list strings gmap.

Local Open Scope Z_scope.

(** ** Text primitives *)

Module Text.

(** [str.lower()] on one character. *)
Definition lower_ascii (c : ascii) : ascii :=
  let n := nat_of_ascii c in
  if ((65 <=? n)%nat && (n <=? 90)%nat)%bool then ascii_of_nat (n + 32) else c.

(** [s.lower()] *)
Fixpoint lower (s : string) : string :=
  match s with
  | EmptyString => EmptyString
  | String c s' => String (lower_ascii c) (lower s')
  end.

(** [s.startswith(p)] *)
Fixpoint startswith (s p : string) : bool :=
  match p, s with
  | EmptyString, _ => true
  | String _ _, EmptyString => false
  | String a p', String b s' => Ascii.eqb a b && startswith s' p'
  end.

(** [needle in hay] for strings. *)
Fixpoint contains (hay needle : string) : bool :=
  startswith hay needle ||
  match hay with
  | EmptyString => false
  | String _ hay' => contains hay' needle
  end.

(** Characters removed by [str.strip()] in the ASCII range. *)
Definition is_space (c : ascii) : bool :=
  let n := nat_of_ascii c in
  ((9 <=? n)%nat && (n <=? 13)%nat) || ((28 <=? n)%nat && (n <=? 32)%nat).

Definition is_empty (s : string) : bool :=
  match s with EmptyString => true | String _ _ => false end.

(** Truth value of a string: [bool(s)]. *)
Definition truthy (s : string) : bool := negb (is_empty s).

Fixpoint lstrip (s : string) : string :=
  match s with
  | EmptyString => EmptyString
  | String c s' => if is_space c then lstrip s' else s
  end.

Fixpoint rstrip (s : string) : string :=
  match s with
  | EmptyString => EmptyString
  | String c s' =>
      let r := rstrip s' in
      if is_space c && is_empty r then EmptyString else String c r
  end.

(** [s.strip()] *)
Definition strip (s : string) : string := rstrip (lstrip s).

(** Some character of [s] is not white space. *)
Fixpoint has_non_space (s : string) : bool :=
  match s with
  | EmptyString => false
  | String c s' => negb (is_space c) || has_non_space s'
  end.

End Text.

(** ** Plan library data *)

(** A node of a plan graph, or a step of a linear plan: a JSON object,
    with the keys that the engine's control flow reads (the keys that only
    the status text shows, such as [tool] and [description], are left
    out).  Every key is optional in the document; the code reads each with
    [node.get], or with [node[...]] where a missing key raises. *)
Record Node := mkNode {
  n_type : option string;
  n_name : option string;
  n_action : option string;
  n_verify : option (gmap string string);
  n_max_retries : option Z;
  n_pace_level : option string;
  n_reason : option string;
  n_on_fail : option string
}.

(** [bool(node)]: a dictionary is false exactly when it has no key. *)
Definition node_truthy (n : Node) : bool :=
  match n with
  | mkNode None None None None None None None None => false
  | _ => true
  end.

(** [node.get("type", "task")] *)
Definition node_type (n : Node) : string := default "task" (n_type n).

(** ** Verification evaluator *)

(** [_verify_node(node, output)] *)
Definition _verify_node (node : Node) (output : string) : bool :=
  match n_verify node with
  | None => true
  | Some verify =>
      if bool_decide (verify = ∅) then true
      else
        let vtype := default "any_output" (verify !! "type") in
        let value := default "" (verify !! "value") in
        let output_lower := Text.lower output in
        if String.eqb vtype "output_contains" then
          Text.contains output_lower (Text.lower value)
        else if String.eqb vtype "output_not_contains" then
          negb (Text.contains output_lower (Text.lower value))
        else if String.eqb vtype "exit_code_zero" then
          negb (Text.contains output_lower "error")
          && negb (Text.contains output_lower "exit code")
        else if String.eqb vtype "any_output" then
          Text.truthy (Text.strip output)
        else if String.eqb vtype "file_exists" then true
        else if String.eqb vtype "manual" then true
        else true
  end.

(** ** Graphs, plans and the library *)

(** An edge [{from, to, condition}]; [condition] defaults to ["always"],
    [e["to"]] raises when the key is missing. *)
Record Edge := mkEdge {
  e_from : option string;
  e_to : option string;
  e_condition : option string
}.

Record Graph := mkGraph {
  g_nodes : option (gmap string Node);
  g_edges : option (list Edge);
  g_start : option string
}.

Record Plan := mkPlan {
  p_name : option string;
  p_domains : option (list string);
  p_triggers : option (list string);
  p_trigger_threshold : option Z;
  p_stale_after_turns : option Z;
  p_graph : option Graph;
  p_steps : option (list Node)
}.

(** The [plans] dictionary of the library document, in iteration order. *)
Definition Library := list (string * Plan).

(** [plans.get(plan_id)] *)
Fixpoint lookup_plan (plans : Library) (plan_id : string) : option Plan :=
  match plans with
  | [] => None
  | (k, p) :: rest => if String.eqb k plan_id then Some p else lookup_plan rest plan_id
  end.

Definition MAX_EVENTS : nat := 50.
Definition MAX_ROUTE_DEPTH : nat := 15.

(** ** Traversal state *)

Record VisitEntry := mkVisit { outcome : string; attempts : Z }.

Definition fresh_visit : VisitEntry := mkVisit "pending" 0.

Record Event := mkEvent {
  ev_type : string;
  ev_turn : Z;
  ev_fields : gmap string string
}.

(** The dictionary built by [_create_graph_state].  Its ["mode"] key is
    carried by the constructor of [HtnState] below. *)
Record State := mkState {
  plan_id : string;
  plan_name : string;
  current_step : Z;
  total_steps : Z;
  turns_since_progress : Z;
  steps_completed : list string;
  steps_failed : list string;
  stale_after_turns : Z;
  iteration_started : Z;
  current_node : string;
  visited : gmap string VisitEntry;
  path : list string;
  total_nodes : Z;
  completed_nodes : Z;
  turns_since_transition : Z;
  events : list Event
}.

Definition set_current_step (v : Z) (s : State) : State :=
  mkState (plan_id s) (plan_name s) v (total_steps s)
    (turns_since_progress s) (steps_completed s) (steps_failed s)
    (stale_after_turns s) (iteration_started s) (current_node s) (visited s)
    (path s) (total_nodes s) (completed_nodes s) (turns_since_transition s)
    (events s).

Definition set_turns_since_progress (v : Z) (s : State) : State :=
  mkState (plan_id s) (plan_name s) (current_step s) (total_steps s)
    v (steps_completed s) (steps_failed s)
    (stale_after_turns s) (iteration_started s) (current_node s) (visited s)
    (path s) (total_nodes s) (completed_nodes s) (turns_since_transition s)
    (events s).

Definition set_steps_completed (v : list string) (s : State) : State :=
  mkState (plan_id s) (plan_name s) (current_step s) (total_steps s)
    (turns_since_progress s) v (steps_failed s)
    (stale_after_turns s) (iteration_started s) (current_node s) (visited s)
    (path s) (total_nodes s) (completed_nodes s) (turns_since_transition s)
    (events s).

Definition set_steps_failed (v : list string) (s : State) : State :=
  mkState (plan_id s) (plan_name s) (current_step s) (total_steps s)
    (turns_since_progress s) (steps_completed s) v
    (stale_after_turns s) (iteration_started s) (current_node s) (visited s)
    (path s) (total_nodes s) (completed_nodes s) (turns_since_transition s)
    (events s).

Definition set_current_node (v : string) (s : State) : State :=
  mkState (plan_id s) (plan_name s) (current_step s) (total_steps s)
    (turns_since_progress s) (steps_completed s) (steps_failed s)
    (stale_after_turns s) (iteration_started s) v (visited s)
    (path s) (total_nodes s) (completed_nodes s) (turns_since_transition s)
    (events s).

Definition set_visited (v : gmap string VisitEntry) (s : State) : State :=
  mkState (plan_id s) (plan_name s) (current_step s) (total_steps s)
    (turns_since_progress s) (steps_completed s) (steps_failed s)
    (stale_after_turns s) (iteration_started s) (current_node s) v
    (path s) (total_nodes s) (completed_nodes s) (turns_since_transition s)
    (events s).

Definition set_path (v : list string) (s : State) : State :=
  mkState (plan_id s) (plan_name s) (current_step s) (total_steps s)
    (turns_since_progress s) (steps_completed s) (steps_failed s)
    (stale_after_turns s) (iteration_started s) (current_node s) (visited s)
    v (total_nodes s) (completed_nodes s) (turns_since_transition s)
    (events s).

Definition set_completed_nodes (v : Z) (s : State) : State :=
  mkState (plan_id s) (plan_name s) (current_step s) (total_steps s)
    (turns_since_progress s) (steps_completed s) (steps_failed s)
    (stale_after_turns s) (iteration_started s) (current_node s) (visited s)
    (path s) (total_nodes s) v (turns_since_transition s)
    (events s).

Definition set_turns_since_transition (v : Z) (s : State) : State :=
  mkState (plan_id s) (plan_name s) (current_step s) (total_steps s)
    (turns_since_progress s) (steps_completed s) (steps_failed s)
    (stale_after_turns s) (iteration_started s) (current_node s) (visited s)
    (path s) (total_nodes s) (completed_nodes s) v
    (events s).

Definition set_events (v : list Event) (s : State) : State :=
  mkState (plan_id s) (plan_name s) (current_step s) (total_steps s)
    (turns_since_progress s) (steps_completed s) (steps_failed s)
    (stale_after_turns s) (iteration_started s) (current_node s) (visited s)
    (path s) (total_nodes s) (completed_nodes s) (turns_since_transition s)
    v.

(** The dictionary built by [_create_linear_state]. *)
Record LinState := mkLinState {
  l_plan_id : string;
  l_plan_name : string;
  l_domain : string;
  l_current_step : Z;
  l_steps_completed : list Z;
  l_steps_failed : list Z;
  l_total_steps : Z;
  l_stale_after_turns : Z;
  l_turns_since_progress : Z;
  l_iteration_started : Z
}.

(** The value of the agent attribute [_htn_state]; [state.get("mode")]
    tells the two shapes apart. *)
Inductive HtnState :=
| GraphSt (s : State)
| LinearSt (l : LinState).

(** ** Host-side data *)

Inductive exn :=
| KeyError (key : string)
| IndexError.

Inductive outcome_of (A : Type) :=
| Ret (a : A)
| Raise (e : exn).
Arguments Ret {A} a.
Arguments Raise {A} e.

(** Messages passed to [agent.context.log.log]; the numbers and names that
    the f-strings interpolate are kept as arguments. *)
Inductive LogMsg :=
| MsgGraphActivated (name : string) (total : Z)
| MsgLinearActivated (name : string) (steps : Z)
| MsgExpired (name : string) (stale_limit : Z)
| MsgCompleted (name : string) (completed total : Z)
| MsgEscalated (name pace_level reason : string)
| MsgStallSuccess (node_id : string)
| MsgStallExhaust (node_id : string)
| MsgLinearExpired (name : string) (stale_limit : Z)
| MsgLinearCompleted (name : string)
| MsgStepVerified (step : Z) (name : string)
| MsgAborted (name : string)
| MsgError (e : exn).

Record LogEntry := mkLog { log_type : string; log_content : LogMsg }.

(** The value stored under [extras_temporary["htn_active_plan"]].  The
    status text is a function of the state (and of the immutable plan), so
    the state it was rendered from stands for it. *)
Inductive Injection :=
| WorkflowStatus (rendered : State)
| WorkflowEscalated (name reason pace_level : string) (completed total : Z)
| LinearStatus (rendered : LinState).

(** What one engine call can read and write: the state dictionary bound to
    the local variable [state], whether the agent attribute still points to
    it, the agent's pace level, the log, and the injection slot. *)
Record World (S : Type) := mkWorld {
  w_state : S;
  w_attached : bool;
  w_pace : option string;
  w_log : list LogEntry;
  w_extras : option Injection
}.
Arguments mkWorld {S}.
Arguments w_state {S}.
Arguments w_attached {S}.
Arguments w_pace {S}.
Arguments w_log {S}.
Arguments w_extras {S}.

(** ** The engine monad: state and exceptions *)

Definition M (S A : Type) : Type := World S → outcome_of A * World S.

#[global] Instance M_ret {S} : MRet (M S) := λ A a w, (Ret a, w).

#[global] Instance M_bind {S} : MBind (M S) := λ A B f m w,
  match m w with
  | (Ret a, w') => f a w'
  | (Raise e, w') => (Raise e, w')
  end.

Definition raise {S A} (e : exn) : M S A := λ w, (Raise e, w).

Definition lift {S A} (o : outcome_of A) : M S A := λ w, (o, w).

Definition get_state {S} : M S S := λ w, (Ret (w_state w), w).

Definition modify_state {S} (f : S → S) : M S unit := λ w,
  (Ret tt, mkWorld (f (w_state w)) (w_attached w) (w_pace w) (w_log w) (w_extras w)).

(** [_set_state(agent, state)] *)
Definition _set_state {S} : M S unit := λ w,
  (Ret tt, mkWorld (w_state w) true (w_pace w) (w_log w) (w_extras w)).

(** [_clear_state(agent)] *)
Definition _clear_state {S} : M S unit := λ w,
  (Ret tt, mkWorld (w_state w) false (w_pace w) (w_log w) (w_extras w)).

(** [_get_state(agent) is None] *)
Definition state_is_cleared {S} : M S bool := λ w, (Ret (negb (w_attached w)), w).

(** [setattr(agent, PACE_LEVEL_KEY, pace_level)] *)
Definition set_pace {S} (p : string) : M S unit := λ w,
  (Ret tt, mkWorld (w_state w) (w_attached w) (Some p) (w_log w) (w_extras w)).

(** [agent.context.log.log(type=..., content=...)] *)
Definition log {S} (ty : string) (msg : LogMsg) : M S unit := λ w,
  (Ret tt, mkWorld (w_state w) (w_attached w) (w_pace w)
             (w_log w ++ [mkLog ty msg]) (w_extras w)).

(** [loop_data.extras_temporary["htn_active_plan"] = ...] *)
Definition set_extras {S} (i : Injection) : M S unit := λ w,
  (Ret tt, mkWorld (w_state w) (w_attached w) (w_pace w) (w_log w) (Some i)).

(** [d[key]] on an optional field. *)
Definition getitem {A} (key : string) (field : option A) : outcome_of A :=
  match field with
  | Some a => Ret a
  | None => Raise (KeyError key)
  end.

(** ** Event log *)

(** [events[-n:]] *)
Definition last_n {A} (n : nat) (l : list A) : list A := drop (length l - n) l.

(** [_emit_event(state, event_type, **fields)] *)
Definition _emit_event (event_type : string) (fields : gmap string string)
    (s : State) : State :=
  let event := mkEvent event_type (turns_since_transition s) fields in
  let events' := events s ++ [event] in
  if (MAX_EVENTS <? length events')%nat
  then set_events (last_n MAX_EVENTS events') s
  else set_events events' s.

Definition emit (event_type : string) (fields : gmap string string) : M State unit :=
  modify_state (_emit_event event_type fields).

(** [_get_last_outcome(state)] *)
Definition _get_last_outcome (s : State) : string :=
  match List.find (λ ev, String.eqb (ev_type ev) "node_verified") (rev (events s)) with
  | Some ev => default "success" (ev_fields ev !! "outcome")
  | None => "success"
  end.

(** ** Plan matcher *)

(** [sum(1 for t in triggers if t in message)] *)
Definition trigger_hits (plan : Plan) (message : string) : Z :=
  Z.of_nat (length (List.filter (λ t, Text.contains message t)
                                (default [] (p_triggers plan)))).

(** [not plan_domains or domain in plan_domains] *)
Definition domain_match (plan : Plan) (domain : string) : bool :=
  match default [] (p_domains plan) with
  | [] => true
  | plan_domains => bool_decide (domain ∈ plan_domains)
  end.

(** [hits + (1.0 if domain_match and plan_domains else 0)] *)
Definition plan_score (plan : Plan) (domain message : string) : Z :=
  trigger_hits plan message +
  (if domain_match plan domain
      && negb (bool_decide (default [] (p_domains plan) = []))
   then 1 else 0).

(** [allowed_plans is not None and plan_id not in allowed_plans] *)
Definition excluded (allowed_plans : option (list string)) (plan_id : string) : bool :=
  match allowed_plans with
  | None => false
  | Some allowed => negb (bool_decide (plan_id ∈ allowed))
  end.

(** [hits >= threshold and domain_match] *)
Definition qualifies (plan : Plan) (domain message : string) : bool :=
  (default 2 (p_trigger_threshold plan) <=? trigger_hits plan message)
  && domain_match plan domain.

(** One iteration of the matcher's loop over [plans.items()], on the pair
    [(best_id, best_score)]. *)
Definition match_step (domain message : string) (allowed_plans : option (list string))
    (best : option string * Z) (entry : string * Plan) : option string * Z :=
  let '(plan_id, plan) := entry in
  if excluded allowed_plans plan_id then best
  else if qualifies plan domain message then
    let score := plan_score plan domain message in
    if snd best <? score then (Some plan_id, score) else best
  else best.

(** [_match_plan(library, domain, message, agent)]; [allowed_plans] is the
    agent's [_org_htn_allowed_plans] datum. *)
Definition _match_plan (plans : Library) (domain message : string)
    (allowed_plans : option (list string)) : outcome_of (option (string * Plan)) :=
  let best := fold_left (match_step domain message allowed_plans) plans (None, 0) in
  match fst best with
  | Some best_id =>
      if Text.truthy best_id then
        match getitem best_id (lookup_plan plans best_id) with
        | Ret plan => Ret (Some (best_id, plan))
        | Raise e => Raise e
        end
      else Ret None
  | None => Ret None
  end.

(** ** Turn history *)

Inductive Content :=
| CStr (s : string)
| CDict (d : gmap string string).

Record Message := mkMessage { m_ai : option bool; m_content : option Content }.

(** An element of [loop_data.history_output]. *)
Inductive HistItem :=
| HDict (m : Message)
| HOther.

(** [_get_user_message(loop_data)] *)
Definition _get_user_message (history_output : list HistItem) : string :=
  let fix scan (msgs : list HistItem) : string :=
    match msgs with
    | [] => ""
    | HOther :: rest => scan rest
    | HDict msg :: rest =>
        if default true (m_ai msg) then scan rest
        else
          let content :=
            match default (CStr "") (m_content msg) with
            | CStr s => s
            | CDict d =>
                let um := default "" (d !! "user_message") in
                if Text.truthy um then um else default "" (d !! "message")
            end in
          Text.lower (Text.strip content)
    end in
  scan (rev history_output).

(** [_get_last_tool_output(loop_data)] *)
Definition _get_last_tool_output (history_output : list HistItem) : option string :=
  let fix scan (msgs : list HistItem) : option string :=
    match msgs with
    | [] => None
    | HOther :: rest => scan rest
    | HDict msg :: rest =>
        match default (CStr "") (m_content msg) with
        | CDict d =>
            match d !! "tool_name" with
            | Some _ =>
                Some (default (default (default "" (d !! "result")) (d !! "output"))
                              (d !! "tool_result"))
            | None => scan rest
            end
        | CStr s => if Text.startswith s "[tool_result" then Some s else scan rest
        end
    end in
  scan (rev history_output).

(** ** Graph traversal engine *)

Definition edge_condition (e : Edge) : string := default "always" (e_condition e).

(** The first candidate whose condition is [condition]; the code returns
    its [e["to"]]. *)
Definition first_with (candidates : list Edge) (condition : string) : option Edge :=
  List.find (λ e, String.eqb (edge_condition e) condition) candidates.

Definition edge_to (e : Edge) : outcome_of (option string) :=
  match getitem "to" (e_to e) with
  | Ret t => Ret (Some t)
  | Raise x => Raise x
  end.

(** [_follow_edge(state, graph, from_node, condition, fallback, fallback2)];
    an absent fallback is the empty string, as in the source. *)
Definition _follow_edge (graph : Graph) (from_node condition fallback fallback2 : string)
    : outcome_of (option string) :=
  let edges := default [] (g_edges graph) in
  let candidates :=
    List.filter (λ e, bool_decide (e_from e = Some from_node)) edges in
  match first_with candidates condition with
  | Some e => edge_to e
  | None =>
    match (if Text.truthy fallback then first_with candidates fallback else None) with
    | Some e => edge_to e
    | None =>
      match (if Text.truthy fallback2 then first_with candidates fallback2 else None) with
      | Some e => edge_to e
      | None =>
        match first_with candidates "always" with
        | Some e => edge_to e
        | None => Ret None
        end
      end
    end
  end.

(** [if target:] on the result of [_follow_edge]. *)
Definition target_truthy (target : option string) : option string :=
  match target with
  | Some t => if Text.truthy t then Some t else None
  | None => None
  end.

(** [_move_to_node(state, graph, from_node, to_node, condition)] *)
Definition _move_to_node (from_node to_node condition : string) (s : State) : State :=
  let s := set_current_node to_node s in
  let s := set_path (path s ++ [to_node]) s in
  let s := set_turns_since_transition 0 s in
  let s :=
    match visited s !! to_node with
    | Some _ => set_visited (<[to_node := fresh_visit]> (visited s)) s
    | None => s
    end in
  let s := _emit_event "edge_followed"
             {[ "from_node" := from_node; "to_node" := to_node;
                "condition" := condition ]} s in
  _emit_event "node_entered" {[ "node" := to_node ]} s.

(** The body of [_auto_route(agent, state, plan, depth)] below its depth
    check; [recurse] stands for the call
    [_auto_route(agent, state, plan, depth + 1)]. *)
Definition auto_route_body (recurse : M State unit) (plan : Plan) : M State unit :=
  graph ← lift (getitem "graph" (p_graph plan));
  s ← get_state;
  let node_id := current_node s in
  nodes ← lift (getitem "nodes" (g_nodes graph));
  match nodes !! node_id with
  | None => mret tt
  | Some node =>
      if negb (node_truthy node) then mret tt
      else
        let ntype := node_type node in
        if String.eqb ntype "decision" then
          let last_outcome := _get_last_outcome s in
          let condition :=
            if Text.truthy last_outcome then "on_" +:+ last_outcome else "always" in
          target ← lift (_follow_edge graph node_id condition "always" "");
          match target_truthy target with
          | Some t => modify_state (_move_to_node node_id t condition);; recurse
          | None => mret tt
          end
        else if String.eqb ntype "start" then
          target ← lift (_follow_edge graph node_id "always" "" "");
          match target_truthy target with
          | Some t => modify_state (_move_to_node node_id t "always");; recurse
          | None => mret tt
          end
        else if String.eqb ntype "checkpoint" then
          target ← lift (_follow_edge graph node_id "always" "" "");
          match target_truthy target with
          | Some t => modify_state (_move_to_node node_id t "always");; recurse
          | None => mret tt
          end
        else mret tt
  end.

(** [_auto_route] by recursion on the number of levels left below the
    ceiling, [MAX_ROUTE_DEPTH - depth]: with none left
    ([depth >= MAX_ROUTE_DEPTH]) the call returns at once. *)
Fixpoint auto_route_from (levels_left : nat) (plan : Plan) : M State unit :=
  match levels_left with
  | O => mret tt
  | S levels_left' => auto_route_body (auto_route_from levels_left' plan) plan
  end.

(** [_auto_route(agent, state, plan, depth)] *)
Definition _auto_route (plan : Plan) (depth : nat) : M State unit :=
  auto_route_from (MAX_ROUTE_DEPTH - depth) plan.

(** [_advance_from_start(agent, state, plan)] *)
Definition _advance_from_start (plan : Plan) : M State unit :=
  graph ← lift (getitem "graph" (p_graph plan));
  let start_id := default "" (g_start graph) in
  emit "node_entered" {[ "node" := start_id ]};;
  target ← lift (_follow_edge graph start_id "always" "" "");
  match target_truthy target with
  | Some t =>
      modify_state (_move_to_node start_id t "always");;
      _auto_route plan 0
  | None => mret tt
  end.

(** [_complete_graph(agent, state)] *)
Definition _complete_graph : M State unit :=
  s ← get_state;
  emit "plan_completed" {[ "node" := current_node s ]};;
  log "info" (MsgCompleted (plan_name s) (completed_nodes s) (total_nodes s));;
  _clear_state.

(** [_escalate_graph(agent, state, escalate_node, loop_data)] *)
Definition _escalate_graph (escalate_node : Node) : M State unit :=
  let pace_level := default "contingent" (n_pace_level escalate_node) in
  let reason := default "Plan escalated" (n_reason escalate_node) in
  s ← get_state;
  let name := plan_name s in
  emit "plan_escalated"
       {[ "node" := current_node s; "reason" := reason; "pace_level" := pace_level ]};;
  set_pace pace_level;;
  log "warning" (MsgEscalated name pace_level reason);;
  set_extras (WorkflowEscalated name reason pace_level
                                (completed_nodes s) (total_nodes s));;
  _clear_state.

Definition empty_node : Node := mkNode None None None None None None None None.

(** [_inject_graph_context(loop_data, state, plan)].  Rendering reads
    [e["to"]] of every edge leaving the current node when that node is
    declared a task, which raises for an edge without target. *)
Definition _inject_graph_context (plan : Plan) : M State unit :=
  let graph := default (mkGraph None None None) (p_graph plan) in
  let nodes := default ∅ (g_nodes graph) in
  let edges := default [] (g_edges graph) in
  s ← get_state;
  let current_id := current_node s in
  let current := default empty_node (nodes !! current_id) in
  if bool_decide (n_type current = Some "task") then
    let out_edges :=
      List.filter (λ e, bool_decide (e_from e = Some current_id)) edges in
    match List.find (λ e, bool_decide (e_to e = None)) out_edges with
    | Some _ => raise (KeyError "to")
    | None => set_extras (WorkflowStatus s)
    end
  else set_extras (WorkflowStatus s).

(** [state["visited"].setdefault(node_id, {"outcome": "pending", "attempts": 0})] *)
Definition visit_entry (s : State) (node_id : string) : VisitEntry :=
  default fresh_visit (visited s !! node_id).

(** [visited["attempts"] += 1] on the entry that [setdefault] returned. *)
Definition count_attempt (node_id : string) (s : State) : State :=
  let v := visit_entry s node_id in
  set_visited (<[node_id := mkVisit (outcome v) (attempts v + 1)]> (visited s)) s.

(** [visited["outcome"] = o] on the same entry. *)
Definition set_outcome (node_id o : string) (s : State) : State :=
  let v := visit_entry s node_id in
  set_visited (<[node_id := mkVisit o (attempts v)]> (visited s)) s.

(** The first-success bookkeeping of the task branch. *)
Definition record_success (node_id : string) (s : State) : State :=
  let s :=
    if bool_decide (node_id ∈ steps_completed s) then s
    else
      let s := set_completed_nodes (completed_nodes s + 1) s in
      let s := set_steps_completed (steps_completed s ++ [node_id]) s in
      set_turns_since_progress 0 s in
  set_current_step (completed_nodes s) s.

Definition record_failure (node_id : string) (s : State) : State :=
  if bool_decide (node_id ∈ steps_failed s) then s
  else set_steps_failed (steps_failed s ++ [node_id]) s.

(** The [ntype == "task"] branch of [_check_graph_progress] once a tool
    output is available. *)
Definition task_step (plan : Plan) (graph : Graph) (node_id : string) (node : Node)
    (last_output : string) : M State unit :=
  modify_state (count_attempt node_id);;
  let verified := _verify_node node last_output in
  emit "node_verified"
       {[ "node" := node_id; "outcome" := if verified then "success" else "fail" ]};;
  if verified then
    modify_state (set_outcome node_id "success");;
    modify_state (record_success node_id);;
    target ← lift (_follow_edge graph node_id "on_success" "always" "");
    match target_truthy target with
    | Some t =>
        modify_state (_move_to_node node_id t "on_success");;
        _auto_route plan 0
    | None => log "warning" (MsgStallSuccess node_id)
    end
  else
    let max_retries := default 0 (n_max_retries node) in
    s ← get_state;
    if attempts (visit_entry s node_id) <=? max_retries then
      emit "retry_triggered" {[ "node" := node_id ]};;
      target ← lift (_follow_edge graph node_id "on_retry" "" "");
      match target_truthy target with
      | Some t =>
          modify_state (_move_to_node node_id t "on_retry");;
          _auto_route plan 0
      | None => mret tt
      end
    else
      modify_state (set_outcome node_id "fail");;
      modify_state (record_failure node_id);;
      target ← lift (_follow_edge graph node_id "on_exhaust" "on_fail" "always");
      match target_truthy target with
      | Some t =>
          modify_state (_move_to_node node_id t "on_exhaust");;
          _auto_route plan 0
      | None => log "warning" (MsgStallExhaust node_id)
      end.

(** The tail of [_check_graph_progress]: terminal check on the landing
    node, then context injection. *)
Definition finish_turn (plan : Plan) (nodes : gmap string Node) : M State unit :=
  s ← get_state;
  let inject := (_inject_graph_context plan;; _set_state) : M State unit in
  match nodes !! current_node s with
  | Some final_node =>
      if node_truthy final_node then
        ftype ← lift (getitem "type" (n_type final_node));
        if String.eqb ftype "exit" then _complete_graph
        else if String.eqb ftype "escalate" then _escalate_graph final_node
        else inject
      else inject
  | None => inject
  end.

(** The two counter increments that open [_check_graph_progress]. *)
Definition count_turn (s : State) : State :=
  let s := set_turns_since_transition (turns_since_transition s + 1) s in
  set_turns_since_progress (turns_since_progress s + 1) s.

(** The staleness branch of [_check_graph_progress]. *)
Definition expire_plan : M State unit :=
  s ← get_state;
  emit "plan_expired" {[ "node" := current_node s ]};;
  log "info" (MsgExpired (plan_name s) (stale_after_turns s));;
  _clear_state.

(** [_check_graph_progress] after the staleness check, as a function of
    the state it reads [plan_id] and [current_node] from: resolve the plan
    and the current node, dispatch on the node type. *)
Definition dispatch (history_output : list HistItem) (library : Library)
    (s : State) : M State unit :=
  match lookup_plan library (plan_id s) with
  | None => _clear_state
  | Some plan =>
    match p_graph plan with
    | None => _clear_state
    | Some graph =>
      let node_id := current_node s in
      nodes ← lift (getitem "nodes" (g_nodes graph));
      match nodes !! node_id with
      | None => _clear_state
      | Some node =>
        if negb (node_truthy node) then _clear_state
        else
          let ntype := node_type node in
          if String.eqb ntype "exit" then _complete_graph
          else if String.eqb ntype "escalate" then _escalate_graph node
          else if String.eqb ntype "start" then
            _advance_from_start plan;;
            _inject_graph_context plan;;
            _set_state
          else
            (if String.eqb ntype "task" then
               match _get_last_tool_output history_output with
               | Some last_output => task_step plan graph node_id node last_output
               | None => mret tt
               end
             else if String.eqb ntype "decision" then _auto_route plan 0
             else mret tt);;
            finish_turn plan nodes
      end
    end
  end.

Definition traverse (history_output : list HistItem) (library : Library)
    : M State unit :=
  s ← get_state;
  dispatch history_output library s.

(** [_check_graph_progress(agent, state, loop_data, library)] *)
Definition _check_graph_progress (history_output : list HistItem) (library : Library)
    : M State unit :=
  modify_state count_turn;;
  s ← get_state;
  let stale_limit := stale_after_turns s in
  if stale_limit <? turns_since_transition s then expire_plan
  else traverse history_output library.

(** [sum(1 for n in nodes.values() if n.get("type") == "task")] *)
Definition count_task_nodes (nodes : gmap string Node) : Z :=
  Z.of_nat (length (List.filter (λ kv, bool_decide (n_type (snd kv) = Some "task"))
                                (map_to_list nodes))).

(** [_create_graph_state(agent, plan_id, plan)]; the caller attaches the
    result to the agent. *)
Definition _create_graph_state (pid : string) (plan : Plan) (graph : Graph) : State :=
  let task_count := count_task_nodes (default ∅ (g_nodes graph)) in
  let start := default "" (g_start graph) in
  _emit_event "plan_activated" {[ "node" := start; "plan" := pid ]}
    {| plan_id := pid;
       plan_name := default pid (p_name plan);
       current_step := 0;
       total_steps := task_count;
       turns_since_progress := 0;
       steps_completed := [];
       steps_failed := [];
       stale_after_turns := default 15 (p_stale_after_turns plan);
       iteration_started := 0;
       current_node := start;
       visited := ∅;
       path := [start];
       total_nodes := task_count;
       completed_nodes := 0;
       turns_since_transition := 0;
       events := [] |}.

(** ** Linear plan engine (backward compatibility) *)

(** [l[i]] with Python's negative indices. *)
Definition py_index {A} (l : list A) (i : Z) : outcome_of A :=
  let n := Z.of_nat (length l) in
  let j := if i <? 0 then i + n else i in
  if (0 <=? j) && (j <? n) then
    match l !! Z.to_nat j with
    | Some a => Ret a
    | None => Raise IndexError
    end
  else Raise IndexError.

Definition set_l_progress (current : Z) (completed failed : list Z) (turns : Z)
    (l : LinState) : LinState :=
  mkLinState (l_plan_id l) (l_plan_name l) (l_domain l) current completed failed
    (l_total_steps l) (l_stale_after_turns l) turns (l_iteration_started l).

(** [_create_linear_state(agent, plan_id, plan)] *)
Definition _create_linear_state (pid : string) (plan : Plan) : LinState :=
  {| l_plan_id := pid;
     l_plan_name := default pid (p_name plan);
     l_domain := match default [] (p_domains plan) with d :: _ => d | [] => "" end;
     l_current_step := 0;
     l_steps_completed := [];
     l_steps_failed := [];
     l_total_steps := Z.of_nat (length (default [] (p_steps plan)));
     l_stale_after_turns := default 10 (p_stale_after_turns plan);
     l_turns_since_progress := 0;
     l_iteration_started := 0 |}.

(** [_inject_linear_context(loop_data, state, library)] *)
Definition _inject_linear_context (library : Library) : M LinState unit :=
  l ← get_state;
  match lookup_plan library (l_plan_id l) with
  | None => mret tt
  | Some _ => set_extras (LinearStatus l)
  end.

(** The tail of [_check_linear_progress]: inject the context if the plan
    is still active. *)
Definition linear_continue (library : Library) : M LinState unit :=
  cleared ← @state_is_cleared LinState;
  if cleared : bool then mret tt
  else _inject_linear_context library;; _set_state.

(** [_check_linear_progress(agent, state, loop_data, library)] *)
Definition _check_linear_progress (history_output : list HistItem) (library : Library)
    : M LinState unit :=
  modify_state (λ l, set_l_progress (l_current_step l) (l_steps_completed l)
                       (l_steps_failed l) (l_turns_since_progress l + 1) l);;
  l ← get_state;
  let stale_limit := l_stale_after_turns l in
  if stale_limit <? l_turns_since_progress l then
    log "info" (MsgLinearExpired (l_plan_name l) stale_limit);;
    _clear_state
  else if l_total_steps l <=? l_current_step l then
    log "info" (MsgLinearCompleted (l_plan_name l));;
    _clear_state
  else
    match lookup_plan library (l_plan_id l) with
    | None => _clear_state
    | Some plan =>
      match p_steps plan with
      | None => _clear_state
      | Some steps =>
        let current_idx := l_current_step l in
        step ← lift (py_index steps current_idx);
        let continue := linear_continue library in
        match _get_last_tool_output history_output with
        | None => continue
        | Some last_output =>
          if _verify_node step last_output then
            modify_state (λ l, set_l_progress (current_idx + 1)
                                 (l_steps_completed l ++ [current_idx])
                                 (l_steps_failed l) 0 l);;
            name ← lift (getitem "name" (n_name step));
            log "info" (MsgStepVerified (current_idx + 1) name);;
            l' ← get_state;
            if l_total_steps l' <=? l_current_step l' then
              log "info" (MsgLinearCompleted (l_plan_name l'));;
              _clear_state
            else continue
          else
            let on_fail := default "warn" (n_on_fail step) in
            if String.eqb on_fail "skip" then
              modify_state (λ l, set_l_progress (current_idx + 1)
                                   (l_steps_completed l)
                                   (l_steps_failed l ++ [current_idx]) 0 l);;
              continue
            else if String.eqb on_fail "abort" then
              modify_state (λ l, set_l_progress (l_current_step l)
                                   (l_steps_completed l)
                                   (l_steps_failed l ++ [current_idx])
                                   (l_turns_since_progress l) l);;
              name ← lift (getitem "name" (n_name step));
              log "warning" (MsgAborted name);;
              _clear_state
            else continue
        end
      end
    end.

(** ** The per-turn entry point *)

(** The mutable part of the agent and of [loop_data] that the engine
    touches. *)
Record Host := mkHost {
  h_state : option HtnState;
  h_pace : option string;
  h_log : list LogEntry;
  h_extras : option Injection
}.

(** Runs an engine computation on the state object [s], attached to the
    agent or not, and reads the agent attribute back afterwards. *)
Definition run_on {S} (wrap : S → HtnState) (s : S) (h : Host) (m : M S unit)
    : outcome_of unit * Host :=
  let '(r, w) := m (mkWorld s true (h_pace h) (h_log h) (h_extras h)) in
  (r, mkHost (if w_attached w then Some (wrap (w_state w)) else None)
             (w_pace w) (w_log w) (w_extras w)).

(** The body of the [try] block of [HTNPlanSelector.execute].  [library]
    is the result of [_load_library()], [domain] that of
    [_get_bst_domain(agent)], [allowed_plans] the agent's
    [_org_htn_allowed_plans]. *)
Definition execute_body (library : option Library) (domain : string)
    (allowed_plans : option (list string)) (history_output : list HistItem)
    (h : Host) : outcome_of unit * Host :=
  match library with
  | None => (Ret tt, h)
  | Some library =>
    match h_state h with
    | Some (GraphSt s) =>
        run_on GraphSt s h (_check_graph_progress history_output library)
    | Some (LinearSt l) =>
        run_on LinearSt l h (_check_linear_progress history_output library)
    | None =>
        let message := _get_user_message history_output in
        if negb (Text.truthy message) then (Ret tt, h)
        else
          match _match_plan library domain message allowed_plans with
          | Raise e => (Raise e, h)
          | Ret None => (Ret tt, h)
          | Ret (Some (pid, plan)) =>
              match p_graph plan with
              | Some graph =>
                  let s := _create_graph_state pid plan graph in
                  run_on GraphSt s h
                    (_advance_from_start plan;;
                     _inject_graph_context plan;;
                     _set_state;;
                     s' ← get_state;
                     log "info" (MsgGraphActivated (default pid (p_name plan))
                                                   (total_steps s')))
              | None =>
                match p_steps plan with
                | Some steps =>
                    let l := _create_linear_state pid plan in
                    run_on LinearSt l h
                      (_inject_linear_context library;;
                       log "info" (MsgLinearActivated (default pid (p_name plan))
                                                      (Z.of_nat (length steps))))
                | None => (Ret tt, h)
                end
              end
          end
    end
  end.

(** [HTNPlanSelector.execute]: the [try] block and its handler. *)
Definition execute (library : option Library) (domain : string)
    (allowed_plans : option (list string)) (history_output : list HistItem)
    (h : Host) : Host :=
  match execute_body library domain allowed_plans history_output h with
  | (Ret _, h') => h'
  | (Raise e, h') =>
      mkHost (h_state h') (h_pace h') (h_log h' ++ [mkLog "warning" (MsgError e)])
             (h_extras h')
  end.

(** ** Specification vocabulary *)


(** The six verification types that the evaluator names. *)
Definition known_vtypes : list string :=
  ["output_contains"; "output_not_contains"; "exit_code_zero";
   "any_output"; "file_exists"; "manual"].

(** [verify.get("type", "any_output")] and [verify.get("value", "")] *)
Definition spec_type (verify : gmap string string) : string :=
  default "any_output" (verify !! "type").

(** A relation between the state before and after holds for every run of
    an engine computation, whether it returns or raises. *)
Definition preserves {A} (R : State → State → Prop) (m : M State A) : Prop :=
  ∀ w, R (w_state w) (w_state (m w).2).

(** [R] relates every state to the result of each primitive state update
    of the traversal engine. *)
Record step_closed (R : State → State → Prop) : Prop := mkStepClosed {
  sc_emit : ∀ ty fields s, R s (_emit_event ty fields s);
  sc_move : ∀ from_node to_node condition s,
      R s (_move_to_node from_node to_node condition s);
  sc_count : ∀ node_id s, R s (count_attempt node_id s);
  sc_outcome : ∀ node_id o s, R s (set_outcome node_id o s);
  sc_success : ∀ node_id s, R s (record_success node_id s);
  sc_failure : ∀ node_id s, R s (record_failure node_id s)
}.

(** The same, with the updates of the task branch required for the node
    [node_id] only, and only if that node is dispatched as a task
    ([is_task]). *)
Record step_closed_for (R : State → State → Prop) (node_id : string)
    (is_task : Prop) : Prop := mkStepClosedFor {
  scf_emit : ∀ ty fields s, R s (_emit_event ty fields s);
  scf_move : ∀ from_node to_node condition s,
      R s (_move_to_node from_node to_node condition s);
  scf_count : is_task → ∀ s, R s (count_attempt node_id s);
  scf_outcome : is_task → ∀ o s, R s (set_outcome node_id o s);
  scf_success : is_task → ∀ s, R s (record_success node_id s);
  scf_failure : is_task → ∀ s, R s (record_failure node_id s)
}.

(** The world left by the staleness branch: counters advanced, the
    [plan_expired] event appended, the expiry logged, the agent attribute
    removed; nothing else is touched. *)
Definition expired_world (w : World State) : World State :=
  let s := count_turn (w_state w) in
  mkWorld (_emit_event "plan_expired" {[ "node" := current_node s ]} s)
          false (w_pace w)
          (w_log w ++ [mkLog "info" (MsgExpired (plan_name s) (stale_after_turns s))])
          (w_extras w).

(** Consecutive advance calls, one per turn history. *)
Fixpoint advance_calls (library : Library) (turns : list (list HistItem))
    (w : World State) : World State :=
  match turns with
  | [] => w
  | history_output :: rest =>
      advance_calls library rest (_check_graph_progress history_output library w).2
  end.

(** Every one of the calls leaves the plan active and makes no move. *)
Fixpoint quiet_calls (library : Library) (turns : list (list HistItem))
    (w : World State) : Prop :=
  match turns with
  | [] => True
  | history_output :: rest =>
      let w' := (_check_graph_progress history_output library w).2 in
      w_attached w' = true ∧ path (w_state w') = path (w_state w)
      ∧ quiet_calls library rest w'
  end.

(** How one engine call may change the staleness bookkeeping: the window
    is never touched, the path only grows, the transition counter is kept
    when the path is, and is zero once the path has grown. *)
Definition no_move_keeps_turns (s s' : State) : Prop :=
  stale_after_turns s' = stale_after_turns s
  ∧ path s `prefix_of` path s'
  ∧ (path s' = path s → turns_since_transition s' = turns_since_transition s)
  ∧ (path s' ≠ path s → turns_since_transition s' = 0).

(** The world right after a graph plan was activated by [execute]:
    [_create_graph_state] then [_advance_from_start], on a host with empty
    log and no pace level. *)
Definition activated (pid : string) (plan : Plan) (graph : Graph) : World State :=
  (_advance_from_start plan
     (mkWorld (_create_graph_state pid plan graph) true None [] None)).2.

(** ** Sample plans *)

Module Sample.

(** A task node with an [output_contains] check and a retry budget. *)
Definition task (value : string) (max_retries : Z) : Node :=
  mkNode (Some "task") None (Some "act")
         (Some {[ "type" := "output_contains"; "value" := value ]})
         (Some max_retries) None None None.

Definition of_type (t : string) : Node :=
  mkNode (Some t) None None None None None None None.

Definition edge (from_node to_node : string) : Edge :=
  mkEdge (Some from_node) (Some to_node) None.

Definition edge_on (from_node to_node condition : string) : Edge :=
  mkEdge (Some from_node) (Some to_node) (Some condition).

Definition tool_result (output : string) : HistItem :=
  HDict (mkMessage None (Some (CDict {[ "tool_name" := "run"; "tool_result" := output ]}))).

Definition user_says (text : string) : HistItem :=
  HDict (mkMessage (Some false) (Some (CStr text))).

Definition plan_of (graph : Graph) (stale : option Z) : Plan :=
  mkPlan (Some "sample") None (Some ["build"; "deploy"]) None stale (Some graph) None.

(** start -> A (verify "done", one retry) -> exit, every edge unconditional. *)
Definition linear_graph : Graph :=
  mkGraph (Some {[ "s" := of_type "start"; "A" := task "done" 1; "x" := of_type "exit" ]})
          (Some [edge "s" "A"; edge "A" "x"]) (Some "s").

(** The same plan with staleness window 2 (Scenario D). *)
Definition stale_plan : Plan := plan_of linear_graph (Some 2).

(** A decision node whose only edge points back to itself. *)
Definition self_loop_graph : Graph :=
  mkGraph (Some {[ "s" := of_type "start"; "d" := of_type "decision" ]})
          (Some [edge "s" "d"; edge "d" "d"]) (Some "s").

Definition self_loop_plan : Plan := plan_of self_loop_graph None.

(** Scenario E: task A -(on_retry)-> task B -(always)-> task A. *)
Definition cycle_graph : Graph :=
  mkGraph (Some {[ "s" := of_type "start"; "A" := task "ok" 1; "B" := task "fixed" 0 ]})
          (Some [edge "s" "A"; edge_on "A" "B" "on_retry"; edge "B" "A"]) (Some "s").

Definition cycle_plan : Plan := plan_of cycle_graph None.

(** One advance call on [w] with the given tool output as the whole turn
    history. *)
Definition turn (library : Library) (output : string) (w : World State) : World State :=
  (_check_graph_progress [tool_result output] library w).2.

(** A start node without outgoing edge. *)
Definition dead_start_graph : Graph :=
  mkGraph (Some {[ "s" := of_type "start"; "A" := task "done" 0 ]})
          (Some [edge "A" "s"]) (Some "s").

Definition dead_start_plan : Plan := plan_of dead_start_graph None.

(** A plan that qualifies on every message: threshold 0, no triggers, no
    domain tags. *)
Definition catch_all_plan : Plan :=
  mkPlan (Some "catch-all") None None (Some 0) None (Some linear_graph) None.

(** A node without ["type"] key: the engine's dispatch defaults it to a
    task. *)
Definition typeless_graph : Graph :=
  mkGraph (Some {[ "s" := of_type "start";
                   "A" := mkNode None None (Some "act") None None None None None ]})
          (Some [edge "s" "A"]) (Some "s").

Definition typeless_plan : Plan := plan_of typeless_graph None.

Definition idle_host : Host := mkHost None None [] None.

End Sample.

(** A computation appends at most [k] node ids to the path, that is, makes
    at most [k] moves. *)
Definition moves_at_most {A} (k : nat) (m : M State A) : Prop :=
  ∀ w, ∃ moves, path (w_state (m w).2) = path (w_state w) ++ moves
                ∧ (length moves ≤ k)%nat.

(** The path only grows. *)
Definition path_grows (s s' : State) : Prop := path s `prefix_of` path s'.

(** The traversal stays where it is: same node, same path, same visit
    bookkeeping. *)
Definition holds_position (s s' : State) : Prop :=
  current_node s' = current_node s ∧ path s' = path s ∧ visited s' = visited s.

(** [ev] is in the event log with at most [k] events after it. *)
Definition emitted_recently (k : nat) (ev : Event) (s : State) : Prop :=
  ∃ earlier later, events s = earlier ++ ev :: later ∧ (length later ≤ k)%nat.

(** A computation appends at most [j] events to the log: an event with
    [k] successors has at most [k + j] afterwards, as long as that stays
    below the cap. *)
Definition emits_at_most {A} (j : nat) (m : M State A) : Prop :=
  ∀ k ev w, emitted_recently k ev (w_state w) → (k + j < MAX_EVENTS)%nat →
            emitted_recently (k + j) ev (w_state (m w).2).

(** The edge that a failed attempt within budget follows: the first
    [on_retry] edge leaving the node, else the first [always] edge. *)
Definition retry_edge (graph : Graph) (node_id : string) : option Edge :=
  let candidates :=
    List.filter (λ e, bool_decide (e_from e = Some node_id))
                (default [] (g_edges graph)) in
  match first_with candidates "on_retry" with
  | Some e => Some e
  | None => first_with candidates "always"
  end.

(** The state in which the retry branch resolves its edge: attempt
    counted, [node_verified] (fail) and [retry_triggered] emitted. *)
Definition retry_state (node_id : string) (s : State) : State :=
  _emit_event "retry_triggered" {[ "node" := node_id ]}
    (_emit_event "node_verified" {[ "node" := node_id; "outcome" := "fail" ]}
       (count_attempt node_id s)).

(** Node types that auto-routing passes through. *)
Definition routing_types : list string := ["decision"; "start"; "checkpoint"].

(** [current_node] names a defined node that routing does not pass
    through: a task, exit or escalate node (or a node of an undeclared
    type, which the engine treats as actionable too). *)
Definition landed (nodes : gmap string Node) (s : State) : Prop :=
  ∃ node, nodes !! current_node s = Some node
          ∧ node_truthy node = true
          ∧ node_type node ∉ routing_types.

(** [current_node] does not resolve to a node. *)
Definition unresolved (nodes : gmap string Node) (s : State) : Prop :=
  match nodes !! current_node s with
  | None => True
  | Some node => node_truthy node = false
  end.

(** The edge lookup auto-routing performs on a start, decision or
    checkpoint node. *)
Definition route_target (graph : Graph) (s : State) (node : Node)
    : outcome_of (option string) :=
  if String.eqb (node_type node) "decision" then
    let last_outcome := _get_last_outcome s in
    let condition :=
      if Text.truthy last_outcome then "on_" +:+ last_outcome else "always" in
    _follow_edge graph (current_node s) condition "always" ""
  else _follow_edge graph (current_node s) "always" "" "".

(** Routing stopped on a start, decision or checkpoint node because the
    lookup gave no usable target. *)
Definition stalled (graph : Graph) (nodes : gmap string Node) (s : State) : Prop :=
  ∃ node, nodes !! current_node s = Some node
          ∧ node_truthy node = true
          ∧ node_type node ∈ routing_types
          ∧ ∀ t, route_target graph s node = Ret (Some t) → Text.truthy t = false.

(** Activation found no usable unconditional edge out of the start id and
    stayed there. *)
Definition start_blocked (graph : Graph) (s : State) : Prop :=
  current_node s = default "" (g_start graph)
  ∧ ∀ t, _follow_edge graph (default "" (g_start graph)) "always" "" "" = Ret (Some t) →
         Text.truthy t = false.

(** Every level of auto-routing below the ceiling made a move. *)
Definition ceiling_reached (s : State) : Prop :=
  length (path s) = (2 + MAX_ROUTE_DEPTH)%nat.

(** A library entry that the matcher's loop considers: not excluded by
    the allow-list, enough trigger hits, domain accepted. *)
Definition eligible (domain message : string) (allowed_plans : option (list string))
    (entry : string * Plan) : Prop :=
  excluded allowed_plans entry.1 = false
  ∧ qualifies entry.2 domain message = true.

(** The entry at position [i] has a positive score, no eligible entry
    scores higher, and every eligible entry before it scores lower: the
    first entry of highest score. *)
Definition wins (plans : Library) (domain message : string)
    (allowed_plans : option (list string)) (i : nat) (entry : string * Plan) : Prop :=
  plans !! i = Some entry
  ∧ eligible domain message allowed_plans entry
  ∧ 0 < plan_score entry.2 domain message
  ∧ ∀ j other, plans !! j = Some other → eligible domain message allowed_plans other →
      plan_score other.2 domain message ≤ plan_score entry.2 domain message
      ∧ ((j < i)%nat →
         plan_score other.2 domain message < plan_score entry.2 domain message).

(** What the matcher's loop has established after the entries [seen]. *)
Definition match_invariant (domain message : string)
    (allowed_plans : option (list string)) (seen : Library)
    (best : option string * Z) : Prop :=
  match best.1 with
  | None =>
      best.2 = 0
      ∧ ∀ j other, seen !! j = Some other → eligible domain message allowed_plans other →
          plan_score other.2 domain message ≤ 0
  | Some best_id =>
      ∃ i plan, wins seen domain message allowed_plans i (best_id, plan)
                ∧ plan_score plan domain message = best.2
  end.

(** A computation leaves the injection slot as it found it. *)
Definition keeps_extras {S A} (m : M S A) : Prop :=
  ∀ w, w_extras (m w).2 = w_extras w.

(** A computation always returns. *)
Definition never_raises {S A} (m : M S A) : Prop :=
  ∀ w, ∃ a, (m w).1 = Ret a.

(** Whenever a computation raises, it has injected nothing. *)
Definition raises_before_inject {S A} (m : M S A) : Prop :=
  ∀ w e, (m w).1 = Raise e → w_extras (m w).2 = w_extras w.

(** Worlds a session can be in while a graph plan of [library] is active:
    right after activation, or after a further advance call on an active
    plan. *)
Inductive reachable (library : Library) : World State → Prop :=
| reach_activated pid plan graph :
    lookup_plan library pid = Some plan →
    p_graph plan = Some graph →
    reachable library (activated pid plan graph)
| reach_advanced history_output w :
    reachable library w →
    w_attached w = true →
    reachable library (_check_graph_progress history_output library w).2.

(** The completion bookkeeping is consistent: no id is listed twice and
    the counter is the number of ids listed. *)
Definition completion_consistent (s : State) : Prop :=
  NoDup (steps_completed s)
  ∧ completed_nodes s = Z.of_nat (length (steps_completed s)).

Definition keeps_completion_consistent (s s' : State) : Prop :=
  completion_consistent s → completion_consistent s'.

(** [node_id] names a node that declares ["type": "task"]: one of the
    nodes [_create_graph_state] counts. *)
Definition declared_task (nodes : gmap string Node) (node_id : string) : Prop :=
  ∃ node, nodes !! node_id = Some node ∧ n_type node = Some "task".

(** [node_id] is a declared task node of the plan [pid] of the library. *)
Definition declared_in (library : Library) (pid node_id : string) : Prop :=
  ∃ plan graph, lookup_plan library pid = Some plan
                ∧ p_graph plan = Some graph
                ∧ declared_task (default ∅ (g_nodes graph)) node_id.

(** Every node of every graph of the library carries a ["type"] key. *)
Definition types_declared (library : Library) : Prop :=
  ∀ pid plan graph nodes node_id node,
    lookup_plan library pid = Some plan →
    p_graph plan = Some graph →
    g_nodes graph = Some nodes →
    nodes !! node_id = Some node →
    node_truthy node = true →
    is_Some (n_type node).

(** The state belongs to a graph plan of the library, [total_nodes] is
    that plan's count of declared task nodes, and only declared task nodes
    are listed as completed. *)
Definition completion_within_plan (library : Library) (s : State) : Prop :=
  ∃ plan graph,
    lookup_plan library (plan_id s) = Some plan
    ∧ p_graph plan = Some graph
    ∧ total_nodes s = count_task_nodes (default ∅ (g_nodes graph))
    ∧ ∀ x, x ∈ steps_completed s → declared_task (default ∅ (g_nodes graph)) x.

(** The plan and the total are kept, and the only id that may be added to
    [steps_completed] is [node_id], and only if [is_task]. *)
Definition only_completes (node_id : string) (is_task : Prop) (s s' : State) : Prop :=
  plan_id s' = plan_id s
  ∧ total_nodes s' = total_nodes s
  ∧ ∀ x, x ∈ steps_completed s' → x ∈ steps_completed s ∨ (x = node_id ∧ is_task).

(** The node the traversal is on has a fresh visit entry: the entry that
    the next verification starts from reads [{pending, 0}]. *)
Definition fresh_here (s : State) : Prop :=
  visit_entry s (current_node s) = fresh_visit.

(** After a move the traversal is on a fresh node. *)
Definition lands_fresh (s s' : State) : Prop :=
  path s `prefix_of` path s' ∧ (path s' ≠ path s → fresh_here s').

(** The same, and a fresh node stays fresh while no move is made: what
    holds of the steps that follow a move. *)
Definition keeps_fresh (s s' : State) : Prop :=
  path s `prefix_of` path s'
  ∧ (path s' ≠ path s → fresh_here s')
  ∧ (path s' = path s → fresh_here s → fresh_here s').

(** ** Further vocabulary: event log, edge resolution, routing outcome *)

(** The conditions [_follow_edge] tries, in order: the condition asked
    for, the fallbacks that are not empty, then ["always"]. *)
Definition resolution_order (condition fallback fallback2 : string) : list string :=
  condition
  :: (if Text.truthy fallback then [fallback] else [])
  ++ (if Text.truthy fallback2 then [fallback2] else [])
  ++ ["always"].

(** The edges leaving [from_node], in the order of the document. *)
Definition edges_from (graph : Graph) (from_node : string) : list Edge :=
  List.filter (λ e, bool_decide (e_from e = Some from_node)) (default [] (g_edges graph)).

(** The first edge found when the conditions are tried in order. *)
Fixpoint first_in_order (candidates : list Edge) (order : list string) : option Edge :=
  match order with
  | [] => None
  | c :: rest =>
      match first_with candidates c with
      | Some e => Some e
      | None => first_in_order candidates rest
      end
  end.

(** The most recent [node_verified] event of the log records outcome [o]
    and has at most [k] events after it. *)
Definition latest_verified (o : string) (k : nat) (s : State) : Prop :=
  ∃ earlier ev later,
    events s = earlier ++ ev :: later
    ∧ ev_type ev = "node_verified"
    ∧ ev_fields ev !! "outcome" = Some o
    ∧ Forall (λ e, ev_type e ≠ "node_verified") later
    ∧ (length later ≤ k)%nat.

(** The event log respects its cap. *)
Definition within_cap (s : State) : Prop := (length (events s) ≤ MAX_EVENTS)%nat.

Definition keeps_within_cap (s s' : State) : Prop := within_cap s → within_cap s'.

(** [e] is the edge that resolution picks among [candidates]: its
    condition is the first one of [order] that any candidate carries, and
    it is the first candidate carrying that condition. *)
Definition picked (candidates : list Edge) (order : list string) (e : Edge) : Prop :=
  ∃ i k,
    candidates !! i = Some e
    ∧ order !! k = Some (edge_condition e)
    ∧ (∀ j e', (j < i)%nat → candidates !! j = Some e' →
         edge_condition e' ≠ edge_condition e)
    ∧ (∀ k' c e', (k' < k)%nat → order !! k' = Some c → e' ∈ candidates →
         edge_condition e' ≠ c).

(** A computation emits at most [j] events, none of them a verification:
    the latest verdict stays the latest, with at most [j] more events after
    it, as long as that stays below the cap. *)
Definition keeps_verdict {A} (j : nat) (m : M State A) : Prop :=
  ∀ o k w, latest_verified o k (w_state w) → (k + j < MAX_EVENTS)%nat →
           latest_verified o (k + j) (w_state (m w).2).

(** ** Further vocabulary: turn history *)



(** The tool output that a history item carries, if it carries one. *)
Definition tool_output_of (item : HistItem) : option string :=
  match item with
  | HOther => None
  | HDict msg =>
      match default (CStr "") (m_content msg) with
      | CDict d =>
          match d !! "tool_name" with
          | Some _ =>
              Some (default (default (default "" (d !! "result")) (d !! "output"))
                            (d !! "tool_result"))
          | None => None
          end
      | CStr s => if Text.startswith s "[tool_result" then Some s else None
      end
  end.


(** The world an advance call leaves when only its two counters moved. *)
Definition ticked (w : World State) : World State :=
  mkWorld (count_turn (w_state w)) (w_attached w) (w_pace w) (w_log w) (w_extras w).

(** ** Further vocabulary: progress bookkeeping and state invariants *)

(** How the engine's updates move the progress counter: it is kept while
    no id is added to [steps_completed], and is zero once one was added. *)
Definition progress_tracked (s s' : State) : Prop :=
  ∃ added, steps_completed s' = steps_completed s ++ added
           ∧ (added = [] → turns_since_progress s' = turns_since_progress s)
           ∧ (added ≠ [] → turns_since_progress s' = 0).

(** An update keeps the invariant [I]. *)
Definition keeps (I : State → Prop) (s s' : State) : Prop := I s → I s'.

(** The fields kept for the supervisor mirror the graph counters. *)
Definition compat_in_sync (s : State) : Prop :=
  current_step s = completed_nodes s ∧ total_steps s = total_nodes s.

(** The path ends at the current node, no id is listed twice as failed,
    and every id with a visit entry or listed as completed or failed is on
    the path. *)
Definition path_consistent (s : State) : Prop :=
  last (path s) = Some (current_node s)
  ∧ NoDup (steps_failed s)
  ∧ ∀ x, x ∈ steps_completed s ∨ x ∈ steps_failed s ∨ is_Some (visited s !! x) →
         x ∈ path s.

(** The same during a call that entered on the node [node_id]. *)
Definition path_consistent_from (node_id : string) (s : State) : Prop :=
  path_consistent s ∧ node_id ∈ path s.

(** ** Further vocabulary: ends of a call *)

(** The world left when the engine drops the plan without a word: the
    two counters advanced, the agent attribute removed. *)
Definition dropped (w : World State) : World State :=
  mkWorld (count_turn (w_state w)) false (w_pace w) (w_log w) (w_extras w).

(** The world that [_complete_graph] leaves. *)
Definition completed_world (w : World State) : World State :=
  let s := w_state w in
  mkWorld (_emit_event "plan_completed" {[ "node" := current_node s ]} s)
          false (w_pace w)
          (w_log w ++ [mkLog "info" (MsgCompleted (plan_name s) (completed_nodes s)
                                                   (total_nodes s))])
          (w_extras w).

(** The world that [_escalate_graph] leaves. *)
Definition escalated_world (escalate_node : Node) (w : World State) : World State :=
  let s := w_state w in
  let pace_level := default "contingent" (n_pace_level escalate_node) in
  let reason := default "Plan escalated" (n_reason escalate_node) in
  mkWorld (_emit_event "plan_escalated"
             {[ "node" := current_node s; "reason" := reason;
                "pace_level" := pace_level ]} s)
          false (Some pace_level)
          (w_log w ++ [mkLog "warning" (MsgEscalated (plan_name s) pace_level reason)])
          (Some (WorkflowEscalated (plan_name s) reason pace_level
                                   (completed_nodes s) (total_nodes s))).

(** The state in which the exhaust branch resolves its edge: attempt
    counted, [node_verified] (fail) emitted, the visit marked failed and
    the node listed in [steps_failed] if it was not yet. *)
Definition exhaust_state (node_id : string) (s : State) : State :=
  record_failure node_id
    (set_outcome node_id "fail"
       (_emit_event "node_verified" {[ "node" := node_id; "outcome" := "fail" ]}
          (count_attempt node_id s))).

(** The state in which the success branch resolves its edge: attempt
    counted, [node_verified] (success) emitted, the visit marked
    successful and the completion recorded. *)
Definition success_state (node_id : string) (s : State) : State :=
  record_success node_id
    (set_outcome node_id "success"
       (_emit_event "node_verified" {[ "node" := node_id; "outcome" := "success" ]}
          (count_attempt node_id s))).

(** What a branch of the task step does once its bookkeeping is done:
    look the edge up, move and route on, or log that the traversal
    stalls. *)
Definition route_or_stall (plan : Plan) (graph : Graph) (node_id : string)
    (condition fallback fallback2 : string) (stall : LogMsg) : M State unit :=
  target ← lift (_follow_edge graph node_id condition fallback fallback2);
  match target_truthy target with
  | Some t => modify_state (_move_to_node node_id t condition);; _auto_route plan 0
  | None => log "warning" stall
  end.

(** The completion and failure records are left as they are. *)
Definition keeps_records (s s' : State) : Prop :=
  steps_completed s' = steps_completed s
  ∧ completed_nodes s' = completed_nodes s
  ∧ steps_failed s' = steps_failed s.

(** The call ended on the state [s1] with a stall warning as its last log
    entry. *)
Definition stalled_at (s1 : State) (stall : LogMsg) (w w' : World State) : Prop :=
  w_state w' = s1 ∧ w_log w' = w_log w ++ [mkLog "warning" stall].

(** ** Further sample plans *)

(** start -> A (verify "done", two retries) -(on_success)-> exit: A has no
    edge for a failed attempt. *)
Definition patient_graph : Graph :=
  mkGraph (Some {[ "s" := Sample.of_type "start"; "A" := Sample.task "done" 2;
                   "x" := Sample.of_type "exit" ]})
          (Some [Sample.edge "s" "A"; Sample.edge_on "A" "x" "on_success"]) (Some "s").

Definition patient_plan : Plan := Sample.plan_of patient_graph None.

(** Every turn of the list carries a tool output that fails the check of
    [node]. *)
Definition all_fail (node : Node) (turns : list (list HistItem)) : Prop :=
  Forall (λ history_output,
            ∃ last_output, _get_last_tool_output history_output = Some last_output
                           ∧ _verify_node node last_output = false) turns.

(** ** Further vocabulary: the linear engine *)

(** Worlds a session can be in while a linear plan of [library] is
    active: right after activation, or after a further advance call on an
    active plan. *)
Inductive lin_reachable (library : Library) : World LinState → Prop :=
| lin_activated pid plan steps pace log extras :
    lookup_plan library pid = Some plan →
    p_steps plan = Some steps →
    lin_reachable library (mkWorld (_create_linear_state pid plan) true pace log extras)
| lin_advanced history_output w :
    lin_reachable library w →
    w_attached w = true →
    lin_reachable library (_check_linear_progress history_output library w).2.

(** The state belongs to a linear plan of the library, counts that plan's
    steps, its step index is within them, and its idle counter is not
    negative. *)
Definition lin_within_plan (library : Library) (l : LinState) : Prop :=
  ∃ plan steps,
    lookup_plan library (l_plan_id l) = Some plan
    ∧ p_steps plan = Some steps
    ∧ l_total_steps l = Z.of_nat (length steps)
    ∧ 0 ≤ l_current_step l ≤ l_total_steps l
    ∧ 0 ≤ l_turns_since_progress l.

(** Every step passed so far is listed exactly once, as completed or as
    failed. *)
Definition lin_accounted (l : LinState) : Prop :=
  l_steps_completed l ++ l_steps_failed l ≡ₚ seqZ 0 (l_current_step l).

(** Every step of every linear plan of the library has a ["name"]. *)
Definition steps_named (library : Library) : Prop :=
  ∀ pid plan steps step,
    lookup_plan library pid = Some plan →
    p_steps plan = Some steps →
    step ∈ steps →
    is_Some (n_name step).

(** What an advance call of the linear engine leaves alone. *)
Definition lin_frame (l l' : LinState) : Prop :=
  l_plan_id l' = l_plan_id l
  ∧ l_plan_name l' = l_plan_name l
  ∧ l_total_steps l' = l_total_steps l
  ∧ l_stale_after_turns l' = l_stale_after_turns l.

(** The four things a call can do to the step bookkeeping: leave it
    (one more turn without progress), pass the step as verified, pass it
    as skipped, or list it as failed without passing it. *)
Definition lin_kept (l l' : LinState) : Prop :=
  l_current_step l' = l_current_step l
  ∧ l_steps_completed l' = l_steps_completed l
  ∧ l_steps_failed l' = l_steps_failed l
  ∧ l_turns_since_progress l' = l_turns_since_progress l + 1.

Definition lin_verified (l l' : LinState) : Prop :=
  l_current_step l' = l_current_step l + 1
  ∧ l_steps_completed l' = l_steps_completed l ++ [l_current_step l]
  ∧ l_steps_failed l' = l_steps_failed l
  ∧ l_turns_since_progress l' = 0.

Definition lin_skipped (l l' : LinState) : Prop :=
  l_current_step l' = l_current_step l + 1
  ∧ l_steps_completed l' = l_steps_completed l
  ∧ l_steps_failed l' = l_steps_failed l ++ [l_current_step l]
  ∧ l_turns_since_progress l' = 0.

Definition lin_aborted (l l' : LinState) : Prop :=
  l_current_step l' = l_current_step l
  ∧ l_steps_completed l' = l_steps_completed l
  ∧ l_steps_failed l' = l_steps_failed l ++ [l_current_step l]
  ∧ l_turns_since_progress l' = l_turns_since_progress l + 1.

(** A session on a linear plan: one advance call per turn for as long as
    the plan is attached (once it is detached, the entry point no longer
    calls the linear engine with it). *)
Fixpoint lin_session (library : Library) (turns : list (list HistItem))
    (w : World LinState) : World LinState :=
  match turns with
  | [] => w
  | history_output :: rest =>
      if w_attached w
      then lin_session library rest (_check_linear_progress history_output library w).2
      else w
  end.

(** An upper bound on the number of further calls a linear plan can stay
    attached for: every remaining step may use up the whole staleness
    window before it is passed. *)
Definition lin_lifetime (l : LinState) : Z :=
  (l_total_steps l - l_current_step l) * (l_stale_after_turns l + 1)
  + (l_stale_after_turns l - l_turns_since_progress l) + 1.

(** A linear plan of two named steps: the first is skipped when its check
    fails, the second aborts the plan. *)
Definition two_step_plan : Plan :=
  mkPlan (Some "two steps") None (Some ["first"; "second"]) None (Some 3) None
         (Some [mkNode None (Some "fetch") (Some "fetch it")
                       (Some {[ "type" := "output_contains"; "value" := "fetched" ]})
                       None None None (Some "skip");
                mkNode None (Some "store") (Some "store it")
                       (Some {[ "type" := "output_contains"; "value" := "stored" ]})
                       None None None (Some "abort")]).

(** ** Further vocabulary: the state on the host *)

(** The invariants of a graph traversal state, taken together. *)
Definition graph_state_ok (s : State) : Prop :=
  within_cap s ∧ compat_in_sync s ∧ completion_consistent s ∧ path_consistent s.

(** The state that the agent holds, if any, is well formed. *)
Definition host_ok (library : Library) (h : Host) : Prop :=
  match h_state h with
  | Some (GraphSt s) => graph_state_ok s
  | Some (LinearSt l) => lin_within_plan library l
  | None => True
  end.

(** The plan a state belongs to, with its mode. *)
Definition plan_of_state (st : HtnState) : string * string :=
  match st with
  | GraphSt s => ("graph", plan_id s)
  | LinearSt l => ("linear", l_plan_id l)
  end.

(** One call of the entry point per turn; a turn gives the domain, the
    allow-list and the history of that call. *)
Fixpoint run_turns (library : Library)
    (turns : list (string * option (list string) * list HistItem)) (h : Host) : Host :=
  match turns with
  | [] => h
  | (domain, allowed_plans, history_output) :: rest =>
      run_turns library rest
        (execute (Some library) domain allowed_plans history_output h)
  end.

(** A computation touches nothing but the traversal state. *)
Definition state_only {A} (m : M State A) : Prop :=
  ∀ w, w_attached (m w).2 = w_attached w
       ∧ w_pace (m w).2 = w_pace w
       ∧ w_log (m w).2 = w_log w
       ∧ w_extras (m w).2 = w_extras w.

(** ** Library loading *)

(** [_load_library()] on the module-level cache [_library_cache]; [read]
    is what opening and parsing the plan library file gives at the time of
    the call, [None] when that raises.  Returns the result and the cache
    afterwards. *)
Definition _load_library {Doc : Type} (read : option Doc) (cache : option Doc)
    : option Doc * option Doc :=
  match cache with
  | Some library => (Some library, cache)
  | None =>
      match read with
      | Some library => (Some library, Some library)
      | None => (None, cache)
      end
  end.

(** Successive calls of [_load_library], one per element of [reads]; the
    results in order, and the cache at the end. *)
Fixpoint load_calls {Doc : Type} (reads : list (option Doc)) (cache : option Doc)
    : list (option Doc) * option Doc :=
  match reads with
  | [] => ([], cache)
  | read :: rest =>
      let '(result, cache') := _load_library read cache in
      let '(results, cache'') := load_calls rest cache' in
      (result :: results, cache'')
  end.

(** ** The traversal summary of the status text *)






(* ================================================================== *)
(** * Properties *)
(* ================================================================== *)

(** ** Text *)








Lemma rstrip_empty s : Text.rstrip s = EmptyString ↔ Text.has_non_space s = false.
Proof.
  induction s as [|c s IH]; simpl; [done|].
  destruct (Text.is_space c); simpl.
  - destruct (Text.rstrip s) eqn:E; simpl.
    + split; [intros _; by apply IH | done].
    + split; [done | intros H; apply IH in H; discriminate].
  - split; discriminate.
Qed.

Lemma lstrip_non_space s : Text.has_non_space (Text.lstrip s) = Text.has_non_space s.
Proof.
  induction s as [|c s IH]; simpl; [done|].
  destruct (Text.is_space c) eqn:E; simpl; [done | by rewrite E].
Qed.

(** [bool(s.strip())] holds exactly when [s] has a character that is not
    white space. *)
Lemma strip_truthy s : Text.truthy (Text.strip s) = Text.has_non_space s.
Proof.
  unfold Text.strip, Text.truthy. rewrite <- lstrip_non_space.
  destruct (Text.has_non_space (Text.lstrip s)) eqn:E.
  - destruct (Text.rstrip (Text.lstrip s)) eqn:R; [|done].
    apply rstrip_empty in R. congruence.
  - apply rstrip_empty in E. by rewrite E.
Qed.

(** ** Verification evaluator *)




(** C10. A verification spec whose type is none of the six named types
    passes whatever the output is. *)
Theorem verify_unknown_type_passes (node : Node) (verify : gmap string string)
    (output : string) :
  n_verify node = Some verify →
  spec_type verify ∉ known_vtypes →
  _verify_node node output = true.
Proof.
  intros Hv Hnot. unfold _verify_node. rewrite Hv.
  destruct (bool_decide (verify = ∅)); [done|]. cbv zeta.
  fold (spec_type verify).
  assert (∀ t, t ∈ known_vtypes → String.eqb (spec_type verify) t = false) as Hf.
  { intros t Ht. apply String.eqb_neq. intros E. apply Hnot. by rewrite E. }
  rewrite !Hf by (unfold known_vtypes; set_solver). done.
Qed.

Lemma verify_unknown_type_passes_witness :
  _verify_node
    (mkNode (Some "task") None None
            (Some {[ "type" := "regex"; "value" := "^ok$" ]}) None None None None)
    "anything at all" = true.
Proof.
  apply (verify_unknown_type_passes _ {[ "type" := "regex"; "value" := "^ok$" ]});
    [reflexivity|].
  apply not_elem_of_cons; split; [vm_compute; discriminate|].
  apply not_elem_of_cons; split; [vm_compute; discriminate|].
  apply not_elem_of_cons; split; [vm_compute; discriminate|].
  apply not_elem_of_cons; split; [vm_compute; discriminate|].
  apply not_elem_of_cons; split; [vm_compute; discriminate|].
  apply not_elem_of_cons; split; [vm_compute; discriminate|].
  apply not_elem_of_nil.
Defined.

(** ** State updates leave the other fields alone *)

Lemma emit_event_frame ty fields s :
  plan_id (_emit_event ty fields s) = plan_id s
  ∧ stale_after_turns (_emit_event ty fields s) = stale_after_turns s
  ∧ current_node (_emit_event ty fields s) = current_node s
  ∧ visited (_emit_event ty fields s) = visited s
  ∧ path (_emit_event ty fields s) = path s
  ∧ turns_since_transition (_emit_event ty fields s) = turns_since_transition s
  ∧ total_nodes (_emit_event ty fields s) = total_nodes s
  ∧ completed_nodes (_emit_event ty fields s) = completed_nodes s
  ∧ steps_completed (_emit_event ty fields s) = steps_completed s.
Proof. unfold _emit_event. by case_match. Qed.

Lemma events_set_events v s : events (set_events v s) = v.
Proof. reflexivity. Qed.

(** The event just emitted is the last one of the log. *)
Lemma emit_event_last ty fields s :
  ∃ earlier, events (_emit_event ty fields s) =
             earlier ++ [mkEvent ty (turns_since_transition s) fields].
Proof.
  unfold _emit_event. case_match; rewrite events_set_events.
  - unfold last_n.
    rewrite drop_app_le by (rewrite length_app; unfold MAX_EVENTS; simpl; lia).
    eexists. reflexivity.
  - eexists. reflexivity.
Qed.

Lemma move_to_node_path from_node to_node condition s :
  path (_move_to_node from_node to_node condition s) = path s ++ [to_node].
Proof.
  unfold _move_to_node.
  repeat (rewrite (proj1 (proj2 (proj2 (proj2 (proj2 (emit_event_frame _ _ _))))))).
  by case_match.
Qed.

Lemma move_to_node_current from_node to_node condition s :
  current_node (_move_to_node from_node to_node condition s) = to_node.
Proof.
  unfold _move_to_node.
  repeat (rewrite (proj1 (proj2 (proj2 (emit_event_frame _ _ _))))).
  by case_match.
Qed.

Lemma move_to_node_turns from_node to_node condition s :
  turns_since_transition (_move_to_node from_node to_node condition s) = 0.
Proof.
  unfold _move_to_node.
  repeat (rewrite (proj1 (proj2 (proj2 (proj2 (proj2 (proj2 (emit_event_frame _ _ _)))))))).
  by case_match.
Qed.

Lemma move_to_node_stale from_node to_node condition s :
  stale_after_turns (_move_to_node from_node to_node condition s) = stale_after_turns s.
Proof.
  unfold _move_to_node.
  repeat (rewrite (proj1 (proj2 (emit_event_frame _ _ _)))).
  by case_match.
Qed.

Lemma move_to_node_visited from_node to_node condition s :
  visited (_move_to_node from_node to_node condition s) =
  match visited s !! to_node with
  | Some _ => <[to_node := fresh_visit]> (visited s)
  | None => visited s
  end.
Proof.
  unfold _move_to_node.
  repeat (rewrite (proj1 (proj2 (proj2 (proj2 (emit_event_frame _ _ _)))))).
  unfold set_turns_since_transition, set_path, set_current_node. simpl.
  by destruct (visited s !! to_node).
Qed.

Lemma move_to_node_completion from_node to_node condition s :
  plan_id (_move_to_node from_node to_node condition s) = plan_id s
  ∧ total_nodes (_move_to_node from_node to_node condition s) = total_nodes s
  ∧ completed_nodes (_move_to_node from_node to_node condition s) = completed_nodes s
  ∧ steps_completed (_move_to_node from_node to_node condition s) = steps_completed s.
Proof.
  unfold _move_to_node.
  repeat match goal with
  | |- context [ _emit_event ?ty ?f ?x ] =>
      destruct (emit_event_frame ty f x) as (->&_&_&_&_&_&->&->&->)
  end.
  by case_match.
Qed.

(** ** Running computations *)

Lemma bind_run {S A B} (m : M S A) (k : A → M S B) w :
  (m ≫= k) w =
  match m w with
  | (Ret a, w') => k a w'
  | (Raise e, w') => (Raise e, w')
  end.
Proof. reflexivity. Qed.

Lemma ret_run {S A} (a : A) (w : World S) : (mret a : M S A) w = (Ret a, w).
Proof. reflexivity. Qed.

Lemma bind_lift_ret {S A B} (a : A) (k : A → M S B) w : (lift (Ret a) ≫= k) w = k a w.
Proof. reflexivity. Qed.

Lemma bind_get {S B} (k : S → M S B) w : (get_state ≫= k) w = k (w_state w) w.
Proof. reflexivity. Qed.

Section Preserves.
Context (R : State → State → Prop) `{!PreOrder R}.

Lemma preserves_ret {A} (a : A) : preserves R (mret a).
Proof. intros w. reflexivity. Qed.

Lemma preserves_raise {A} e : preserves R (@raise State A e).
Proof. intros w. reflexivity. Qed.

Lemma preserves_lift {A} (o : outcome_of A) : preserves R (lift o).
Proof. intros w. reflexivity. Qed.

Lemma preserves_get : preserves R get_state.
Proof. intros w. reflexivity. Qed.

Lemma preserves_log ty msg : preserves R (log ty msg).
Proof. intros w. reflexivity. Qed.

Lemma preserves_clear : preserves R _clear_state.
Proof. intros w. reflexivity. Qed.

Lemma preserves_set_state : preserves R _set_state.
Proof. intros w. reflexivity. Qed.

Lemma preserves_set_pace p : preserves R (set_pace p).
Proof. intros w. reflexivity. Qed.

Lemma preserves_set_extras i : preserves R (set_extras i).
Proof. intros w. reflexivity. Qed.

Lemma preserves_modify f : (∀ s, R s (f s)) → preserves R (modify_state f).
Proof. intros Hf w. apply Hf. Qed.

Lemma preserves_bind {A B} (m : M State A) (k : A → M State B) :
  preserves R m → (∀ a, preserves R (k a)) → preserves R (m ≫= k).
Proof.
  intros Hm Hk w. rewrite bind_run. specialize (Hm w).
  destruct (m w) as [[a|e] w']; simpl in *; [|done].
  etrans; [exact Hm | apply Hk].
Qed.

Section EmitOnly.
Context (Hemit : ∀ ty fields s, R s (_emit_event ty fields s)).

Lemma preserves_emit ty fields : preserves R (emit ty fields).
Proof. apply preserves_modify, Hemit. Qed.

Ltac pres_emit known :=
  repeat first
    [ known
    | apply preserves_emit
    | apply preserves_lift | apply preserves_get | apply preserves_ret
    | apply preserves_log | apply preserves_clear | apply preserves_set_state
    | apply preserves_set_pace | apply preserves_set_extras
    | apply preserves_raise
    | apply preserves_bind; [|intros ?]
    | progress cbv zeta
    | case_match ].

Lemma preserves_complete_graph : preserves R _complete_graph.
Proof. unfold _complete_graph. pres_emit fail. Qed.

Lemma preserves_escalate_graph node : preserves R (_escalate_graph node).
Proof. unfold _escalate_graph. pres_emit fail. Qed.

Lemma preserves_inject plan : preserves R (_inject_graph_context plan).
Proof. unfold _inject_graph_context. pres_emit fail. Qed.

Lemma preserves_finish_turn plan nodes : preserves R (finish_turn plan nodes).
Proof.
  unfold finish_turn.
  pres_emit ltac:(first [ apply preserves_complete_graph
                        | apply preserves_escalate_graph
                        | apply preserves_inject ]).
Qed.

Lemma preserves_expire_plan : preserves R expire_plan.
Proof. unfold expire_plan. pres_emit fail. Qed.
End EmitOnly.

Section ClosedFor.
Context (node_id : string) (is_task : Prop) (closed : step_closed_for R node_id is_task).

Lemma preserves_auto_route_body recurse plan :
  preserves R recurse → preserves R (auto_route_body recurse plan).
Proof.
  intros Hrec. unfold auto_route_body.
  repeat first
    [ exact Hrec
    | apply preserves_lift | apply preserves_get | apply preserves_ret
    | apply preserves_modify, (scf_move R node_id is_task closed)
    | apply preserves_bind; [|intros ?]
    | progress cbv zeta
    | case_match ].
Qed.

Lemma preserves_auto_route_from n plan : preserves R (auto_route_from n plan).
Proof.
  induction n as [|n IH]; simpl; [apply preserves_ret|].
  by apply preserves_auto_route_body.
Qed.

Lemma preserves_auto_route plan depth : preserves R (_auto_route plan depth).
Proof. apply preserves_auto_route_from. Qed.

Ltac pres_with known :=
  repeat first
    [ known
    | apply preserves_auto_route
    | apply (preserves_emit (scf_emit R node_id is_task closed))
    | apply preserves_lift | apply preserves_get | apply preserves_ret
    | apply preserves_log | apply preserves_clear | apply preserves_set_state
    | apply preserves_set_pace | apply preserves_set_extras
    | apply preserves_raise
    | apply preserves_modify, (scf_move R node_id is_task closed)
    | apply preserves_bind; [|intros ?]
    | progress cbv zeta
    | case_match ].

Lemma preserves_advance_from_start plan : preserves R (_advance_from_start plan).
Proof. unfold _advance_from_start. pres_with fail. Qed.

Lemma preserves_task_step plan graph node last_output :
  is_task → preserves R (task_step plan graph node_id node last_output).
Proof.
  intros Htask. unfold task_step.
  pres_with ltac:(first
    [ apply preserves_modify, (scf_count R node_id is_task closed Htask)
    | apply preserves_modify, (scf_outcome R node_id is_task closed Htask)
    | apply preserves_modify, (scf_success R node_id is_task closed Htask)
    | apply preserves_modify, (scf_failure R node_id is_task closed Htask) ]).
Qed.

Lemma preserves_bind_lift {A B} (o : outcome_of A) (k : A → M State B) :
  (∀ a, o = Ret a → preserves R (k a)) → preserves R (lift o ≫= k).
Proof.
  intros Hk w. destruct o as [a|e]; [|reflexivity]. exact (Hk a eq_refl w).
Qed.

(** Dispatch from a state whose current node is [node_id]; [is_task] has
    to hold when the library resolves that node to one dispatched as a
    task. *)
Lemma preserves_dispatch history_output library s :
  current_node s = node_id →
  (∀ plan graph nodes node,
     lookup_plan library (plan_id s) = Some plan →
     p_graph plan = Some graph →
     g_nodes graph = Some nodes →
     nodes !! node_id = Some node →
     node_truthy node = true →
     node_type node = "task" →
     is_task) →
  preserves R (dispatch history_output library s).
Proof.
  intros Hcur Htask. unfold dispatch. rewrite Hcur.
  destruct (lookup_plan library (plan_id s)) as [plan|] eqn:Hplan;
    [|apply preserves_clear].
  destruct (p_graph plan) as [graph|] eqn:Hgraph; [|apply preserves_clear].
  cbv zeta. apply preserves_bind_lift. intros nodes Hnodes.
  assert (g_nodes graph = Some nodes) as Hnodes'
    by (destruct (g_nodes graph); simpl in Hnodes; congruence).
  destruct (nodes !! node_id) as [node|] eqn:Hnode; [|apply preserves_clear].
  destruct (node_truthy node) eqn:Htruthy; cbn [negb]; [|apply preserves_clear].
  destruct (String.eqb (node_type node) "exit");
    [apply (preserves_complete_graph (scf_emit R node_id is_task closed))|].
  destruct (String.eqb (node_type node) "escalate");
    [apply (preserves_escalate_graph (scf_emit R node_id is_task closed))|].
  destruct (String.eqb (node_type node) "start").
  { apply preserves_bind; [apply preserves_advance_from_start | intros _].
    apply preserves_bind; [apply preserves_inject | intros _].
    apply preserves_set_state. }
  apply preserves_bind;
    [|intros _; apply (preserves_finish_turn (scf_emit R node_id is_task closed))].
  destruct (String.eqb (node_type node) "task") eqn:Htype.
  - apply String.eqb_eq in Htype.
    destruct (_get_last_tool_output history_output); [|apply preserves_ret].
    apply preserves_task_step. by apply (Htask plan graph nodes node).
  - destruct (String.eqb (node_type node) "decision");
      [apply preserves_auto_route | apply preserves_ret].
Qed.

(** One advance call on a world whose current node is [node_id]. *)
Lemma check_graph_progress_preserves history_output library w :
  current_node (w_state w) = node_id →
  (∀ plan graph nodes node,
     lookup_plan library (plan_id (w_state w)) = Some plan →
     p_graph plan = Some graph →
     g_nodes graph = Some nodes →
     nodes !! node_id = Some node →
     node_truthy node = true →
     node_type node = "task" →
     is_task) →
  (∀ s, R s (count_turn s)) →
  R (w_state w) (w_state (_check_graph_progress history_output library w).2).
Proof.
  intros Hcur Htask Hcount. unfold _check_graph_progress.
  rewrite bind_run. cbn [modify_state]. rewrite bind_get.
  set (w1 := mkWorld (count_turn (w_state w)) _ _ _ _).
  change (w_state w1) with (count_turn (w_state w)).
  etrans; [apply (Hcount (w_state w))|].
  destruct (_ <? _).
  - apply (preserves_expire_plan (scf_emit R node_id is_task closed) w1).
  - unfold traverse. rewrite bind_get.
    exact (preserves_dispatch history_output library (w_state w1) Hcur Htask w1).
Qed.
End ClosedFor.

Section Closed.
Context (closed : step_closed R).

Lemma step_closed_any node_id : step_closed_for R node_id True.
Proof. destruct closed. by split. Qed.

Lemma preserves_auto_route_closed plan depth : preserves R (_auto_route plan depth).
Proof. apply (preserves_auto_route _ _ (step_closed_any "")). Qed.

Lemma preserves_advance_from_start_closed plan :
  preserves R (_advance_from_start plan).
Proof. apply (preserves_advance_from_start _ _ (step_closed_any "")). Qed.

Lemma preserves_traverse history_output library :
  preserves R (traverse history_output library).
Proof.
  intros w. unfold traverse. rewrite bind_get.
  apply (preserves_dispatch _ _ (step_closed_any (current_node (w_state w)))
           history_output library (w_state w) eq_refl).
  by intros.
Qed.

Lemma preserves_check_graph_progress history_output library :
  (∀ s, R s (count_turn s)) →
  preserves R (_check_graph_progress history_output library).
Proof.
  intros Hcount w.
  apply (check_graph_progress_preserves _ _
           (step_closed_any (current_node (w_state w)))); [done| |done].
  by intros.
Qed.
End Closed.

End Preserves.

(** ** Staleness *)

#[local] Instance no_move_keeps_turns_preorder : PreOrder no_move_keeps_turns.
Proof.
  split.
  - intros s. split; [done|]. split; [done|]. split; [done|]. by intros [].
  - intros s1 s2 s3 (Hst12 & Hp12 & Hk12 & Hz12) (Hst23 & Hp23 & Hk23 & Hz23).
    split; [|split; [|split]].
    + congruence.
    + by etrans.
    + intros Heq.
      assert (path s2 = path s1) as H21.
      { symmetry. apply prefix_length_eq; [done|].
        rewrite <- Heq. by apply prefix_length. }
      rewrite Hk23 by congruence. by apply Hk12.
    + intros Hne. destruct (decide (path s3 = path s2)) as [Heq|Hne'].
      * rewrite Hk23 by done. apply Hz12. congruence.
      * by apply Hz23.
Qed.

Lemma no_move_keeps_turns_same s s' :
  stale_after_turns s' = stale_after_turns s → path s' = path s →
  turns_since_transition s' = turns_since_transition s →
  no_move_keeps_turns s s'.
Proof.
  intros H1 H2 H3. split; [done|]. split; [by rewrite H2|]. split; [done|].
  intros Hne. by destruct Hne.
Qed.

Lemma no_move_keeps_turns_closed : step_closed no_move_keeps_turns.
Proof.
  split.
  - intros ty fields s. destruct (emit_event_frame ty fields s) as (_&?&_&_&?&?&_).
    by apply no_move_keeps_turns_same.
  - intros f t c s. split; [|split; [|split]].
    + apply move_to_node_stale.
    + rewrite move_to_node_path. by apply prefix_app_r.
    + rewrite move_to_node_path. intros H.
      apply (f_equal length) in H. rewrite length_app in H. simpl in H. lia.
    + intros _. apply move_to_node_turns.
  - intros node_id s. by apply no_move_keeps_turns_same.
  - intros node_id o s. by apply no_move_keeps_turns_same.
  - intros node_id s. unfold record_success.
    case_bool_decide; by apply no_move_keeps_turns_same.
  - intros node_id s. unfold record_failure.
    case_bool_decide; by apply no_move_keeps_turns_same.
Qed.

Lemma check_graph_progress_run history_output library w :
  _check_graph_progress history_output library w =
  let w1 := (modify_state count_turn w).2 in
  if stale_after_turns (w_state w1) <? turns_since_transition (w_state w1)
  then expire_plan w1
  else traverse history_output library w1.
Proof.
  unfold _check_graph_progress. rewrite bind_run. simpl. rewrite bind_run. simpl.
  by destruct (_ <? _).
Qed.

Lemma expire_plan_run w :
  expire_plan w =
  (Ret tt,
   mkWorld (_emit_event "plan_expired" {[ "node" := current_node (w_state w) ]} (w_state w))
           false (w_pace w)
           (w_log w ++ [mkLog "info" (MsgExpired (plan_name (w_state w))
                                                  (stale_after_turns (w_state w)))])
           (w_extras w)).
Proof.
  unfold expire_plan. rewrite bind_run. simpl.
  destruct (emit_event_frame "plan_expired"
              {[ "node" := current_node (w_state w) ]} (w_state w)) as (_&_&_&_&_&_&_&_&_).
  reflexivity.
Qed.

(** An advance call on a plan whose counter is already at the window
    expires it, and does nothing else. *)
Lemma check_graph_progress_expires history_output library w :
  stale_after_turns (w_state w) < turns_since_transition (w_state w) + 1 →
  _check_graph_progress history_output library w = (Ret tt, expired_world w).
Proof.
  intros Hstale. rewrite check_graph_progress_run. cbv zeta.
  replace (stale_after_turns _ <? turns_since_transition _) with true.
  - rewrite expire_plan_run. reflexivity.
  - symmetry. apply Z.ltb_lt. simpl. lia.
Qed.

(** Within the window, an advance call advances the counter by one when it
    makes no move, and leaves it at zero when it makes one. *)
Lemma check_graph_progress_turns history_output library w :
  let s := w_state w in
  let s' := w_state (_check_graph_progress history_output library w).2 in
  stale_after_turns s' = stale_after_turns s
  ∧ path s `prefix_of` path s'
  ∧ (path s' = path s → turns_since_transition s' = turns_since_transition s + 1)
  ∧ (path s' ≠ path s → turns_since_transition s' = 0).
Proof.
  cbv zeta. rewrite check_graph_progress_run. cbv zeta.
  set (w1 := (modify_state count_turn w).2).
  assert (no_move_keeps_turns (w_state w1)
            (w_state (if stale_after_turns (w_state w1) <? turns_since_transition (w_state w1)
                      then expire_plan w1
                      else traverse history_output library w1).2)) as HR.
  { case_match.
    - apply (preserves_expire_plan _ (sc_emit _ no_move_keeps_turns_closed)).
    - apply (preserves_traverse _ no_move_keeps_turns_closed). }
  destruct HR as (H1 & H2 & H3 & H4). split; [|split; [|split]].
  - by rewrite H1.
  - exact H2.
  - intros Heq. by rewrite H3.
  - exact H4.
Qed.

Lemma quiet_calls_turns library turns w :
  quiet_calls library turns w →
  let w' := advance_calls library turns w in
  turns_since_transition (w_state w') =
    turns_since_transition (w_state w) + Z.of_nat (length turns)
  ∧ stale_after_turns (w_state w') = stale_after_turns (w_state w).
Proof.
  revert w. induction turns as [|history_output turns IH]; intros w.
  - intros _. simpl. split; [lia | done].
  - intros (_ & Hpath & Hrest). cbn [advance_calls length].
    destruct (check_graph_progress_turns history_output library w) as (Hst & _ & Hk & _).
    destruct (IH _ Hrest) as (IH1 & IH2). cbv zeta in *.
    rewrite IH1, IH2, Hst, (Hk Hpath). split; [lia | done].
Qed.

(** C1. Staleness of a graph plan: an advance call first advances
    [turns_since_transition] and [turns_since_progress]; if the transition
    counter then exceeds the window the plan expires (event [plan_expired],
    state detached) and nothing else runs, otherwise traversal proceeds on
    the advanced counters.  A move sets the counter to 0; a call that makes
    no move raises it by exactly one.  Hence after a move, [w] calls
    without a move on a plan with window [w] are followed by expiry on the
    next call. *)
Theorem staleness_expiry :
  (∀ history_output library w,
     _check_graph_progress history_output library w =
     if stale_after_turns (w_state w) <? turns_since_transition (w_state w) + 1
     then (Ret tt, expired_world w)
     else traverse history_output library
            (mkWorld (count_turn (w_state w)) (w_attached w) (w_pace w) (w_log w)
                     (w_extras w)))
  ∧ (∀ w, turns_since_transition (count_turn (w_state w)) =
            turns_since_transition (w_state w) + 1
          ∧ turns_since_progress (count_turn (w_state w)) =
            turns_since_progress (w_state w) + 1
          ∧ w_attached (expired_world w) = false
          ∧ ∃ earlier, events (w_state (expired_world w)) =
              earlier ++ [mkEvent "plan_expired" (turns_since_transition (w_state w) + 1)
                                  {[ "node" := current_node (w_state w) ]}])
  ∧ (∀ from_node to_node condition s,
       turns_since_transition (_move_to_node from_node to_node condition s) = 0)
  ∧ (∀ history_output library w,
       let s := w_state w in
       let s' := w_state (_check_graph_progress history_output library w).2 in
       (path s' = path s → turns_since_transition s' = turns_since_transition s + 1)
       ∧ (path s' ≠ path s → turns_since_transition s' = 0))
  ∧ (∀ library turns last_turn w,
       turns_since_transition (w_state w) = 0 →
       Z.of_nat (length turns) = stale_after_turns (w_state w) →
       quiet_calls library turns w →
       _check_graph_progress last_turn library (advance_calls library turns w) =
       (Ret tt, expired_world (advance_calls library turns w))).
Proof.
  split; [|split; [|split; [|split]]].
  - intros history_output library w. rewrite check_graph_progress_run. cbv zeta.
    change (stale_after_turns (w_state (modify_state count_turn w).2))
      with (stale_after_turns (w_state w)).
    change (turns_since_transition (w_state (modify_state count_turn w).2))
      with (turns_since_transition (w_state w) + 1).
    destruct (_ <? _); [|done].
    rewrite expire_plan_run. reflexivity.
  - intros w. split; [done|]. split; [done|]. split; [done|].
    apply (emit_event_last "plan_expired" _ (count_turn (w_state w))).
  - apply move_to_node_turns.
  - intros history_output library w.
    destruct (check_graph_progress_turns history_output library w) as (_ & _ & H1 & H2).
    by split.
  - intros library turns last_turn w Hzero Hlen Hquiet.
    apply check_graph_progress_expires.
    destruct (quiet_calls_turns library turns w Hquiet) as (H1 & H2).
    cbv zeta in *. rewrite H1, H2. lia.
Qed.

Lemma staleness_expiry_witness :
  _check_graph_progress [] [("p", Sample.stale_plan)]
    (advance_calls [("p", Sample.stale_plan)] [[]; []]
       (activated "p" Sample.stale_plan Sample.linear_graph)) =
  (Ret tt,
   expired_world
     (advance_calls [("p", Sample.stale_plan)] [[]; []]
        (activated "p" Sample.stale_plan Sample.linear_graph))).
Proof.
  destruct staleness_expiry as (_ & _ & _ & _ & H).
  apply H.
  - vm_compute. reflexivity.
  - vm_compute. reflexivity.
  - cbn [quiet_calls].
    split; [vm_compute; reflexivity|]. split; [vm_compute; reflexivity|].
    split; [vm_compute; reflexivity|]. split; [vm_compute; reflexivity|].
    exact I.
Defined.

(** ** Re-entry *)

#[local] Instance keeps_fresh_preorder : PreOrder keeps_fresh.
Proof.
  split.
  - intros s. split; [done|]. split; [by intros []|done].
  - intros s1 s2 s3 (Hp12 & Hm12 & Hk12) (Hp23 & Hm23 & Hk23).
    split; [by etrans|].
    assert (path s3 = path s1 → path s2 = path s1) as Hmid.
    { intros Heq. symmetry. apply prefix_length_eq; [done|].
      rewrite <- Heq. by apply prefix_length. }
    split.
    + intros Hne. destruct (decide (path s3 = path s2)) as [Heq|Hne'].
      * apply Hk23; [done|]. apply Hm12. congruence.
      * by apply Hm23.
    + intros Heq Hfresh. specialize (Hmid Heq).
      apply Hk23; [congruence|]. by apply Hk12.
Qed.

Lemma keeps_fresh_same s s' :
  path s' = path s → current_node s' = current_node s → visited s' = visited s →
  keeps_fresh s s'.
Proof.
  intros Hp Hc Hv. split; [by rewrite Hp|]. split; [done|].
  intros _. unfold fresh_here, visit_entry. by rewrite Hc, Hv.
Qed.

Lemma keeps_fresh_emit ty fields s : keeps_fresh s (_emit_event ty fields s).
Proof.
  destruct (emit_event_frame ty fields s) as (_&_&?&?&?&_).
  by apply keeps_fresh_same.
Qed.

Lemma keeps_fresh_move from_node to_node condition s :
  keeps_fresh s (_move_to_node from_node to_node condition s).
Proof.
  assert (path (_move_to_node from_node to_node condition s) ≠ path s) as Hne.
  { rewrite move_to_node_path. intros H. apply (f_equal length) in H.
    rewrite length_app in H. simpl in H. lia. }
  split; [rewrite move_to_node_path; by apply prefix_app_r|].
  split; [|done]. intros _. unfold fresh_here, visit_entry.
  rewrite move_to_node_current, move_to_node_visited.
  destruct (visited s !! to_node) as [v|] eqn:E.
  - by rewrite lookup_insert_eq.
  - by rewrite E.
Qed.

(** The routing steps are closed under [keeps_fresh]; the updates of the
    task branch are not needed for them. *)
Lemma keeps_fresh_closed : step_closed_for keeps_fresh "" False.
Proof.
  split; try done.
  - apply keeps_fresh_emit.
  - apply keeps_fresh_move.
Qed.

Lemma lands_fresh_of_keeps {A} (m : M State A) :
  preserves keeps_fresh m → preserves lands_fresh m.
Proof. intros Hm w. destruct (Hm w) as (? & ? & _). by split. Qed.

Lemma lands_fresh_bind_path {A B} (m : M State A) (k : A → M State B) :
  (∀ w, path (w_state (m w).2) = path (w_state w)) →
  (∀ a, preserves lands_fresh (k a)) →
  preserves lands_fresh (m ≫= k).
Proof.
  intros Hm Hk w. rewrite bind_run. specialize (Hm w).
  destruct (m w) as [[a|e] w1]; simpl in *.
  - destruct (Hk a w1) as [Hp Hf]. rewrite Hm in Hp, Hf. by split.
  - split; [by rewrite Hm | by intros []].
Qed.

Lemma lands_fresh_bind_keeps {A B} (m : M State A) (k : A → M State B) :
  preserves lands_fresh m →
  (∀ a, preserves keeps_fresh (k a)) →
  preserves lands_fresh (m ≫= k).
Proof.
  intros Hm Hk w. rewrite bind_run. specialize (Hm w).
  destruct (m w) as [[a|e] w1]; simpl in *; [|done].
  destruct Hm as [Hp1 Hf1]. destruct (Hk a w1) as (Hp2 & Hm2 & Hk2).
  split; [by etrans|]. intros Hne.
  destruct (decide (path (w_state (k a w1).2) = path (w_state w1))) as [Heq|Hne'].
  - apply Hk2; [done|]. apply Hf1. congruence.
  - by apply Hm2.
Qed.

Lemma emit_event_path ty fields s : path (_emit_event ty fields s) = path s.
Proof. by destruct (emit_event_frame ty fields s) as (_&_&_&_&->&_). Qed.

Lemma record_success_path node_id s : path (record_success node_id s) = path s.
Proof. unfold record_success. by case_bool_decide. Qed.

Lemma record_failure_path node_id s : path (record_failure node_id s) = path s.
Proof. unfold record_failure. by case_bool_decide. Qed.

Ltac path_same :=
  intros ?; cbn [modify_state emit get_state lift snd w_state];
  first [ reflexivity | apply emit_event_path | apply record_success_path
        | apply record_failure_path ].

Ltac keeps_fresh_steps :=
  repeat lazymatch goal with
  | |- preserves _ (_auto_route _ _) =>
      apply (preserves_auto_route keeps_fresh _ _ keeps_fresh_closed)
  | |- preserves _ (_advance_from_start _) =>
      apply (preserves_advance_from_start keeps_fresh _ _ keeps_fresh_closed)
  | |- preserves _ _complete_graph =>
      apply (preserves_complete_graph keeps_fresh keeps_fresh_emit)
  | |- preserves _ (_escalate_graph _) =>
      apply (preserves_escalate_graph keeps_fresh keeps_fresh_emit)
  | |- preserves _ (finish_turn _ _) =>
      apply (preserves_finish_turn keeps_fresh keeps_fresh_emit)
  | |- preserves _ expire_plan =>
      apply (preserves_expire_plan keeps_fresh keeps_fresh_emit)
  | |- preserves _ (_inject_graph_context _) => apply (preserves_inject keeps_fresh)
  | |- preserves _ (modify_state (_move_to_node _ _ _)) =>
      apply (preserves_modify keeps_fresh), keeps_fresh_move
  | |- preserves _ (log _ _) => apply (preserves_log keeps_fresh)
  | |- preserves _ (mret _) => apply (preserves_ret keeps_fresh)
  | |- preserves _ _clear_state => apply (preserves_clear keeps_fresh)
  | |- preserves _ _set_state => apply (preserves_set_state keeps_fresh)
  | |- preserves _ (_ ≫= _) => apply (preserves_bind keeps_fresh); [|intros ?]
  end.

Lemma lands_fresh_task_step plan graph node_id node last_output :
  preserves lands_fresh (task_step plan graph node_id node last_output).
Proof.
  unfold task_step.
  repeat lazymatch goal with
  | |- preserves lands_fresh (modify_state (_move_to_node _ _ _) ≫= _) =>
      apply lands_fresh_of_keeps; keeps_fresh_steps
  | |- preserves lands_fresh (log _ _) =>
      apply lands_fresh_of_keeps; keeps_fresh_steps
  | |- preserves lands_fresh (mret _) =>
      apply lands_fresh_of_keeps; keeps_fresh_steps
  | |- preserves lands_fresh (_ ≫= _) =>
      apply lands_fresh_bind_path; [solve [path_same] | intros ?]
  | |- preserves lands_fresh (let _ := _ in _) => cbv zeta
  | |- preserves lands_fresh _ => case_match
  end.
Qed.

Lemma lands_fresh_dispatch history_output library s :
  preserves lands_fresh (dispatch history_output library s).
Proof.
  unfold dispatch.
  destruct (lookup_plan library (plan_id s)) as [plan|];
    [|apply lands_fresh_of_keeps; keeps_fresh_steps].
  destruct (p_graph plan) as [graph|];
    [|apply lands_fresh_of_keeps; keeps_fresh_steps].
  cbv zeta. apply lands_fresh_bind_path; [path_same|]. intros nodes.
  destruct (nodes !! current_node s) as [node|];
    [|apply lands_fresh_of_keeps; keeps_fresh_steps].
  destruct (negb (node_truthy node)); [apply lands_fresh_of_keeps; keeps_fresh_steps|].
  destruct (String.eqb (node_type node) "exit");
    [apply lands_fresh_of_keeps; keeps_fresh_steps|].
  destruct (String.eqb (node_type node) "escalate");
    [apply lands_fresh_of_keeps; keeps_fresh_steps|].
  destruct (String.eqb (node_type node) "start");
    [apply lands_fresh_of_keeps; keeps_fresh_steps|].
  apply lands_fresh_bind_keeps;
    [|intros _; apply (preserves_finish_turn keeps_fresh keeps_fresh_emit)].
  destruct (String.eqb (node_type node) "task").
  - destruct (_get_last_tool_output history_output).
    + apply lands_fresh_task_step.
    + apply lands_fresh_of_keeps; keeps_fresh_steps.
  - destruct (String.eqb (node_type node) "decision");
      apply lands_fresh_of_keeps; keeps_fresh_steps.
Qed.

(** After an advance call that made a move, the node the traversal is on
    has a fresh visit entry. *)
Lemma check_graph_progress_lands_fresh history_output library :
  preserves lands_fresh (_check_graph_progress history_output library).
Proof.
  unfold _check_graph_progress.
  apply lands_fresh_bind_path; [path_same | intros _].
  apply lands_fresh_bind_path; [path_same | intros s]. cbv zeta.
  destruct (_ <? _); [apply lands_fresh_of_keeps; keeps_fresh_steps|].
  unfold traverse. apply lands_fresh_bind_path; [path_same | intros s'].
  apply lands_fresh_dispatch.
Qed.

(** C3. Moving to a node resets that node's [visited] entry: an existing
    entry becomes [{pending, 0}] (an absent one stays absent, and the next
    visit creates it as [{pending, 0}]), so the attempt counter the next
    verification starts from is 0.  Hence after every advance call that
    made a move, the node the traversal is on has a fresh entry.  In
    Scenario E, A fails once and routes to B over [on_retry]; B succeeds
    and routes back to A, whose entry then reads 0 attempts although it
    read 1 before. *)
Theorem reentry_resets_visit :
  (∀ from_node to_node condition s,
     let s' := _move_to_node from_node to_node condition s in
     current_node s' = to_node
     ∧ visited s' !! to_node = (λ _, fresh_visit) <$> visited s !! to_node
     ∧ visit_entry s' to_node = fresh_visit
     ∧ ∀ other, other ≠ to_node → visited s' !! other = visited s !! other)
  ∧ (∀ history_output library w,
       let s := w_state w in
       let s' := w_state (_check_graph_progress history_output library w).2 in
       path s' ≠ path s → visit_entry s' (current_node s') = fresh_visit)
  ∧ (let library := [("p", Sample.cycle_plan)] in
     let w0 := activated "p" Sample.cycle_plan Sample.cycle_graph in
     let w1 := Sample.turn library "bad" w0 in
     let w2 := Sample.turn library "fixed" w1 in
     current_node (w_state w0) = "A"
     ∧ current_node (w_state w1) = "B"
     ∧ visited (w_state w1) !! "A" = Some (mkVisit "pending" 1)
     ∧ current_node (w_state w2) = "A"
     ∧ visited (w_state w2) !! "A" = Some (mkVisit "pending" 0)
     ∧ w_attached w2 = true).
Proof.
  split; [|split].
  - intros from_node to_node condition s. cbv zeta.
    split; [apply move_to_node_current|].
    unfold visit_entry. rewrite move_to_node_visited.
    destruct (visited s !! to_node) as [v|] eqn:E.
    + rewrite lookup_insert_eq. split; [done|]. split; [done|].
      intros other Hne. by rewrite lookup_insert_ne.
    + rewrite E. done.
  - intros history_output library w. cbv zeta.
    by destruct (check_graph_progress_lands_fresh history_output library w) as [_ H].
  - vm_compute. repeat split.
Qed.

(** ** Auto-routing is bounded *)

Lemma moves_at_most_weaken {A} (j k : nat) (m : M State A) :
  (j ≤ k)%nat → moves_at_most j m → moves_at_most k m.
Proof. intros Hjk Hm w. destruct (Hm w) as (moves & ? & ?). exists moves. split; [done | lia]. Qed.

Lemma moves_at_most_same {A} (k : nat) (m : M State A) :
  (∀ w, path (w_state (m w).2) = path (w_state w)) → moves_at_most k m.
Proof. intros H w. exists []. rewrite H, app_nil_r. split; [done | simpl; lia]. Qed.

Lemma moves_at_most_bind {A B} (j k : nat) (m : M State A) (f : A → M State B) :
  moves_at_most j m → (∀ a, moves_at_most k (f a)) → moves_at_most (j + k) (m ≫= f).
Proof.
  intros Hm Hf w. rewrite bind_run. destruct (Hm w) as (moves1 & Hp1 & Hl1).
  destruct (m w) as [[a|e] w1]; simpl in *.
  - destruct (Hf a w1) as (moves2 & Hp2 & Hl2).
    exists (moves1 ++ moves2). rewrite Hp2, Hp1, length_app, <- app_assoc. split; [done | lia].
  - exists moves1. split; [done | lia].
Qed.

Lemma moves_at_most_move from_node to_node condition :
  moves_at_most 1 (modify_state (_move_to_node from_node to_node condition)).
Proof. intros w. exists [to_node]. simpl. by rewrite move_to_node_path. Qed.

Lemma moves_at_most_body (k : nat) recurse plan :
  moves_at_most k recurse → moves_at_most (S k) (auto_route_body recurse plan).
Proof.
  intros Hrec. unfold auto_route_body.
  repeat first
    [ apply (moves_at_most_bind 1 k); [apply moves_at_most_move | intros _; exact Hrec]
    | apply (moves_at_most_bind 0 (S k)); [by apply moves_at_most_same | intros ?]
    | by apply moves_at_most_same
    | progress cbv zeta
    | case_match ].
Qed.

Lemma moves_at_most_auto_route_from (n : nat) plan :
  moves_at_most n (auto_route_from n plan).
Proof.
  induction n as [|n IH]; simpl.
  - by apply moves_at_most_same.
  - by apply moves_at_most_body.
Qed.

Lemma auto_route_unfold plan depth :
  _auto_route plan depth =
  if (MAX_ROUTE_DEPTH <=? depth)%nat then mret tt
  else auto_route_body (_auto_route plan (S depth)) plan.
Proof.
  unfold _auto_route. destruct (MAX_ROUTE_DEPTH <=? depth)%nat eqn:E.
  - apply Nat.leb_le in E. by replace (MAX_ROUTE_DEPTH - depth)%nat with 0%nat by lia.
  - apply Nat.leb_gt in E.
    by replace (MAX_ROUTE_DEPTH - depth)%nat with (S (MAX_ROUTE_DEPTH - S depth)) by lia.
Qed.

(** C8. Auto-routing is a total function that stops at depth 15: a call
    at depth 15 or more returns at once, a call below it runs the routing
    body with the recursive call one level deeper, and a call at depth
    [depth] therefore makes at most [15 - depth] moves, 15 from the top.
    On a decision node whose only edge points back to itself, routing makes
    exactly 15 moves and stops on the decision node. *)
Theorem auto_route_bounded :
  (∀ plan depth, (MAX_ROUTE_DEPTH ≤ depth)%nat → _auto_route plan depth = mret tt)
  ∧ (∀ plan depth, (depth < MAX_ROUTE_DEPTH)%nat →
       _auto_route plan depth = auto_route_body (_auto_route plan (S depth)) plan)
  ∧ (∀ plan depth w, ∃ moves,
       path (w_state (_auto_route plan depth w).2) = path (w_state w) ++ moves
       ∧ (length moves ≤ MAX_ROUTE_DEPTH - depth)%nat
       ∧ (length moves ≤ 15)%nat)
  ∧ (let w0 := mkWorld (_create_graph_state "p" Sample.self_loop_plan Sample.self_loop_graph)
                       true None [] None in
     let w := (modify_state (_move_to_node "s" "d" "always") w0).2 in
     let w' := (_auto_route Sample.self_loop_plan 0 w).2 in
     path (w_state w') = path (w_state w) ++ replicate 15 "d"
     ∧ current_node (w_state w') = "d").
Proof.
  split; [|split; [|split]].
  - intros plan depth H. rewrite auto_route_unfold.
    by rewrite (proj2 (Nat.leb_le _ _) H).
  - intros plan depth H. rewrite auto_route_unfold.
    by rewrite (proj2 (Nat.leb_gt _ _) H).
  - intros plan depth w.
    destruct (moves_at_most_auto_route_from (MAX_ROUTE_DEPTH - depth) plan w)
      as (moves & Hp & Hl).
    exists moves. split; [exact Hp|]. split; [exact Hl|].
    unfold MAX_ROUTE_DEPTH in Hl. lia.
  - vm_compute. split; reflexivity.
Qed.

Lemma auto_route_bounded_witness :
  _auto_route Sample.self_loop_plan 15 = mret tt
  ∧ _auto_route Sample.self_loop_plan 14 =
    auto_route_body (_auto_route Sample.self_loop_plan 15) Sample.self_loop_plan.
Proof.
  destruct auto_route_bounded as (H1 & H2 & _).
  split.
  - apply H1. unfold MAX_ROUTE_DEPTH. lia.
  - apply H2. unfold MAX_ROUTE_DEPTH. lia.
Defined.

(** ** Events stay in the log while few events follow *)

Lemma emitted_recently_weaken (j k : nat) ev s :
  (j ≤ k)%nat → emitted_recently j ev s → emitted_recently k ev s.
Proof. intros Hjk (earlier & later & ? & ?). exists earlier, later. split; [done | lia]. Qed.

Lemma emitted_recently_new ty fields s :
  emitted_recently 0 (mkEvent ty (turns_since_transition s) fields)
                   (_emit_event ty fields s).
Proof.
  destruct (emit_event_last ty fields s) as (earlier & Heq).
  exists earlier, []. split; [exact Heq | simpl; lia].
Qed.

Lemma emitted_recently_emit (k : nat) ev ty fields s :
  emitted_recently k ev s → (k + 1 < MAX_EVENTS)%nat →
  emitted_recently (k + 1) ev (_emit_event ty fields s).
Proof.
  intros (earlier & later & Hev & Hlen) Hk. unfold _emit_event.
  set (new := mkEvent ty (turns_since_transition s) fields).
  rewrite Hev, <- app_assoc, <- app_comm_cons.
  case_match; unfold emitted_recently; rewrite events_set_events.
  - unfold last_n.
    rewrite drop_app_le
      by (rewrite !length_app; simpl; rewrite length_app; simpl;
          unfold MAX_EVENTS in *; lia).
    eexists _, (later ++ [new]). split; [reflexivity|].
    rewrite length_app. simpl. lia.
  - exists earlier, (later ++ [new]). split; [reflexivity|].
    rewrite length_app. simpl. lia.
Qed.

Lemma emitted_recently_move (k : nat) ev from_node to_node condition s :
  emitted_recently k ev s → (k + 2 < MAX_EVENTS)%nat →
  emitted_recently (k + 2) ev (_move_to_node from_node to_node condition s).
Proof.
  intros Hev Hk. unfold _move_to_node.
  replace (k + 2)%nat with (k + 1 + 1)%nat by lia.
  apply emitted_recently_emit; [|lia]. apply emitted_recently_emit; [|lia].
  destruct (visited _ !! to_node); exact Hev.
Qed.

Lemma emits_at_most_weaken {A} (i j : nat) (m : M State A) :
  (i ≤ j)%nat → emits_at_most i m → emits_at_most j m.
Proof.
  intros Hij Hm k ev w Hev Hk.
  apply (emitted_recently_weaken (k + i)); [lia|]. apply Hm; [done | lia].
Qed.

Lemma emits_at_most_same {A} (j : nat) (m : M State A) :
  (∀ w, events (w_state (m w).2) = events (w_state w)) → emits_at_most j m.
Proof.
  intros H k ev w (earlier & later & Hev & Hlen) _.
  exists earlier, later. rewrite H. split; [done | lia].
Qed.

Lemma emits_at_most_bind {A B} (i j : nat) (m : M State A) (f : A → M State B) :
  emits_at_most i m → (∀ a, emits_at_most j (f a)) → emits_at_most (i + j) (m ≫= f).
Proof.
  intros Hm Hf k ev w Hev Hk. rewrite bind_run.
  specialize (Hm k ev w Hev). destruct (m w) as [[a|e] w1]; simpl in *.
  - replace (k + (i + j))%nat with (k + i + j)%nat by lia.
    apply Hf; [apply Hm; lia | lia].
  - apply (emitted_recently_weaken (k + i)); [lia|]. apply Hm. lia.
Qed.

Lemma emits_at_most_emit ty fields : emits_at_most 1 (emit ty fields).
Proof. intros k ev w Hev Hk. by apply emitted_recently_emit. Qed.

Lemma emits_at_most_move from_node to_node condition :
  emits_at_most 2 (modify_state (_move_to_node from_node to_node condition)).
Proof. intros k ev w Hev Hk. by apply emitted_recently_move. Qed.

Lemma emits_at_most_body (j : nat) recurse plan :
  emits_at_most j recurse → emits_at_most (2 + j) (auto_route_body recurse plan).
Proof.
  intros Hrec. unfold auto_route_body.
  repeat first
    [ apply (emits_at_most_bind 2 j); [apply emits_at_most_move | intros _; exact Hrec]
    | apply (emits_at_most_bind 0 (2 + j)); [by apply emits_at_most_same | intros ?]
    | by apply emits_at_most_same
    | progress cbv zeta
    | case_match ].
Qed.

Lemma emits_at_most_auto_route_from (n : nat) plan :
  emits_at_most (2 * n) (auto_route_from n plan).
Proof.
  induction n as [|n IH]; simpl auto_route_from.
  - by apply emits_at_most_same.
  - replace (2 * S n)%nat with (2 + 2 * n)%nat by lia. by apply emits_at_most_body.
Qed.

Lemma emits_at_most_auto_route plan depth : emits_at_most 30 (_auto_route plan depth).
Proof.
  apply (emits_at_most_weaken (2 * (MAX_ROUTE_DEPTH - depth))).
  - unfold MAX_ROUTE_DEPTH. lia.
  - apply emits_at_most_auto_route_from.
Qed.

Ltac emits_steps known :=
  repeat first
    [ known
    | apply (emits_at_most_bind 1 0); [apply emits_at_most_emit | intros ?]
    | apply (emits_at_most_bind 0 1); [by apply emits_at_most_same | intros ?]
    | apply (emits_at_most_bind 0 0); [by apply emits_at_most_same | intros ?]
    | by apply emits_at_most_same
    | progress cbv zeta
    | case_match ].

Lemma emits_at_most_inject plan : emits_at_most 0 (_inject_graph_context plan).
Proof. unfold _inject_graph_context. emits_steps fail. Qed.

Lemma emits_at_most_complete : emits_at_most 1 _complete_graph.
Proof. unfold _complete_graph. emits_steps fail. Qed.

Lemma emits_at_most_escalate node : emits_at_most 1 (_escalate_graph node).
Proof. unfold _escalate_graph. emits_steps fail. Qed.

Lemma emits_at_most_finish_turn plan nodes : emits_at_most 1 (finish_turn plan nodes).
Proof.
  unfold finish_turn.
  emits_steps ltac:(first
    [ apply emits_at_most_complete | apply emits_at_most_escalate
    | apply (emits_at_most_bind 0 1);
        [apply emits_at_most_inject | intros ?; by apply emits_at_most_same] ]).
Qed.

(** ** The path only grows; without a move the position is kept *)

#[local] Instance path_grows_preorder : PreOrder path_grows.
Proof.
  split.
  - intros s. unfold path_grows. done.
  - intros s1 s2 s3 H12 H23. unfold path_grows in *. by etrans.
Qed.

Lemma path_grows_closed : step_closed path_grows.
Proof.
  split; unfold path_grows.
  - intros ty fields s. by destruct (emit_event_frame ty fields s) as (_&_&_&_&->&_).
  - intros f t c s. rewrite move_to_node_path. by apply prefix_app_r.
  - done.
  - done.
  - intros node_id s. unfold record_success. by case_bool_decide.
  - intros node_id s. unfold record_failure. by case_bool_decide.
Qed.

#[local] Instance holds_position_preorder : PreOrder holds_position.
Proof.
  split.
  - intros s. by repeat split.
  - intros s1 s2 s3 (?&?&?) (?&?&?). repeat split; congruence.
Qed.

Lemma holds_position_emit ty fields s : holds_position s (_emit_event ty fields s).
Proof. destruct (emit_event_frame ty fields s) as (_&_&?&?&?&_). by repeat split. Qed.

(** ** Running one turn on a task node *)

Lemma traverse_task_run history_output library w plan graph nodes node last_output :
  lookup_plan library (plan_id (w_state w)) = Some plan →
  p_graph plan = Some graph →
  g_nodes graph = Some nodes →
  nodes !! current_node (w_state w) = Some node →
  node_truthy node = true →
  node_type node = "task" →
  _get_last_tool_output history_output = Some last_output →
  traverse history_output library w =
  (task_step plan graph (current_node (w_state w)) node last_output
   ≫= λ _, finish_turn plan nodes) w.
Proof.
  intros Hplan Hgraph Hnodes Hnode Htruthy Htype Hout.
  unfold traverse, dispatch. rewrite bind_run. cbn [get_state].
  rewrite Hplan, Hgraph. rewrite bind_run. unfold lift at 1. rewrite Hnodes.
  cbn [getitem]. rewrite Hnode, Htruthy. cbn [negb]. rewrite Htype, Hout.
  reflexivity.
Qed.

Lemma follow_edge_retry graph node_id :
  _follow_edge graph node_id "on_retry" "" "" =
  match retry_edge graph node_id with
  | Some e => edge_to e
  | None => Ret None
  end.
Proof.
  unfold _follow_edge, retry_edge. cbv zeta. cbn [Text.truthy Text.is_empty negb].
  destruct (first_with _ "on_retry"); [done|].
  by destruct (first_with _ "always").
Qed.

Lemma retry_state_attempts node_id s :
  attempts (visit_entry (retry_state node_id s) node_id) =
  attempts (visit_entry s node_id) + 1.
Proof.
  unfold retry_state, visit_entry.
  rewrite !(proj1 (proj2 (proj2 (proj2 (emit_event_frame _ _ _))))).
  unfold count_attempt. cbn [visited set_visited]. by rewrite lookup_insert_eq.
Qed.

Lemma task_step_retry_run plan graph node_id node last_output w :
  _verify_node node last_output = false →
  attempts (visit_entry (w_state w) node_id) + 1 ≤ default 0 (n_max_retries node) →
  task_step plan graph node_id node last_output w =
  (lift (_follow_edge graph node_id "on_retry" "" "") ≫= λ target,
     match target_truthy target with
     | Some t => modify_state (_move_to_node node_id t "on_retry");; _auto_route plan 0
     | None => mret tt
     end)
    (mkWorld (retry_state node_id (w_state w)) (w_attached w) (w_pace w) (w_log w)
             (w_extras w)).
Proof.
  intros Hfail Hbudget. unfold task_step. rewrite Hfail.
  rewrite bind_run. cbn [modify_state]. rewrite bind_run. cbn [emit modify_state].
  cbn [w_state w_attached w_pace w_log w_extras].
  rewrite bind_run. cbn [get_state w_state].
  assert (attempts
            (visit_entry
               (_emit_event "node_verified" {[ "node" := node_id; "outcome" := "fail" ]}
                  (count_attempt node_id (w_state w))) node_id)
          = attempts (visit_entry (w_state w) node_id) + 1) as Hatt.
  { unfold visit_entry.
    rewrite (proj1 (proj2 (proj2 (proj2 (emit_event_frame _ _ _))))).
    unfold count_attempt. cbn [visited set_visited]. by rewrite lookup_insert_eq. }
  rewrite Hatt. rewrite (proj2 (Z.leb_le _ _) Hbudget).
  rewrite bind_run. reflexivity.
Qed.

Lemma inject_keeps_attached plan w :
  w_attached (_inject_graph_context plan w).2 = w_attached w.
Proof.
  unfold _inject_graph_context. rewrite bind_run. cbn [get_state].
  repeat case_match; reflexivity.
Qed.

Lemma finish_turn_keeps_attached plan nodes node w :
  nodes !! current_node (w_state w) = Some node →
  node_type node = "task" →
  w_attached w = true →
  w_attached (finish_turn plan nodes w).2 = true.
Proof.
  intros Hnode Htype Hatt.
  assert (w_attached ((_inject_graph_context plan ≫= λ _, _set_state) w).2 = true) as Hinj.
  { rewrite bind_run. pose proof (inject_keeps_attached plan w) as Hi.
    destruct (_inject_graph_context plan w) as [[[]|e] w1]; simpl in *; [done | congruence]. }
  unfold finish_turn. rewrite bind_run. cbn [get_state]. rewrite Hnode.
  destruct (node_truthy node); [|exact Hinj].
  rewrite bind_run. unfold lift, node_type in *.
  destruct (n_type node) as [t|]; simpl in Htype; cbn [getitem]; [|exact Hatt].
  subst t. exact Hinj.
Qed.

Lemma check_graph_progress_retry_run history_output library w plan graph nodes node
    last_output :
  turns_since_transition (w_state w) + 1 ≤ stale_after_turns (w_state w) →
  lookup_plan library (plan_id (w_state w)) = Some plan →
  p_graph plan = Some graph →
  g_nodes graph = Some nodes →
  nodes !! current_node (w_state w) = Some node →
  node_truthy node = true →
  node_type node = "task" →
  _get_last_tool_output history_output = Some last_output →
  _verify_node node last_output = false →
  attempts (visit_entry (w_state w) (current_node (w_state w))) + 1
    ≤ default 0 (n_max_retries node) →
  _check_graph_progress history_output library w =
  ((match retry_edge graph (current_node (w_state w)) with
    | Some e =>
        match e_to e with
        | Some t =>
            if Text.truthy t then
              modify_state (_move_to_node (current_node (w_state w)) t "on_retry");;
              _auto_route plan 0
            else mret tt
        | None => raise (KeyError "to")
        end
    | None => mret tt
    end) ≫= λ _, finish_turn plan nodes)
    (mkWorld (retry_state (current_node (w_state w)) (count_turn (w_state w)))
             (w_attached w) (w_pace w) (w_log w) (w_extras w)).
Proof.
  intros Hfresh Hplan Hgraph Hnodes Hnode Htruthy Htype Hout Hfail Hbudget.
  rewrite check_graph_progress_run. cbv zeta.
  replace (stale_after_turns _ <? turns_since_transition _) with false
    by (symmetry; apply Z.ltb_ge; simpl; lia).
  rewrite (traverse_task_run _ _ _ plan graph nodes node last_output);
    [|done..].
  rewrite bind_run.
  rewrite task_step_retry_run; [|done..].
  rewrite follow_edge_retry. cbn [modify_state snd w_state w_attached w_pace w_log w_extras].
  change (current_node (count_turn (w_state w))) with (current_node (w_state w)).
  rewrite (bind_run _ (λ _, finish_turn plan nodes)).
  destruct (retry_edge graph (current_node (w_state w))) as [e|]; [|reflexivity].
  unfold edge_to. destruct (e_to e) as [t|]; cbn [getitem]; [|reflexivity].
  rewrite bind_run. unfold lift, target_truthy.
  by destruct (Text.truthy t).
Qed.

Lemma retry_state_frame node_id s :
  current_node (retry_state node_id s) = current_node s
  ∧ path (retry_state node_id s) = path s
  ∧ turns_since_transition (retry_state node_id s) = turns_since_transition s.
Proof.
  unfold retry_state.
  destruct (emit_event_frame "retry_triggered" {[ "node" := node_id ]}
              (_emit_event "node_verified" {[ "node" := node_id; "outcome" := "fail" ]}
                 (count_attempt node_id s))) as (_&_&->&_&->&->&_).
  destruct (emit_event_frame "node_verified" {[ "node" := node_id; "outcome" := "fail" ]}
              (count_attempt node_id s)) as (_&_&->&_&->&->&_).
  done.
Qed.

(** C4 (amended). A task node that fails verification with its attempt
    count still within [max_retries] makes the engine emit
    [retry_triggered] and follow the first [on_retry] edge leaving the
    node or, when there is none, the first [always] edge (explicit or
    defaulted); only when the node has neither does the traversal stay:
    [current_node] and the path are unchanged, the plan stays active and
    the attempt is counted. *)
Theorem retry_within_budget history_output library w plan graph nodes node last_output :
  w_attached w = true →
  turns_since_transition (w_state w) + 1 ≤ stale_after_turns (w_state w) →
  lookup_plan library (plan_id (w_state w)) = Some plan →
  p_graph plan = Some graph →
  g_nodes graph = Some nodes →
  nodes !! current_node (w_state w) = Some node →
  node_truthy node = true →
  node_type node = "task" →
  _get_last_tool_output history_output = Some last_output →
  _verify_node node last_output = false →
  attempts (visit_entry (w_state w) (current_node (w_state w))) + 1
    ≤ default 0 (n_max_retries node) →
  let s := w_state w in
  let w' := (_check_graph_progress history_output library w).2 in
  let s' := w_state w' in
  (∃ earlier later,
     events s' =
     earlier ++ mkEvent "retry_triggered" (turns_since_transition s + 1)
                        {[ "node" := current_node s ]} :: later)
  ∧ match retry_edge graph (current_node s) with
    | Some e =>
        ∀ t, e_to e = Some t → t ≠ EmptyString → path s ++ [t] `prefix_of` path s'
    | None =>
        current_node s' = current_node s
        ∧ path s' = path s
        ∧ w_attached w' = true
        ∧ attempts (visit_entry s' (current_node s))
          = attempts (visit_entry s (current_node s)) + 1
    end.
Proof.
  intros Hatt Hfresh Hplan Hgraph Hnodes Hnode Htruthy Htype Hout Hfail Hbudget.
  cbv zeta.
  rewrite (check_graph_progress_retry_run _ _ _ plan graph nodes node last_output);
    [|done..].
  set (node_id := current_node (w_state w)).
  set (s2 := retry_state node_id (count_turn (w_state w))).
  set (w2 := mkWorld s2 (w_attached w) (w_pace w) (w_log w) (w_extras w)).
  destruct (retry_state_frame node_id (count_turn (w_state w))) as (Hcur2 & Hpath2 & Hturn2).
  fold s2 in Hcur2, Hpath2, Hturn2.
  split.
  - (* the event survives the rest of the turn *)
    assert (emitted_recently 0
              (mkEvent "retry_triggered" (turns_since_transition (w_state w) + 1)
                       {[ "node" := node_id ]}) (w_state w2)) as Hnew.
    { pose proof (emitted_recently_new "retry_triggered" {[ "node" := node_id ]}
                    (_emit_event "node_verified"
                       {[ "node" := node_id; "outcome" := "fail" ]}
                       (count_attempt node_id (count_turn (w_state w))))) as H.
      rewrite (proj1 (proj2 (proj2 (proj2 (proj2 (proj2 (emit_event_frame _ _ _))))))) in H.
      exact H. }
    match goal with |- context [ (?m ≫= ?k) w2 ] =>
      assert (emits_at_most 33 (m ≫= k)) as Hem end.
    { apply (emits_at_most_bind 32 1); [|intros; apply emits_at_most_finish_turn].
      destruct (retry_edge graph node_id) as [e|]; [|by apply emits_at_most_same].
      destruct (e_to e) as [t|]; [|by apply emits_at_most_same].
      destruct (Text.truthy t); [|by apply emits_at_most_same].
      apply (emits_at_most_bind 2 30); [apply emits_at_most_move|].
      intros _. apply emits_at_most_auto_route. }
    destruct (Hem 0%nat _ w2 Hnew) as (earlier & later & Hev & _);
      [unfold MAX_EVENTS; lia|].
    by exists earlier, later.
  - destruct (retry_edge graph node_id) as [e|] eqn:Hedge.
    + intros t Ht Hne. rewrite Ht.
      replace (Text.truthy t) with true by (by destruct t).
      rewrite bind_run, bind_run. cbn [modify_state].
      set (wM := mkWorld (_move_to_node node_id t "on_retry" (w_state w2)) _ _ _ _).
      assert (path (w_state wM) = path (w_state w) ++ [t]) as HpM.
      { unfold wM, w2. cbn [w_state]. rewrite move_to_node_path, Hpath2. reflexivity. }
      rewrite <- HpM.
      pose proof (preserves_auto_route_closed _ path_grows_closed plan 0 wM) as Hauto.
      destruct (_auto_route plan 0 wM) as [[[]|x] w3]; cbn [snd] in *; [|exact Hauto].
      pose proof (preserves_finish_turn _ (sc_emit _ path_grows_closed) plan nodes w3)
        as Hfin.
      unfold path_grows in *. by etrans.
    + rewrite bind_run. cbn [mret M_ret].
      pose proof (preserves_finish_turn _ holds_position_emit plan nodes w2)
        as (Hc & Hp & Hv).
      change (w_state w2) with s2 in *.
      split; [by rewrite Hc, Hcur2|]. split; [by rewrite Hp, Hpath2|]. split.
      * apply (finish_turn_keeps_attached plan nodes node); [|done|done].
        change (w_state w2) with s2. by rewrite Hcur2.
      * unfold visit_entry at 1. rewrite Hv. fold (visit_entry s2 node_id).
        unfold s2. rewrite retry_state_attempts. reflexivity.
Qed.

Lemma retry_within_budget_witness :
  path (w_state (activated "p" Sample.cycle_plan Sample.cycle_graph)) ++ ["B"]
  `prefix_of`
  path (w_state (_check_graph_progress [Sample.tool_result "bad"]
                   [("p", Sample.cycle_plan)]
                   (activated "p" Sample.cycle_plan Sample.cycle_graph)).2).
Proof.
  destruct (retry_within_budget [Sample.tool_result "bad"] [("p", Sample.cycle_plan)]
              (activated "p" Sample.cycle_plan Sample.cycle_graph)
              Sample.cycle_plan Sample.cycle_graph
              {[ "s" := Sample.of_type "start"; "A" := Sample.task "ok" 1;
                 "B" := Sample.task "fixed" 0 ]}
              (Sample.task "ok" 1) "bad") as [_ H].
  - vm_compute. reflexivity.
  - vm_compute. discriminate.
  - vm_compute. reflexivity.
  - reflexivity.
  - reflexivity.
  - vm_compute. reflexivity.
  - reflexivity.
  - reflexivity.
  - vm_compute. reflexivity.
  - vm_compute. reflexivity.
  - vm_compute. discriminate.
  - assert (retry_edge Sample.cycle_graph
              (current_node (w_state (activated "p" Sample.cycle_plan Sample.cycle_graph)))
            = Some (Sample.edge_on "A" "B" "on_retry")) as E
      by (vm_compute; reflexivity).
    rewrite E in H. apply (H "B"); [reflexivity | discriminate].
Defined.

(** C4, as stated, fails: in the plan start -> A -> exit with unconditional
    edges, A has no [on_retry] edge and one retry left, yet the first failed
    verification leaves A over the [always] edge, reaches the exit node and
    completes the plan. *)
Lemma retry_leaves_node_over_always_edge :
  let library := [("p", Sample.stale_plan)] in
  let w0 := activated "p" Sample.stale_plan Sample.linear_graph in
  let w1 := Sample.turn library "fail" w0 in
  current_node (w_state w0) = "A"
  ∧ _verify_node (Sample.task "done" 1) "fail" = false
  ∧ visited (w_state w1) !! "A" = Some (mkVisit "pending" 1)
  ∧ first_with (List.filter (λ e, bool_decide (e_from e = Some "A"))
                            (default [] (g_edges Sample.linear_graph)))
               "on_retry" = None
  ∧ ¬ (current_node (w_state w1) = current_node (w_state w0) ∧ w_attached w1 = true)
  ∧ current_node (w_state w1) = "x"
  ∧ w_attached w1 = false.
Proof.
  vm_compute. repeat split; try reflexivity. intros [H _]. discriminate H.
Qed.

(** ** Where activation lands *)

(** One routing step: either the lookup gives no usable target and the
    state is left as it is, or the traversal moves and routing goes on. *)
Lemma routing_step (rest : M State unit) (r : outcome_of (option string))
    from_node condition w :
  let run := (lift r ≫= λ target,
                match target_truthy target with
                | Some t => modify_state (_move_to_node from_node t condition);; rest
                | None => mret tt
                end) w in
  (w_state run.2 = w_state w ∧ ∀ t, r = Ret (Some t) → Text.truthy t = false)
  ∨ (∃ t, r = Ret (Some t) ∧ Text.truthy t = true
          ∧ run = rest (modify_state (_move_to_node from_node t condition) w).2).
Proof.
  cbv zeta. rewrite bind_run. unfold lift.
  destruct r as [[t|]|e]; cbn [target_truthy].
  - destruct (Text.truthy t) eqn:Ht.
    + right. exists t. split; [done|]. split; [done|]. by rewrite bind_run.
    + left. split; [done|]. intros t' [= <-]. done.
  - left. split; [done|]. intros t' [=].
  - left. split; [done|]. intros t' [=].
Qed.

Lemma auto_route_from_stops (n : nat) plan graph nodes w :
  p_graph plan = Some graph →
  g_nodes graph = Some nodes →
  let s' := w_state (auto_route_from n plan w).2 in
  landed nodes s' ∨ unresolved nodes s' ∨ stalled graph nodes s'
  ∨ length (path s') = (length (path (w_state w)) + n)%nat.
Proof.
  intros Hgraph Hnodes. revert w. induction n as [|n IH]; intros w; cbv zeta.
  { right; right; right. simpl. lia. }
  cbn [auto_route_from]. unfold auto_route_body.
  rewrite Hgraph. cbn [getitem]. rewrite bind_lift_ret, bind_get.
  rewrite Hnodes. cbn [getitem]. rewrite bind_lift_ret.
  destruct (nodes !! current_node (w_state w)) as [node|] eqn:Hnode;
    [|right; left; unfold unresolved; rewrite ret_run; cbn [snd]; by rewrite Hnode].
  destruct (node_truthy node) eqn:Htruthy; cbn [negb];
    [|right; left; unfold unresolved; rewrite ret_run; cbn [snd];
      by rewrite Hnode, Htruthy].
  assert (∀ condition,
            node_type node ∈ routing_types →
            let run := (lift (route_target graph (w_state w) node) ≫= λ target,
                match target_truthy target with
                | Some t =>
                    modify_state (_move_to_node (current_node (w_state w)) t condition);;
                    auto_route_from n plan
                | None => mret tt
                end) w in
            landed nodes (w_state run.2) ∨ unresolved nodes (w_state run.2)
            ∨ stalled graph nodes (w_state run.2)
            ∨ length (path (w_state run.2)) = (length (path (w_state w)) + S n)%nat)
    as Hstep.
  { intros condition Hrouting. cbv zeta.
    destruct (routing_step (auto_route_from n plan)
                (route_target graph (w_state w) node)
                (current_node (w_state w)) condition w)
      as [(Hsame & Hnone) | (t & Hr & Ht & Hrun)].
    - right; right; left. rewrite Hsame. by exists node.
    - rewrite Hrun.
      destruct (IH (modify_state (_move_to_node (current_node (w_state w)) t condition) w).2)
        as [H|[H|[H|H]]]; [by left | by right; left | by right; right; left |].
      right; right; right. rewrite H. cbn [modify_state snd w_state].
      rewrite move_to_node_path, length_app. simpl. lia. }
  unfold route_target in Hstep.
  destruct (String.eqb (node_type node) "decision") eqn:Hdec.
  { apply String.eqb_eq in Hdec. apply Hstep. rewrite Hdec.
    apply elem_of_cons. by left. }
  destruct (String.eqb (node_type node) "start") eqn:Hstart.
  { apply String.eqb_eq in Hstart. apply Hstep. rewrite Hstart.
    apply elem_of_cons. right. apply elem_of_cons. by left. }
  destruct (String.eqb (node_type node) "checkpoint") eqn:Hcheck.
  { apply String.eqb_eq in Hcheck. apply Hstep. rewrite Hcheck.
    apply elem_of_cons. right. apply elem_of_cons. right. apply elem_of_cons. by left. }
  rewrite ret_run. cbn [snd].
  left. exists node. split; [done|]. split; [done|].
  apply String.eqb_neq in Hdec, Hstart, Hcheck. unfold routing_types.
  rewrite !not_elem_of_cons. repeat split; [done..|]. apply not_elem_of_nil.
Qed.

(** C5 (amended). After activation [current_node] names a node that
    routing does not pass through (task, exit or escalate) unless routing
    was cut short: the id does not resolve to a node, or no usable edge
    leaves the start id or the start, decision or checkpoint node reached,
    or all 15 levels of auto-routing made a move.  In those cases
    [current_node] stays where routing stopped. *)
Theorem activation_landing pid plan graph nodes :
  p_graph plan = Some graph →
  g_nodes graph = Some nodes →
  let s := w_state (activated pid plan graph) in
  landed nodes s
  ∨ unresolved nodes s
  ∨ start_blocked graph s
  ∨ stalled graph nodes s
  ∨ ceiling_reached s.
Proof.
  intros Hgraph Hnodes. cbv zeta. unfold activated, _advance_from_start.
  rewrite Hgraph. cbn [getitem]. rewrite bind_lift_ret.
  set (start_id := default "" (g_start graph)).
  rewrite bind_run. cbn [emit modify_state].
  set (w1 := mkWorld _ _ _ _ _).
  assert (current_node (w_state w1) = start_id ∧ path (w_state w1) = [start_id])
    as [Hcur Hpath].
  { unfold w1. cbn [w_state]. unfold _create_graph_state. cbv zeta.
    repeat match goal with
    | |- context [ _emit_event ?ty ?f ?x ] =>
        destruct (emit_event_frame ty f x) as (_&_&->&_&->&_)
    end.
    done. }
  destruct (routing_step (_auto_route plan 0)
              (_follow_edge graph start_id "always" "" "") start_id "always" w1)
    as [(Hsame & Hnone) | (t & Hr & Ht & Hrun)].
  - right; right; left. rewrite Hsame. by split.
  - rewrite Hrun.
    destruct (auto_route_from_stops MAX_ROUTE_DEPTH plan graph nodes
                (modify_state (_move_to_node start_id t "always") w1).2 Hgraph Hnodes)
      as [H|[H|[H|H]]].
    + by left.
    + by right; left.
    + by right; right; right; left.
    + right; right; right; right. unfold ceiling_reached.
      change (_auto_route plan 0) with (auto_route_from MAX_ROUTE_DEPTH plan).
      rewrite H. cbn [modify_state snd w_state].
      rewrite move_to_node_path, length_app, Hpath. simpl. lia.
Qed.

Lemma activation_landing_witness :
  landed {[ "s" := Sample.of_type "start"; "A" := Sample.task "done" 1;
            "x" := Sample.of_type "exit" ]}
         (w_state (activated "p" Sample.stale_plan Sample.linear_graph)).
Proof.
  destruct (activation_landing "p" Sample.stale_plan Sample.linear_graph
              {[ "s" := Sample.of_type "start"; "A" := Sample.task "done" 1;
                 "x" := Sample.of_type "exit" ]} eq_refl eq_refl)
    as [H|[H|[H|[H|H]]]].
  - exact H.
  - vm_compute in H. discriminate H.
  - destruct H as [H _]. vm_compute in H. discriminate H.
  - destruct H as (node & Hnode & _ & Htype & _).
    assert (node = Sample.task "done" 1) as ->.
    { vm_compute in Hnode. by injection Hnode as <-. }
    apply elem_of_cons in Htype as [Htype|Htype]; [vm_compute in Htype; discriminate|].
    apply elem_of_cons in Htype as [Htype|Htype]; [vm_compute in Htype; discriminate|].
    apply elem_of_cons in Htype as [Htype|Htype]; [vm_compute in Htype; discriminate|].
    by apply elem_of_nil in Htype.
  - vm_compute in H. discriminate H.
Defined.

(** C5, as stated, fails: a start node without outgoing edge keeps
    activation on the start node, and a decision node whose only edge
    points back to itself keeps it on the decision node. *)
Lemma activation_can_stay_on_routing_node :
  (let s := w_state (activated "p" Sample.dead_start_plan Sample.dead_start_graph) in
   current_node s = "s"
   ∧ n_type <$> (default ∅ (g_nodes Sample.dead_start_graph) !! current_node s)
     = Some (Some "start"))
  ∧ (let s := w_state (activated "p" Sample.self_loop_plan Sample.self_loop_graph) in
     current_node s = "d"
     ∧ n_type <$> (default ∅ (g_nodes Sample.self_loop_graph) !! current_node s)
       = Some (Some "decision")).
Proof. vm_compute. repeat split. Qed.

(** ** Plan matcher *)

Lemma lookup_plan_at (plans : Library) (i : nat) pid plan :
  NoDup plans.*1 → plans !! i = Some (pid, plan) → lookup_plan plans pid = Some plan.
Proof.
  revert i. induction plans as [|[k p] plans IH]; intros i Hnd Hi; [done|].
  apply NoDup_cons in Hnd as [Hk Hnd]. simpl.
  destruct i as [|i]; simpl in Hi.
  - injection Hi as -> ->. by rewrite String.eqb_refl.
  - destruct (String.eqb k pid) eqn:E; [|by apply (IH i)].
    apply String.eqb_eq in E. subst k. exfalso. apply Hk.
    apply list_elem_of_fmap. exists (pid, plan). split; [done|].
    by apply list_elem_of_lookup_2 in Hi.
Qed.

Lemma match_step_invariant domain message allowed_plans seen best entry :
  match_invariant domain message allowed_plans seen best →
  match_invariant domain message allowed_plans (seen ++ [entry])
    (match_step domain message allowed_plans best entry).
Proof.
  intros Hinv. destruct entry as [pid plan]. unfold match_step.
  assert (∀ j other, (seen ++ [(pid, plan)]) !! j = Some other →
            (seen !! j = Some other ∧ (j < length seen)%nat)
            ∨ (j = length seen ∧ other = (pid, plan))) as Hsplit.
  { intros j other Hj. destruct (decide (j < length seen)%nat) as [Hlt|Hge].
    - left. by rewrite lookup_app_l in Hj.
    - right. rewrite lookup_app_r in Hj by lia.
      destruct (j - length seen)%nat as [|m] eqn:Hm; simpl in Hj; [|done].
      injection Hj as <-. split; [lia | done]. }
  assert (¬ eligible domain message allowed_plans (pid, plan) →
          match_invariant domain message allowed_plans (seen ++ [(pid, plan)]) best)
    as Hskip.
  { intros Hno. unfold match_invariant in *. destruct best as [[best_id|] score]; simpl in *.
    - destruct Hinv as (i & p & (Hi & Hel & Hpos & Hmax) & Hscore).
      cbn [fst snd] in *.
      exists i, p. split; [|done]. split; [|split; [done|split; [done|]]].
      + apply lookup_app_l_Some. exact Hi.
      + intros j other Hj Helj. destruct (Hsplit j other Hj) as [[Hj' _]|[_ ->]].
        * by apply Hmax.
        * by destruct Hno.
    - destruct Hinv as [Hz Hall]. split; [done|].
      intros j other Hj Helj. destruct (Hsplit j other Hj) as [[Hj' _]|[_ ->]].
      + by apply (Hall j).
      + by destruct Hno. }
  destruct (excluded allowed_plans pid) eqn:Hex.
  { apply Hskip. intros [H _]. simpl in H. congruence. }
  destruct (qualifies plan domain message) eqn:Hq.
  2: { apply Hskip. intros [_ H]. simpl in H. congruence. }
  assert (eligible domain message allowed_plans (pid, plan)) as Hel by done.
  destruct (best.2 <? plan_score plan domain message) eqn:Hlt.
  - apply Z.ltb_lt in Hlt. unfold match_invariant in *. cbn [fst snd].
    exists (length seen), plan. split; [|done].
    assert (0 < plan_score plan domain message ∧
            ∀ j other, seen !! j = Some other →
              eligible domain message allowed_plans other →
              plan_score other.2 domain message < plan_score plan domain message)
      as [Hpos Hbelow].
    { destruct best as [[best_id|] score]; simpl in *.
      - destruct Hinv as (i & p & (Hi & Heli & Hposi & Hmax) & Hscore).
        cbn [fst snd] in *.
        split; [lia|]. intros j other Hj Helj.
        destruct (Hmax j other Hj Helj) as [Hle _]. simpl in Hle. lia.
      - destruct Hinv as [-> Hall]. split; [done|].
        intros j other Hj Helj. specialize (Hall j other Hj Helj). lia. }
    split; [|split; [done|split; [done|]]].
    + by apply list_lookup_middle.
    + intros j other Hj Helj. cbn [snd].
      destruct (Hsplit j other Hj) as [[Hj' _]|[-> ->]].
      * specialize (Hbelow j other Hj' Helj). split; [lia | done].
      * split; [done | lia].
  - apply Z.ltb_ge in Hlt. unfold match_invariant in *.
    destruct best as [[best_id|] score]; simpl in *.
    + destruct Hinv as (i & p & (Hi & Heli & Hposi & Hmax) & Hscore).
        cbn [fst snd] in *.
      exists i, p. split; [|done]. split; [|split; [done|split; [done|]]].
      * apply lookup_app_l_Some. exact Hi.
      * intros j other Hj Helj. destruct (Hsplit j other Hj) as [[Hj' _]|[-> ->]].
        -- by apply Hmax.
        -- simpl in *. split; [lia|].
           apply lookup_lt_Some in Hi. lia.
    + destruct Hinv as [-> Hall]. split; [done|].
      intros j other Hj Helj. destruct (Hsplit j other Hj) as [[Hj' _]|[_ ->]].
      * by apply (Hall j).
      * done.
Qed.

Lemma match_fold_invariant domain message allowed_plans seen rest best :
  match_invariant domain message allowed_plans seen best →
  match_invariant domain message allowed_plans (seen ++ rest)
    (fold_left (match_step domain message allowed_plans) rest best).
Proof.
  revert seen best. induction rest as [|entry rest IH]; intros seen best Hinv.
  - by rewrite app_nil_r.
  - simpl. replace (seen ++ entry :: rest) with ((seen ++ [entry]) ++ rest)
      by (by rewrite <- app_assoc).
    apply IH. by apply match_step_invariant.
Qed.

(** At most one entry wins. *)
Lemma wins_unique plans domain message allowed_plans i j e1 e2 :
  wins plans domain message allowed_plans i e1 →
  wins plans domain message allowed_plans j e2 →
  i = j ∧ e1 = e2.
Proof.
  intros (Hi & Hel1 & _ & Hmax1) (Hj & Hel2 & _ & Hmax2).
  destruct (Hmax1 j e2 Hj Hel2) as [Hle1 Hlt1].
  destruct (Hmax2 i e1 Hi Hel1) as [Hle2 Hlt2].
  assert (i = j) as -> by (destruct (Nat.lt_trichotomy i j) as [?|[?|?]]; [lia|done|lia]).
  split; [done | congruence].
Qed.

Lemma qualifies_spec plan domain message :
  qualifies plan domain message = true ↔
  default 2 (p_trigger_threshold plan) ≤ trigger_hits plan message
  ∧ (default [] (p_domains plan) = [] ∨ domain ∈ default [] (p_domains plan)).
Proof.
  unfold qualifies, domain_match. rewrite andb_true_iff, Z.leb_le.
  destruct (default [] (p_domains plan)) as [|d ds].
  - split; [intros [? _]; split; [done | by left] | intros [? _]; done].
  - rewrite bool_decide_eq_true. split.
    + intros [? ?]. split; [done | by right].
    + intros [? [?|?]]; [done | done].
Qed.

Lemma plan_score_spec plan domain message :
  qualifies plan domain message = true →
  plan_score plan domain message =
  trigger_hits plan message
  + (if bool_decide (default [] (p_domains plan) = []) then 0 else 1).
Proof.
  unfold qualifies, plan_score. intros [_ ->]%andb_true_iff.
  by destruct (bool_decide _).
Qed.

(** C6 (amended). Among the plans the allow-list does not exclude, a plan
    qualifies when its trigger-hit count reaches its threshold (default 2)
    and its declared domain tags, if any, contain the message's domain; its
    score is the hit count plus 1 if it declared domains.  The matcher
    returns the first qualifying plan of highest score provided that score
    is positive and the plan id is not the empty string; in every other
    case it returns no selection, and it never raises. *)
Theorem matcher_selects plans domain message allowed_plans :
  NoDup plans.*1 →
  (∀ plan, qualifies plan domain message = true ↔
     default 2 (p_trigger_threshold plan) ≤ trigger_hits plan message
     ∧ (default [] (p_domains plan) = [] ∨ domain ∈ default [] (p_domains plan)))
  ∧ (∀ plan, qualifies plan domain message = true →
       plan_score plan domain message =
       trigger_hits plan message
       + (if bool_decide (default [] (p_domains plan) = []) then 0 else 1))
  ∧ match _match_plan plans domain message allowed_plans with
    | Ret (Some (best_id, plan)) =>
        best_id ≠ EmptyString
        ∧ ∃ i, wins plans domain message allowed_plans i (best_id, plan)
    | Ret None =>
        ∀ i entry, wins plans domain message allowed_plans i entry →
                   entry.1 = EmptyString
    | Raise _ => False
    end.
Proof.
  intros Hnd. split; [intros plan; apply qualifies_spec|].
  split; [intros plan; apply plan_score_spec|].
  assert (match_invariant domain message allowed_plans plans
            (fold_left (match_step domain message allowed_plans) plans (None, 0)))
    as Hinv.
  { apply (match_fold_invariant domain message allowed_plans [] plans (None, 0)).
    split; [done|]. intros j other Hj. done. }
  unfold _match_plan.
  destruct (fold_left _ plans (None, 0)) as [[best_id|] score];
    unfold match_invariant in Hinv; cbn [fst snd] in *.
  - destruct Hinv as (i & plan & Hwins & _).
    destruct (Text.truthy best_id) eqn:Htruthy.
    + rewrite (lookup_plan_at plans i best_id plan Hnd (proj1 Hwins)). cbn [getitem].
      split; [by destruct best_id | by exists i].
    + intros i' entry Hwins'.
      destruct (wins_unique _ _ _ _ _ _ _ _ Hwins Hwins') as [_ <-].
      by destruct best_id.
  - destruct Hinv as [_ Hall]. intros i entry (Hi & Hel & Hpos & _).
    specialize (Hall i entry Hi Hel). lia.
Qed.

Lemma matcher_selects_witness :
  ∃ i, wins [("p", Sample.stale_plan); ("q", Sample.cycle_plan)]
            "" "please build and deploy it" None i ("p", Sample.stale_plan).
Proof.
  assert (NoDup [("p", Sample.stale_plan); ("q", Sample.cycle_plan)].*1) as Hnd.
  { apply NoDup_cons. split.
    - intros Hin. apply elem_of_cons in Hin as [Hin|Hin]; [discriminate Hin|].
      by apply elem_of_nil in Hin.
    - apply NoDup_cons. split; [apply not_elem_of_nil | apply NoDup_nil_2]. }
  destruct (matcher_selects [("p", Sample.stale_plan); ("q", Sample.cycle_plan)]
              "" "please build and deploy it" None Hnd) as (_ & _ & H).
  assert (_match_plan [("p", Sample.stale_plan); ("q", Sample.cycle_plan)]
            "" "please build and deploy it" None
          = Ret (Some ("p", Sample.stale_plan))) as E by (vm_compute; reflexivity).
  rewrite E in H. exact (proj2 H).
Defined.

(** C6, as stated, fails: a plan that qualifies with zero hits (threshold
    0, no domain tags) scores 0 and is never selected, although it is the
    only, hence the highest-scoring, qualifying plan. *)
Lemma matcher_skips_zero_score :
  eligible "" "hello" None ("p", Sample.catch_all_plan)
  ∧ plan_score Sample.catch_all_plan "" "hello" = 0
  ∧ _match_plan [("p", Sample.catch_all_plan)] "" "hello" None = Ret None.
Proof. vm_compute. repeat split. Qed.

(** ** An exception leaves the prompt untouched *)

Section Extras.
Context {S : Type}.

Lemma keeps_extras_bind {A B} (m : M S A) (k : A → M S B) :
  keeps_extras m → (∀ a, keeps_extras (k a)) → keeps_extras (m ≫= k).
Proof.
  intros Hm Hk w. rewrite bind_run. specialize (Hm w).
  destruct (m w) as [[a|e] w1]; simpl in *; [|done]. by rewrite Hk.
Qed.

Lemma never_raises_bind {A B} (m : M S A) (k : A → M S B) :
  never_raises m → (∀ a, never_raises (k a)) → never_raises (m ≫= k).
Proof.
  intros Hm Hk w. rewrite bind_run. destruct (Hm w) as [a Ha].
  destruct (m w) as [[a'|e] w1]; simpl in *; [|done]. apply Hk.
Qed.

Lemma raises_before_inject_keeps {A} (m : M S A) :
  keeps_extras m → raises_before_inject m.
Proof. intros Hm w e _. apply Hm. Qed.

Lemma raises_before_inject_never {A} (m : M S A) :
  never_raises m → raises_before_inject m.
Proof. intros Hm w e He. destruct (Hm w) as [a Ha]. congruence. Qed.

Lemma raises_before_inject_bind_keeps {A B} (m : M S A) (k : A → M S B) :
  keeps_extras m → (∀ a, raises_before_inject (k a)) →
  raises_before_inject (m ≫= k).
Proof.
  intros Hm Hk w e. rewrite bind_run. specialize (Hm w).
  destruct (m w) as [[a|e'] w1]; simpl in *; [|done].
  intros He. rewrite (Hk a w1 e He). exact Hm.
Qed.

Lemma raises_before_inject_bind_never {A B} (m : M S A) (k : A → M S B) :
  raises_before_inject m → (∀ a, never_raises (k a)) →
  raises_before_inject (m ≫= k).
Proof.
  intros Hm Hk w e. rewrite bind_run. specialize (Hm w).
  destruct (m w) as [[a|e'] w1]; simpl in *.
  - intros He. destruct (Hk a w1) as [b Hb]. congruence.
  - intros _. by apply (Hm e').
Qed.

End Extras.

Ltac keeps_extras_steps known :=
  repeat first
    [ known
    | apply keeps_extras_bind; [|intros ?]
    | progress cbv zeta
    | case_match
    | by intros ? ].

Ltac never_raises_steps known :=
  repeat first
    [ known
    | apply never_raises_bind; [|intros ?]
    | progress cbv zeta
    | case_match
    | by intros ?; eexists ].

Lemma keeps_extras_auto_route_from (n : nat) plan :
  keeps_extras (auto_route_from n plan).
Proof.
  induction n as [|n IH]; simpl; [by intros ?|].
  unfold auto_route_body. keeps_extras_steps ltac:(exact IH).
Qed.

Lemma keeps_extras_advance_from_start plan : keeps_extras (_advance_from_start plan).
Proof.
  unfold _advance_from_start.
  keeps_extras_steps ltac:(apply keeps_extras_auto_route_from).
Qed.

Lemma keeps_extras_task_step plan graph node_id node last_output :
  keeps_extras (task_step plan graph node_id node last_output).
Proof.
  unfold task_step.
  keeps_extras_steps ltac:(apply keeps_extras_auto_route_from).
Qed.

Lemma never_raises_complete_graph : never_raises _complete_graph.
Proof. unfold _complete_graph. never_raises_steps fail. Qed.

Lemma never_raises_escalate_graph node : never_raises (_escalate_graph node).
Proof. unfold _escalate_graph. never_raises_steps fail. Qed.

Lemma never_raises_expire_plan : never_raises expire_plan.
Proof. unfold expire_plan. never_raises_steps fail. Qed.

Lemma raises_before_inject_context plan :
  raises_before_inject (_inject_graph_context plan).
Proof.
  unfold _inject_graph_context. intros w e. rewrite bind_get.
  repeat case_match; simpl; done.
Qed.

Lemma raises_before_inject_inject plan :
  raises_before_inject (_inject_graph_context plan ≫= λ _, _set_state).
Proof.
  apply raises_before_inject_bind_never; [|by intros ? ?; eexists].
  apply raises_before_inject_context.
Qed.

Lemma raises_before_inject_finish_turn plan nodes :
  raises_before_inject (finish_turn plan nodes).
Proof.
  unfold finish_turn.
  apply raises_before_inject_bind_keeps; [by intros ?|]. intros s. cbv zeta.
  repeat case_match; try apply raises_before_inject_inject.
  apply raises_before_inject_bind_keeps; [by intros ?|]. intros ftype.
  repeat case_match.
  - apply raises_before_inject_never, never_raises_complete_graph.
  - apply raises_before_inject_never, never_raises_escalate_graph.
  - apply raises_before_inject_inject.
Qed.

Lemma raises_before_inject_traverse history_output library :
  raises_before_inject (traverse history_output library).
Proof.
  unfold traverse.
  apply raises_before_inject_bind_keeps; [by intros ?|]. intros s. unfold dispatch.
  destruct (lookup_plan library (plan_id s)) as [plan|];
    [|apply raises_before_inject_keeps; by intros ?].
  destruct (p_graph plan) as [graph|];
    [|apply raises_before_inject_keeps; by intros ?].
  apply raises_before_inject_bind_keeps; [by intros ?|]. intros nodes.
  repeat case_match;
    first
      [ apply raises_before_inject_never, never_raises_complete_graph
      | apply raises_before_inject_never, never_raises_escalate_graph
      | apply raises_before_inject_keeps; by intros ?
      | apply raises_before_inject_bind_keeps;
          [ apply keeps_extras_advance_from_start
          | intros _; apply raises_before_inject_inject ]
      | apply raises_before_inject_bind_keeps;
          [ first [ apply keeps_extras_task_step
                  | apply keeps_extras_auto_route_from
                  | by intros ? ]
          | intros _; apply raises_before_inject_finish_turn ] ].
Qed.

Lemma raises_before_inject_check_graph_progress history_output library :
  raises_before_inject (_check_graph_progress history_output library).
Proof.
  unfold _check_graph_progress.
  apply raises_before_inject_bind_keeps; [by intros ?|]. intros _.
  apply raises_before_inject_bind_keeps; [by intros ?|]. intros s. cbv zeta.
  case_match.
  - apply raises_before_inject_never, never_raises_expire_plan.
  - apply raises_before_inject_traverse.
Qed.

Lemma never_raises_inject_linear library : never_raises (_inject_linear_context library).
Proof. unfold _inject_linear_context. never_raises_steps fail. Qed.

Lemma never_raises_linear_continue library : never_raises (linear_continue library).
Proof.
  unfold linear_continue.
  never_raises_steps ltac:(apply never_raises_inject_linear).
Qed.

Lemma raises_before_inject_check_linear_progress history_output library :
  raises_before_inject (_check_linear_progress history_output library).
Proof.
  unfold _check_linear_progress.
  repeat first
    [ apply raises_before_inject_never, never_raises_linear_continue
    | apply raises_before_inject_keeps; by intros ?
    | apply raises_before_inject_never; solve [never_raises_steps fail]
    | apply raises_before_inject_bind_keeps; [by intros ? | intros ?]
    | progress cbv zeta
    | case_match ].
Qed.

Lemma run_on_raise_extras {S} (wrap : S → HtnState) (s : S) (h : Host) (m : M S unit) e :
  raises_before_inject m →
  (run_on wrap s h m).1 = Raise e →
  h_extras (run_on wrap s h m).2 = h_extras h.
Proof.
  intros Hm. unfold run_on.
  specialize (Hm (mkWorld s true (h_pace h) (h_log h) (h_extras h)) e).
  destruct (m _) as [r w]. simpl in *. exact Hm.
Qed.

Lemma execute_body_raise_extras library domain allowed_plans history_output h e :
  (execute_body library domain allowed_plans history_output h).1 = Raise e →
  h_extras (execute_body library domain allowed_plans history_output h).2 = h_extras h.
Proof.
  unfold execute_body.
  destruct library as [library|]; [|done].
  destruct (h_state h) as [[s|l]|].
  - apply run_on_raise_extras, raises_before_inject_check_graph_progress.
  - apply run_on_raise_extras, raises_before_inject_check_linear_progress.
  - destruct (negb _); [done|].
    destruct (_match_plan _ _ _ _) as [[[pid plan]|]|x]; [|done|done].
    destruct (p_graph plan) as [graph|].
    + apply run_on_raise_extras.
      apply raises_before_inject_bind_keeps;
        [apply keeps_extras_advance_from_start | intros _].
      apply raises_before_inject_bind_never;
        [apply raises_before_inject_context | intros _].
      never_raises_steps fail.
    + destruct (p_steps plan) as [steps|]; [|done].
      apply run_on_raise_extras, raises_before_inject_never.
      never_raises_steps ltac:(apply never_raises_inject_linear).
Qed.

(** C9. [execute] always returns to the host loop.  When the body of its
    [try] block returns, the host is as the body left it; when the body
    raises, the exception is logged as a warning and nothing else changes:
    the traversal state and pace level stay as the interrupted body left
    them, and nothing was injected into the prompt that turn.  The second
    part exhibits a turn whose body does raise: a node without [type] key
    makes [final_node["type"]] fail after the node was verified. *)
Theorem execute_never_propagates library domain allowed_plans history_output h :
  (let body := execute_body library domain allowed_plans history_output h in
   let after := execute library domain allowed_plans history_output h in
   match body.1 with
   | Ret _ => after = body.2
   | Raise e =>
       h_state after = h_state body.2
       ∧ h_pace after = h_pace body.2
       ∧ h_log after = h_log body.2 ++ [mkLog "warning" (MsgError e)]
       ∧ h_extras after = h_extras body.2
       ∧ h_extras after = h_extras h
   end)
  ∧ (let library := Some [("p", Sample.typeless_plan)] in
     let h1 := execute library "" None [Sample.user_says "build and deploy"]
                       Sample.idle_host in
     let turn2 := [Sample.user_says "build and deploy"; Sample.tool_result "ok"] in
     let h2 := execute library "" None turn2 h1 in
     (execute_body library "" None turn2 h1).1 = Raise (KeyError "type")
     ∧ last (h_log h2) = Some (mkLog "warning" (MsgError (KeyError "type")))
     ∧ is_Some (h_state h2)).
Proof.
  split.
  - cbv zeta. unfold execute.
    pose proof (execute_body_raise_extras library domain allowed_plans history_output h)
      as Hextras.
    destruct (execute_body library domain allowed_plans history_output h) as [[[]|e] h'];
      cbn [fst snd] in *; [done|].
    repeat split. by apply (Hextras e).
  - vm_compute. repeat split. by eexists.
Qed.

(** ** Completion bookkeeping *)

#[local] Instance keeps_completion_consistent_preorder :
  PreOrder keeps_completion_consistent.
Proof.
  split.
  - intros s H. exact H.
  - intros s1 s2 s3 H12 H23 H. apply H23, H12, H.
Qed.

Lemma record_success_consistent node_id s :
  completion_consistent s → completion_consistent (record_success node_id s).
Proof.
  intros [Hnd Hlen]. unfold record_success, completion_consistent.
  case_bool_decide as Hin; cbn.
  - done.
  - split.
    + apply NoDup_app. split; [done|]. split; [|apply NoDup_singleton].
      intros x Hx Hx'. apply list_elem_of_singleton in Hx'. by subst x.
    + rewrite length_app, Hlen. simpl. lia.
Qed.

(** The counter moves only when a new id is listed: a node already listed
    leaves both unchanged, a new one is appended and counted once. *)
Lemma record_success_counts node_id s :
  (node_id ∈ steps_completed s →
     completed_nodes (record_success node_id s) = completed_nodes s
     ∧ steps_completed (record_success node_id s) = steps_completed s)
  ∧ (node_id ∉ steps_completed s →
     completed_nodes (record_success node_id s) = completed_nodes s + 1
     ∧ steps_completed (record_success node_id s) = steps_completed s ++ [node_id]).
Proof.
  unfold record_success. split; intros Hin.
  - by rewrite bool_decide_eq_true_2.
  - by rewrite bool_decide_eq_false_2.
Qed.

Lemma keeps_completion_consistent_closed : step_closed keeps_completion_consistent.
Proof.
  split; unfold keeps_completion_consistent, completion_consistent.
  - intros ty fields s.
    by destruct (emit_event_frame ty fields s) as (_&_&_&_&_&_&_&->&->).
  - intros f t c s.
    by destruct (move_to_node_completion f t c s) as (_&_&->&->).
  - done.
  - done.
  - intros node_id s. apply record_success_consistent.
  - intros node_id s. unfold record_failure. by case_bool_decide.
Qed.

Lemma create_graph_state_consistent pid plan graph :
  completion_consistent (_create_graph_state pid plan graph).
Proof.
  unfold _create_graph_state, completion_consistent.
  match goal with
  | |- context [ _emit_event ?ty ?f ?x ] =>
      destruct (emit_event_frame ty f x) as (_&_&_&_&_&_&_&->&->)
  end.
  split; [apply NoDup_nil_2 | done].
Qed.

(** In every reachable state [steps_completed] has no duplicates and
    [completed_nodes] is its length, so the counter moved exactly once per
    listed node, at its first success. *)
Lemma reachable_completion_consistent library w :
  reachable library w → completion_consistent (w_state w).
Proof.
  induction 1 as [pid plan graph Hplan Hgraph | history_output w Hreach IH Hatt].
  - unfold activated.
    apply (preserves_advance_from_start_closed _ keeps_completion_consistent_closed plan).
    apply create_graph_state_consistent.
  - apply (preserves_check_graph_progress _ keeps_completion_consistent_closed);
      [|exact IH].
    intros s Hs. exact Hs.
Qed.

(** ** The completion counter against the total *)

Lemma only_completes_same node_id is_task s s' :
  plan_id s' = plan_id s → total_nodes s' = total_nodes s →
  steps_completed s' = steps_completed s →
  only_completes node_id is_task s s'.
Proof. intros H1 H2 H3. split; [done|]. split; [done|]. rewrite H3. by left. Qed.

#[local] Instance only_completes_preorder node_id is_task :
  PreOrder (only_completes node_id is_task).
Proof.
  split.
  - intros s. by apply only_completes_same.
  - intros s1 s2 s3 (Hp12 & Ht12 & Hs12) (Hp23 & Ht23 & Hs23).
    split; [congruence|]. split; [congruence|].
    intros x Hx. destruct (Hs23 x Hx) as [Hx2|Hx2]; [by apply Hs12 | by right].
Qed.

Lemma only_completes_closed node_id is_task :
  step_closed_for (only_completes node_id is_task) node_id is_task.
Proof.
  split.
  - intros ty fields s.
    destruct (emit_event_frame ty fields s) as (?&_&_&_&_&_&?&_&?).
    by apply only_completes_same.
  - intros f t c s. destruct (move_to_node_completion f t c s) as (?&?&_&?).
    by apply only_completes_same.
  - intros _ s. by apply only_completes_same.
  - intros _ o s. by apply only_completes_same.
  - intros Htask s. unfold record_success.
    case_bool_decide; [by apply only_completes_same|].
    split; [done|]. split; [done|]. cbn.
    intros x [Hx|Hx]%elem_of_app; [by left|].
    apply list_elem_of_singleton in Hx. by right.
  - intros _ s. unfold record_failure.
    case_bool_decide; by apply only_completes_same.
Qed.

Lemma check_graph_progress_within_plan history_output library w :
  types_declared library →
  completion_within_plan library (w_state w) →
  completion_within_plan library
    (w_state (_check_graph_progress history_output library w).2).
Proof.
  intros Htypes (plan & graph & Hplan & Hgraph & Htotal & Hdecl).
  set (node_id := current_node (w_state w)).
  set (is_task := declared_in library (plan_id (w_state w)) node_id).
  destruct (check_graph_progress_preserves _ node_id is_task
              (only_completes_closed node_id is_task) history_output library w)
    as (Hp & Ht & Hs).
  - done.
  - intros plan' graph' nodes node Hplan' Hgraph' Hnodes Hnode Htruthy Htype.
    exists plan', graph'. split; [done|]. split; [done|].
    exists node. rewrite Hnodes. split; [done|].
    destruct (Htypes _ _ _ _ _ _ Hplan' Hgraph' Hnodes Hnode Htruthy) as [t Ht].
    unfold node_type in Htype. rewrite Ht in Htype. simpl in Htype. congruence.
  - intros s. by apply only_completes_same.
  - exists plan, graph. rewrite Hp, Ht. split; [done|]. split; [done|]. split; [done|].
    intros x Hx. destruct (Hs x Hx) as [Hx'|[-> (plan' & graph' & Hplan' & Hgraph' & Hd)]].
    + by apply Hdecl.
    + congruence.
Qed.

Lemma reachable_within_plan library w :
  types_declared library → reachable library w →
  completion_within_plan library (w_state w).
Proof.
  intros Htypes.
  induction 1 as [pid plan graph Hplan Hgraph | history_output w Hreach IH Hatt].
  - unfold activated.
    destruct (preserves_advance_from_start _ "" False
                (only_completes_closed "" False) plan
                (mkWorld (_create_graph_state pid plan graph) true None [] None))
      as (Hp & Ht & Hs).
    cbn [w_state] in *.
    assert (plan_id (_create_graph_state pid plan graph) = pid
            ∧ total_nodes (_create_graph_state pid plan graph)
              = count_task_nodes (default ∅ (g_nodes graph))
            ∧ steps_completed (_create_graph_state pid plan graph) = []) as (Hp0 & Ht0 & Hs0).
    { unfold _create_graph_state. cbv zeta.
      match goal with
      | |- context [ _emit_event ?ty ?f ?x ] =>
          destruct (emit_event_frame ty f x) as (->&_&_&_&_&_&->&_&->)
      end. done. }
    exists plan, graph. rewrite Hp, Ht, Hp0, Ht0.
    split; [done|]. split; [done|]. split; [done|].
    intros x Hx. destruct (Hs x Hx) as [Hx'|[_ []]].
    rewrite Hs0 in Hx'. by apply elem_of_nil in Hx'.
  - by apply check_graph_progress_within_plan.
Qed.

Lemma declared_tasks_counted (nodes : gmap string Node) (l : list string) :
  NoDup l → (∀ x, x ∈ l → declared_task nodes x) →
  Z.of_nat (length l) ≤ count_task_nodes nodes.
Proof.
  intros Hnd Hdecl. unfold count_task_nodes. apply inj_le.
  rewrite <- (length_fmap fst (List.filter _ _)).
  apply submseteq_length, NoDup_submseteq; [done|].
  intros x Hx. destruct (Hdecl x Hx) as (node & Hnode & Htype).
  apply list_elem_of_fmap. exists (x, node). split; [done|].
  apply list_elem_of_In, filter_In. split.
  - apply list_elem_of_In. by apply elem_of_map_to_list.
  - by apply bool_decide_eq_true.
Qed.

(** In a library whose nodes all declare their type, [completed_nodes]
    never exceeds [total_nodes]. *)
Lemma completed_bounded_when_typed library w :
  types_declared library → reachable library w →
  completed_nodes (w_state w) ≤ total_nodes (w_state w).
Proof.
  intros Htypes Hreach.
  destruct (reachable_completion_consistent library w Hreach) as [Hnd Hlen].
  destruct (reachable_within_plan library w Htypes Hreach)
    as (plan & graph & _ & _ & Htotal & Hdecl).
  rewrite Hlen, Htotal. by apply declared_tasks_counted.
Qed.

(** C2. The bound [completed_nodes <= total_nodes] is broken by the code
    on a node without ["type"] key: [_create_graph_state] counts only
    nodes whose type is the string "task", so [total_nodes] is 0, while
    [_check_graph_progress] dispatches the same node as a task
    ([node.get("type", "task")]) and counts its success.  After activation
    and one turn with a tool output the reachable, still active state has
    [completed_nodes = 1] and [total_nodes = 0]; the same two turns through
    [execute] leave that state on the agent. *)
Theorem typeless_task_exceeds_total :
  let library := [("p", Sample.typeless_plan)] in
  let w0 := activated "p" Sample.typeless_plan Sample.typeless_graph in
  let w1 := Sample.turn library "ok" w0 in
  reachable library w1
  ∧ w_attached w1 = true
  ∧ current_node (w_state w1) = "A"
  ∧ steps_completed (w_state w1) = ["A"]
  ∧ completed_nodes (w_state w1) = 1
  ∧ total_nodes (w_state w1) = 0
  ∧ ¬ completed_nodes (w_state w1) ≤ total_nodes (w_state w1)
  ∧ (let h1 := execute (Some library) "" None [Sample.user_says "build and deploy"]
                       Sample.idle_host in
     let h2 := execute (Some library) "" None
                       [Sample.user_says "build and deploy"; Sample.tool_result "ok"] h1 in
     (λ st, match st with
            | GraphSt s => (completed_nodes s, total_nodes s)
            | LinearSt _ => (0, 0)
            end) <$> h_state h2 = Some (1, 0)).
Proof.
  cbv zeta. split.
  - unfold Sample.turn. apply reach_advanced.
    + by apply reach_activated.
    + vm_compute. reflexivity.
  - vm_compute. repeat split. intros H. by apply H.
Qed.

(* ================================================================== *)
(** * Further properties of the engine *)
(* ================================================================== *)

(** ** The event log is a bounded window *)

Lemma last_n_short {A} (n : nat) (l : list A) : (length l ≤ n)%nat → last_n n l = l.
Proof. intros H. unfold last_n. by replace (length l - n)%nat with 0%nat by lia. Qed.

Lemma last_n_length {A} (n : nat) (l : list A) : length (last_n n l) = (length l `min` n)%nat.
Proof. unfold last_n. rewrite length_drop. lia. Qed.

Lemma emit_event_events ty fields s :
  events (_emit_event ty fields s) =
  last_n MAX_EVENTS (events s ++ [mkEvent ty (turns_since_transition s) fields]).
Proof.
  unfold _emit_event. case_match eqn:E; rewrite events_set_events; [done|].
  apply Nat.ltb_ge in E. by rewrite last_n_short.
Qed.

#[local] Instance keeps_within_cap_preorder : PreOrder keeps_within_cap.
Proof.
  split.
  - intros s H. exact H.
  - intros s1 s2 s3 H12 H23 H. apply H23, H12, H.
Qed.

Lemma emit_event_within_cap ty fields s : within_cap (_emit_event ty fields s).
Proof.
  unfold within_cap. rewrite emit_event_events, last_n_length. lia.
Qed.

Lemma keeps_within_cap_closed : step_closed keeps_within_cap.
Proof.
  split; unfold keeps_within_cap.
  - intros ty fields s _. apply emit_event_within_cap.
  - intros f t c s _. unfold _move_to_node. apply emit_event_within_cap.
  - done.
  - done.
  - intros node_id s. unfold record_success, within_cap. by case_bool_decide.
  - intros node_id s. unfold record_failure, within_cap. by case_bool_decide.
Qed.

(** X1. Emitting an event makes the log the last 50 entries of the old log
    followed by the new event, so the new event is always kept and the
    oldest ones are dropped first; in every reachable traversal state the
    log holds at most 50 events. *)
Theorem event_log_window :
  (∀ ty fields s,
     events (_emit_event ty fields s) =
     last_n MAX_EVENTS (events s ++ [mkEvent ty (turns_since_transition s) fields])
     ∧ (length (events (_emit_event ty fields s)) ≤ 50)%nat
     ∧ ((length (events s) < 50)%nat →
        events (_emit_event ty fields s) =
        events s ++ [mkEvent ty (turns_since_transition s) fields])
     ∧ ((50 ≤ length (events s))%nat →
        length (events (_emit_event ty fields s)) = 50%nat
        ∧ ∃ dropped, events s ++ [mkEvent ty (turns_since_transition s) fields]
                     = dropped ++ events (_emit_event ty fields s)
                     ∧ length dropped = (length (events s) - 49)%nat))
  ∧ (∀ library w, reachable library w → (length (events (w_state w)) ≤ 50)%nat).
Proof.
  split.
  - intros ty fields s. split; [apply emit_event_events|].
    split; [apply emit_event_within_cap|]. split.
    + intros Hlt. rewrite emit_event_events. apply last_n_short.
      rewrite length_app. unfold MAX_EVENTS. simpl. lia.
    + intros Hge. rewrite emit_event_events. split.
      * rewrite last_n_length, length_app. unfold MAX_EVENTS. simpl. lia.
      * exists (take (length (events s) - 49)
                     (events s ++ [mkEvent ty (turns_since_transition s) fields])).
        unfold last_n, MAX_EVENTS. rewrite length_app. simpl.
        replace (length (events s) + 1 - 50)%nat with (length (events s) - 49)%nat by lia.
        rewrite take_drop. split; [done|].
        rewrite length_take, length_app. simpl. lia.
  - intros library w Hreach. change (within_cap (w_state w)).
    induction Hreach as [pid plan graph Hplan Hgraph | history_output w Hreach IH Hatt].
    + unfold activated.
      apply (preserves_advance_from_start_closed _ keeps_within_cap_closed plan).
      cbn [w_state]. unfold _create_graph_state. apply emit_event_within_cap.
    + apply (preserves_check_graph_progress _ keeps_within_cap_closed); [|exact IH].
      intros s Hs. exact Hs.
Qed.

Lemma event_log_window_witness :
  events (_emit_event "node_entered" {[ "node" := "A" ]}
            (w_state (activated "p" Sample.stale_plan Sample.linear_graph))) =
  events (w_state (activated "p" Sample.stale_plan Sample.linear_graph))
  ++ [mkEvent "node_entered" 0 {[ "node" := "A" ]}].
Proof.
  destruct event_log_window as [H _].
  destruct (H "node_entered" {[ "node" := "A" ]}
              (w_state (activated "p" Sample.stale_plan Sample.linear_graph)))
    as (_ & _ & Hshort & _).
  apply Hshort. vm_compute. lia.
Defined.

(** ** Edge resolution *)

Lemma find_first {A} (f : A → bool) (l : list A) (a : A) :
  List.find f l = Some a →
  ∃ i, l !! i = Some a ∧ f a = true ∧ ∀ j b, (j < i)%nat → l !! j = Some b → f b = false.
Proof.
  induction l as [|x l IH]; [done|]. simpl. destruct (f x) eqn:Hx.
  - intros [= ->]. exists 0%nat. split; [done|]. split; [done|]. intros j b Hj. lia.
  - intros Hfind. destruct (IH Hfind) as (i & Hi & Ha & Hbefore).
    exists (S i). split; [done|]. split; [done|].
    intros [|j] b Hj; simpl.
    + by intros [= <-].
    + apply Hbefore. lia.
Qed.

Lemma find_nothing {A} (f : A → bool) (l : list A) :
  List.find f l = None ↔ ∀ a, a ∈ l → f a = false.
Proof.
  induction l as [|x l IH]; simpl.
  - split; [|done]. intros _ a Ha. by apply elem_of_nil in Ha.
  - destruct (f x) eqn:Hx.
    + split; [done|]. intros H. specialize (H x (list_elem_of_here _ _)). congruence.
    + rewrite IH. split.
      * intros H a [->|Ha]%elem_of_cons; [done | by apply H].
      * intros H a Ha. apply H. by apply list_elem_of_further.
Qed.

Lemma follow_edge_order graph from_node condition fallback fallback2 :
  _follow_edge graph from_node condition fallback fallback2 =
  match first_in_order (edges_from graph from_node)
                       (resolution_order condition fallback fallback2) with
  | Some e => edge_to e
  | None => Ret None
  end.
Proof.
  unfold _follow_edge, resolution_order, edges_from. cbv zeta.
  cbn [first_in_order]. destruct (first_with _ condition); [done|].
  destruct (Text.truthy fallback), (Text.truthy fallback2); cbn [app first_in_order];
    repeat (destruct (first_with _ _); [done|]); done.
Qed.

Lemma first_in_order_picked candidates order e :
  first_in_order candidates order = Some e → picked candidates order e.
Proof.
  induction order as [|c order IH]; [done|]. cbn [first_in_order].
  destruct (first_with candidates c) as [e1|] eqn:Hfirst.
  - intros [= ->]. unfold first_with in Hfirst.
    destruct (find_first _ _ _ Hfirst) as (i & Hi & Hc & Hbefore).
    apply String.eqb_eq in Hc. exists i, 0%nat.
    split; [done|]. split; [by rewrite Hc|]. split.
    + intros j e' Hj He'. specialize (Hbefore j e' Hj He').
      apply String.eqb_neq in Hbefore. by rewrite Hc.
    + intros k' c' e' Hk'. lia.
  - intros Hrest. destruct (IH Hrest) as (i & k & Hi & Hk & Hbefore & Hearlier).
    exists i, (S k). split; [done|]. split; [done|]. split; [done|].
    intros [|k'] c' e' Hk'; simpl.
    + intros [= <-] He'. unfold first_with in Hfirst.
      apply String.eqb_neq. by apply (proj1 (find_nothing _ _) Hfirst).
    + apply Hearlier. lia.
Qed.

Lemma first_in_order_none candidates order :
  first_in_order candidates order = None ↔
  ∀ e, e ∈ candidates → edge_condition e ∉ order.
Proof.
  induction order as [|c order IH]; cbn [first_in_order].
  - split; [|done]. intros _ e _. apply not_elem_of_nil.
  - destruct (first_with candidates c) as [e1|] eqn:Hfirst.
    + split; [done|]. intros H. unfold first_with in Hfirst.
      destruct (find_first _ _ _ Hfirst) as (i & Hi & Hc & _).
      apply String.eqb_eq in Hc. exfalso.
      apply (H e1); [by eapply list_elem_of_lookup_2|]. rewrite Hc. apply list_elem_of_here.
    + rewrite IH. unfold first_with in Hfirst.
      pose proof (proj1 (find_nothing _ _) Hfirst) as Hnone. split.
      * intros H e He. apply not_elem_of_cons. split; [|by apply H].
        apply String.eqb_neq. by apply Hnone.
      * intros H e He. specialize (H e He). by apply not_elem_of_cons in H as [_ H].
Qed.

Lemma picked_unique candidates order e1 e2 :
  picked candidates order e1 → picked candidates order e2 → e1 = e2.
Proof.
  intros (i1 & k1 & Hi1 & Hk1 & Hb1 & He1) (i2 & k2 & Hi2 & Hk2 & Hb2 & He2).
  assert (k1 = k2) as ->.
  { destruct (Nat.lt_trichotomy k1 k2) as [H|[H|H]]; [|done|].
    - exfalso. by apply (He2 k1 _ e1 H Hk1); [eapply list_elem_of_lookup_2|].
    - exfalso. by apply (He1 k2 _ e2 H Hk2); [eapply list_elem_of_lookup_2|]. }
  assert (edge_condition e1 = edge_condition e2) as Hc by congruence.
  assert (i1 = i2) as ->.
  { destruct (Nat.lt_trichotomy i1 i2) as [H|[H|H]]; [|done|].
    - exfalso. by apply (Hb2 i1 e1 H Hi1).
    - exfalso. by apply (Hb1 i2 e2 H Hi2). }
  congruence.
Qed.

(** X2. [_follow_edge] looks only at the edges that leave [from_node], in
    document order, and tries the conditions in the order: the condition
    asked for, the fallbacks that are not empty, then ["always"] (an edge
    without ["condition"] counts as ["always"]).  When no such edge carries
    one of these conditions the result is [None]; otherwise the result is
    the target of the one edge picked, the first edge with the first
    condition found, or [KeyError] when that edge has no ["to"]. *)
Theorem follow_edge_resolution graph from_node condition fallback fallback2 :
  let candidates := edges_from graph from_node in
  let order := resolution_order condition fallback fallback2 in
  (∀ e, e ∈ candidates ↔ e ∈ default [] (g_edges graph) ∧ e_from e = Some from_node)
  ∧ (∀ e1 e2, picked candidates order e1 → picked candidates order e2 → e1 = e2)
  ∧ (((∀ e, e ∈ candidates → edge_condition e ∉ order)
      ∧ _follow_edge graph from_node condition fallback fallback2 = Ret None)
     ∨ (∃ e, picked candidates order e
             ∧ _follow_edge graph from_node condition fallback fallback2 =
               match e_to e with
               | Some t => Ret (Some t)
               | None => Raise (KeyError "to")
               end)).
Proof.
  cbv zeta. split; [|split].
  - intros e. unfold edges_from. rewrite !list_elem_of_In, filter_In.
    rewrite bool_decide_eq_true. tauto.
  - apply picked_unique.
  - rewrite follow_edge_order.
    destruct (first_in_order _ _) as [e|] eqn:Hfirst.
    + right. exists e. split; [by apply first_in_order_picked|].
      unfold edge_to. by destruct (e_to e).
    + left. split; [|done]. by apply first_in_order_none.
Qed.

(** ** The verdict that decisions route on *)

Lemma find_app_none {A} (f : A → bool) (l1 l2 : list A) :
  List.find f l1 = None → List.find f (l1 ++ l2) = List.find f l2.
Proof.
  induction l1 as [|x l1 IH]; [done|]. simpl. destruct (f x); [done | exact IH].
Qed.

Lemma find_not_verified (l : list Event) :
  Forall (λ e, ev_type e ≠ "node_verified") l →
  List.find (λ ev, String.eqb (ev_type ev) "node_verified") (rev l) = None.
Proof.
  intros Hall. apply find_nothing. intros ev Hev.
  apply list_elem_of_In, in_rev, list_elem_of_In in Hev. apply String.eqb_neq.
  by apply (proj1 (Forall_forall _ _) Hall).
Qed.

Lemma get_last_outcome_default s :
  Forall (λ e, ev_type e ≠ "node_verified") (events s) → _get_last_outcome s = "success".
Proof. intros Hall. unfold _get_last_outcome. by rewrite find_not_verified. Qed.

Lemma get_last_outcome_latest o k s :
  latest_verified o k s → _get_last_outcome s = o.
Proof.
  intros (earlier & ev & later & Hev & Hty & Ho & Hlater & _).
  unfold _get_last_outcome. rewrite Hev, rev_app_distr. simpl. rewrite <- app_assoc.
  rewrite find_app_none by by apply find_not_verified.
  simpl. rewrite Hty. simpl. by rewrite Ho.
Qed.

Lemma latest_verified_weaken (j k : nat) o s :
  (j ≤ k)%nat → latest_verified o j s → latest_verified o k s.
Proof.
  intros Hjk (earlier & ev & later & ? & ? & ? & ? & ?).
  exists earlier, ev, later. repeat split; [done..|lia].
Qed.

Lemma latest_verified_new fields o s :
  fields !! "outcome" = Some o →
  latest_verified o 0 (_emit_event "node_verified" fields s).
Proof.
  intros Ho. destruct (emit_event_last "node_verified" fields s) as (earlier & Heq).
  exists earlier, (mkEvent "node_verified" (turns_since_transition s) fields), [].
  split; [exact Heq|]. split; [done|]. split; [done|]. split; [constructor | simpl; lia].
Qed.

Lemma latest_verified_emit (k : nat) o ty fields s :
  ty ≠ "node_verified" →
  latest_verified o k s → (k + 1 < MAX_EVENTS)%nat →
  latest_verified o (k + 1) (_emit_event ty fields s).
Proof.
  intros Hty (earlier & ev & later & Hev & Hevty & Ho & Hlater & Hlen) Hk.
  set (new := mkEvent ty (turns_since_transition s) fields).
  assert (Forall (λ e, ev_type e ≠ "node_verified") (later ++ [new])) as Hall.
  { apply Forall_app. split; [done|]. by repeat constructor. }
  unfold latest_verified. rewrite emit_event_events. fold new.
  rewrite Hev, <- app_assoc, <- app_comm_cons. unfold last_n.
  rewrite drop_app_le
    by (rewrite !length_app; simpl; rewrite length_app; simpl;
        unfold MAX_EVENTS in *; lia).
  eexists _, ev, (later ++ [new]). split; [reflexivity|].
  split; [done|]. split; [done|]. split; [done|].
  rewrite length_app. simpl. lia.
Qed.

Lemma latest_verified_move (k : nat) o from_node to_node condition s :
  latest_verified o k s → (k + 2 < MAX_EVENTS)%nat →
  latest_verified o (k + 2) (_move_to_node from_node to_node condition s).
Proof.
  intros Hev Hk. unfold _move_to_node.
  replace (k + 2)%nat with (k + 1 + 1)%nat by lia.
  apply latest_verified_emit; [done| |lia]. apply latest_verified_emit; [done| |lia].
  destruct (visited _ !! to_node); exact Hev.
Qed.

Lemma keeps_verdict_weaken {A} (i j : nat) (m : M State A) :
  (i ≤ j)%nat → keeps_verdict i m → keeps_verdict j m.
Proof.
  intros Hij Hm o k w Hev Hk.
  apply (latest_verified_weaken (k + i)); [lia|]. apply Hm; [done | lia].
Qed.

Lemma keeps_verdict_same {A} (j : nat) (m : M State A) :
  (∀ w, events (w_state (m w).2) = events (w_state w)) → keeps_verdict j m.
Proof.
  intros H o k w (earlier & ev & later & Hev & ? & ? & ? & ?) _.
  exists earlier, ev, later. rewrite H. repeat split; [done..|lia].
Qed.

Lemma keeps_verdict_bind {A B} (i j : nat) (m : M State A) (f : A → M State B) :
  keeps_verdict i m → (∀ a, keeps_verdict j (f a)) → keeps_verdict (i + j) (m ≫= f).
Proof.
  intros Hm Hf o k w Hev Hk. rewrite bind_run.
  specialize (Hm o k w Hev). destruct (m w) as [[a|e] w1]; simpl in *.
  - replace (k + (i + j))%nat with (k + i + j)%nat by lia.
    apply Hf; [apply Hm; lia | lia].
  - apply (latest_verified_weaken (k + i)); [lia|]. apply Hm. lia.
Qed.

Lemma keeps_verdict_emit ty fields :
  ty ≠ "node_verified" → keeps_verdict 1 (emit ty fields).
Proof. intros Hty o k w Hev Hk. by apply latest_verified_emit. Qed.

Lemma keeps_verdict_move from_node to_node condition :
  keeps_verdict 2 (modify_state (_move_to_node from_node to_node condition)).
Proof. intros o k w Hev Hk. by apply latest_verified_move. Qed.

Lemma keeps_verdict_body (j : nat) recurse plan :
  keeps_verdict j recurse → keeps_verdict (2 + j) (auto_route_body recurse plan).
Proof.
  intros Hrec. unfold auto_route_body.
  repeat first
    [ apply (keeps_verdict_bind 2 j); [apply keeps_verdict_move | intros _; exact Hrec]
    | apply (keeps_verdict_bind 0 (2 + j)); [by apply keeps_verdict_same | intros ?]
    | by apply keeps_verdict_same
    | progress cbv zeta
    | case_match ].
Qed.

Lemma keeps_verdict_auto_route_from (n : nat) plan :
  keeps_verdict (2 * n) (auto_route_from n plan).
Proof.
  induction n as [|n IH]; simpl auto_route_from.
  - by apply keeps_verdict_same.
  - replace (2 * S n)%nat with (2 + 2 * n)%nat by lia. by apply keeps_verdict_body.
Qed.

Lemma keeps_verdict_auto_route plan depth : keeps_verdict 30 (_auto_route plan depth).
Proof.
  apply (keeps_verdict_weaken (2 * (MAX_ROUTE_DEPTH - depth))).
  - unfold MAX_ROUTE_DEPTH. lia.
  - apply keeps_verdict_auto_route_from.
Qed.

(** What the task branch does after it has emitted its verdict. *)
Lemma keeps_verdict_after_verification plan graph node_id node (verified : bool) :
  keeps_verdict 33
    (if verified then
       modify_state (set_outcome node_id "success");;
       modify_state (record_success node_id);;
       target ← lift (_follow_edge graph node_id "on_success" "always" "");
       match target_truthy target with
       | Some t =>
           modify_state (_move_to_node node_id t "on_success");;
           _auto_route plan 0
       | None => log "warning" (MsgStallSuccess node_id)
       end
     else
       let max_retries := default 0 (n_max_retries node) in
       s ← get_state;
       if attempts (visit_entry s node_id) <=? max_retries then
         emit "retry_triggered" {[ "node" := node_id ]};;
         target ← lift (_follow_edge graph node_id "on_retry" "" "");
         match target_truthy target with
         | Some t =>
             modify_state (_move_to_node node_id t "on_retry");;
             _auto_route plan 0
         | None => mret tt
         end
       else
         modify_state (set_outcome node_id "fail");;
         modify_state (record_failure node_id);;
         target ← lift (_follow_edge graph node_id "on_exhaust" "on_fail" "always");
         match target_truthy target with
         | Some t =>
             modify_state (_move_to_node node_id t "on_exhaust");;
             _auto_route plan 0
         | None => log "warning" (MsgStallExhaust node_id)
         end).
Proof.
  assert (∀ c t, keeps_verdict 32
            (modify_state (_move_to_node node_id t c);; _auto_route plan 0)) as Hmove.
  { intros c t. apply (keeps_verdict_bind 2 30); [apply keeps_verdict_move|].
    intros _. apply keeps_verdict_auto_route. }
  assert (∀ f, (∀ s, events (f s) = events s) →
               keeps_verdict 0 (modify_state f)) as Hmod.
  { intros f Hf. apply keeps_verdict_same. intros w. apply Hf. }
  assert (∀ s, events (record_success node_id s) = events s) as Hsucc
    by (intros s; unfold record_success; by case_bool_decide).
  assert (∀ s, events (record_failure node_id s) = events s) as Hfail
    by (intros s; unfold record_failure; by case_bool_decide).
  assert (∀ c fb fb2 (stall : M State unit),
            (∀ w, events (w_state (stall w).2) = events (w_state w)) →
            keeps_verdict 32
              (target ← lift (_follow_edge graph node_id c fb fb2);
               match target_truthy target with
               | Some t => modify_state (_move_to_node node_id t c);; _auto_route plan 0
               | None => stall
               end)) as Hroute.
  { intros c fb fb2 stall Hstall.
    apply (keeps_verdict_bind 0 32); [by apply keeps_verdict_same|].
    intros target. destruct (target_truthy target); [apply Hmove|].
    by apply keeps_verdict_same. }
  destruct verified.
  - apply (keeps_verdict_weaken 32); [lia|].
    apply (keeps_verdict_bind 0 32); [by apply Hmod|]. intros _.
    apply (keeps_verdict_bind 0 32); [by apply Hmod|]. intros _.
    by apply Hroute.
  - cbv zeta. apply (keeps_verdict_bind 0 33); [by apply keeps_verdict_same|].
    intros s. destruct (_ <=? _).
    + apply (keeps_verdict_bind 1 32); [by apply keeps_verdict_emit|]. intros _.
      by apply Hroute.
    + apply (keeps_verdict_weaken 32); [lia|].
      apply (keeps_verdict_bind 0 32); [by apply Hmod|]. intros _.
      apply (keeps_verdict_bind 0 32); [by apply Hmod|]. intros _.
      by apply Hroute.
Qed.

Lemma task_step_verdict plan graph node_id node last_output w :
  latest_verified (if _verify_node node last_output then "success" else "fail") 33
                  (w_state (task_step plan graph node_id node last_output w).2).
Proof.
  unfold task_step. rewrite bind_run. cbn [modify_state]. rewrite bind_run.
  cbn [emit modify_state w_state w_attached w_pace w_log w_extras].
  apply (keeps_verdict_after_verification plan graph node_id node
           (_verify_node node last_output) _ 0%nat); [|unfold MAX_EVENTS; lia].
  cbn [w_state]. apply latest_verified_new.
  destruct (_verify_node node last_output); by simplify_map_eq.
Qed.

(** X3. Decision routing reads the verdict of the most recent
    [node_verified] event of the log and takes ["success"] when the log has
    none, so a decision reached before any verification routes on
    [on_success], and one reached after a verdict [o] looks up [on_o]
    first.  A move does not disturb the verdict, and at the end of the task
    branch the latest verdict is that of the verification just made
    (success or fail), whatever routing followed it. *)
Theorem decision_routes_on_latest_verdict :
  (∀ s, Forall (λ e, ev_type e ≠ "node_verified") (events s) →
        _get_last_outcome s = "success")
  ∧ (∀ o k s, latest_verified o k s → _get_last_outcome s = o)
  ∧ (∀ graph o k s node,
       latest_verified o k s → o ≠ "" → node_type node = "decision" →
       route_target graph s node =
       _follow_edge graph (current_node s) ("on_" +:+ o) "always" "")
  ∧ (∀ o k s from_node to_node condition,
       latest_verified o k s → (k + 2 < MAX_EVENTS)%nat →
       latest_verified o (k + 2) (_move_to_node from_node to_node condition s))
  ∧ (∀ plan graph node_id node last_output w,
       let s' := w_state (task_step plan graph node_id node last_output w).2 in
       latest_verified (if _verify_node node last_output then "success" else "fail") 33 s'
       ∧ _get_last_outcome s' =
         if _verify_node node last_output then "success" else "fail").
Proof.
  split; [exact get_last_outcome_default|].
  split; [exact get_last_outcome_latest|].
  split; [|split].
  - intros graph o k s node Hlatest Ho Htype. unfold route_target.
    rewrite Htype. cbn [String.eqb Ascii.eqb Bool.eqb].
    rewrite (get_last_outcome_latest o k s Hlatest).
    by destruct o.
  - intros o k s from_node to_node condition. apply latest_verified_move.
  - intros plan graph node_id node last_output w. cbv zeta.
    pose proof (task_step_verdict plan graph node_id node last_output w) as H.
    split; [exact H|]. exact (get_last_outcome_latest _ _ _ H).
Qed.

(** ** The user message is normalised *)


















(** ** The last tool output *)

Lemma get_last_tool_output_snoc history_output item :
  _get_last_tool_output (history_output ++ [item]) =
  match tool_output_of item with
  | Some output => Some output
  | None => _get_last_tool_output history_output
  end.
Proof.
  unfold _get_last_tool_output. rewrite rev_app_distr. simpl.
  destruct item as [msg|]; simpl; [|done].
  destruct (default (CStr "") (m_content msg)) as [s|d].
  - by destruct (Text.startswith s "[tool_result").
  - by destruct (d !! "tool_name").
Qed.

Lemma get_last_tool_output_app history_output later :
  Forall (λ item, tool_output_of item = None) later →
  _get_last_tool_output (history_output ++ later) = _get_last_tool_output history_output.
Proof.
  induction later as [|item later IH] using rev_ind; intros Hall.
  - by rewrite app_nil_r.
  - apply Forall_app in Hall as [Hlater Hitem]. apply Forall_inv in Hitem.
    simpl in Hitem. rewrite (assoc_L (++)), get_last_tool_output_snoc, Hitem. by apply IH.
Qed.

Lemma get_last_tool_output_none history_output :
  _get_last_tool_output history_output = None ↔
  Forall (λ item, tool_output_of item = None) history_output.
Proof.
  induction history_output as [|item history_output IH] using rev_ind.
  - split; [constructor | done].
  - rewrite get_last_tool_output_snoc.
    destruct (tool_output_of item) as [output|] eqn:Hitem.
    + split; [done|]. intros [_ H]%Forall_app. apply Forall_inv in H. simpl in H. congruence.
    + split.
      * intros H. apply Forall_app. split; [by apply IH|]. by apply Forall_singleton.
      * intros [H _]%Forall_app. by apply IH.
Qed.

Lemma check_graph_progress_same_output h1 h2 library :
  _get_last_tool_output h1 = _get_last_tool_output h2 →
  _check_graph_progress h1 library = _check_graph_progress h2 library.
Proof.
  intros H. unfold _check_graph_progress, traverse, dispatch. by rewrite H.
Qed.

Lemma check_linear_progress_same_output h1 h2 library :
  _get_last_tool_output h1 = _get_last_tool_output h2 →
  _check_linear_progress h1 library = _check_linear_progress h2 library.
Proof.
  intros H. unfold _check_linear_progress. by rewrite H.
Qed.

(** X5. The last tool output is that of the most recent history item that
    carries one: a dictionary content with a ["tool_name"] key (its
    [tool_result], else [output], else [result], else the empty string) or
    a string content that starts with ["[tool_result"], whoever sent it.
    It is [None] exactly when no item carries one.  Both engines read the
    history through it only, so items that follow the latest tool output
    change nothing of an advance call. *)
Theorem last_tool_output_is_latest :
  (∀ history_output item,
     _get_last_tool_output (history_output ++ [item]) =
     match tool_output_of item with
     | Some output => Some output
     | None => _get_last_tool_output history_output
     end)
  ∧ (∀ history_output,
       _get_last_tool_output history_output = None ↔
       Forall (λ item, tool_output_of item = None) history_output)
  ∧ (∀ history_output later library,
       Forall (λ item, tool_output_of item = None) later →
       _check_graph_progress (history_output ++ later) library =
       _check_graph_progress history_output library
       ∧ _check_linear_progress (history_output ++ later) library =
         _check_linear_progress history_output library).
Proof.
  split; [exact get_last_tool_output_snoc|].
  split; [exact get_last_tool_output_none|].
  intros history_output later library Hall.
  pose proof (get_last_tool_output_app history_output later Hall) as H.
  split.
  - by apply check_graph_progress_same_output.
  - by apply check_linear_progress_same_output.
Qed.

(** ** A turn without tool output *)

Lemma inject_graph_context_run plan graph nodes node w :
  p_graph plan = Some graph →
  g_nodes graph = Some nodes →
  nodes !! current_node (w_state w) = Some node →
  _inject_graph_context plan w =
  if bool_decide (n_type node = Some "task") then
    match List.find (λ e, bool_decide (e_to e = None))
                    (edges_from graph (current_node (w_state w))) with
    | Some _ => (Raise (KeyError "to"), w)
    | None => set_extras (WorkflowStatus (w_state w)) w
    end
  else set_extras (WorkflowStatus (w_state w)) w.
Proof.
  intros Hgraph Hnodes Hnode. unfold _inject_graph_context. rewrite Hgraph.
  cbn [default from_option id]. rewrite Hnodes. cbn [default from_option id].
  rewrite bind_get. rewrite Hnode. cbn [default from_option id].
  unfold edges_from. case_bool_decide; [|done].
  by destruct (List.find _ _).
Qed.

Lemma check_graph_progress_idle_run history_output library w plan graph nodes node :
  turns_since_transition (w_state w) + 1 ≤ stale_after_turns (w_state w) →
  lookup_plan library (plan_id (w_state w)) = Some plan →
  p_graph plan = Some graph →
  g_nodes graph = Some nodes →
  nodes !! current_node (w_state w) = Some node →
  n_type node = Some "task" →
  _get_last_tool_output history_output = None →
  _check_graph_progress history_output library w =
  (_inject_graph_context plan;; _set_state) (ticked w).
Proof.
  intros Hfresh Hplan Hgraph Hnodes Hnode Htype Hout.
  rewrite check_graph_progress_run. cbv zeta.
  replace (stale_after_turns _ <? turns_since_transition _) with false
    by (symmetry; apply Z.ltb_ge; simpl; lia).
  change (modify_state count_turn w).2 with (ticked w).
  assert (node_truthy node = true) as Htruthy by (destruct node; simpl in *; by subst).
  assert (node_type node = "task") as Hntype by (unfold node_type; by rewrite Htype).
  unfold traverse, dispatch. rewrite bind_get. cbn [ticked w_state].
  change (plan_id (count_turn (w_state w))) with (plan_id (w_state w)).
  change (current_node (count_turn (w_state w))) with (current_node (w_state w)).
  rewrite Hplan, Hgraph, Hnodes. cbn [getitem]. rewrite bind_lift_ret.
  rewrite Hnode, Htruthy. cbn [negb]. rewrite Hntype, Hout.
  cbn [String.eqb Ascii.eqb Bool.eqb]. rewrite bind_run, ret_run.
  unfold finish_turn. rewrite bind_get.
  change (current_node (w_state (ticked w))) with (current_node (w_state w)).
  rewrite Hnode, Htruthy, Htype. cbn [getitem]. rewrite bind_lift_ret.
  reflexivity.
Qed.

(** X6. A turn without any tool output in the history, on a node declared
    a task and within the staleness window, is idle: the two turn counters
    advance by one, no attempt is counted, no event is emitted, nothing is
    logged, and the status rendered from that state is injected.  If an
    edge leaving the node has no ["to"], rendering raises [KeyError]
    instead and nothing is injected. *)
Theorem idle_turn history_output library w plan graph nodes node :
  turns_since_transition (w_state w) + 1 ≤ stale_after_turns (w_state w) →
  lookup_plan library (plan_id (w_state w)) = Some plan →
  p_graph plan = Some graph →
  g_nodes graph = Some nodes →
  nodes !! current_node (w_state w) = Some node →
  n_type node = Some "task" →
  Forall (λ item, tool_output_of item = None) history_output →
  let s' := count_turn (w_state w) in
  let out_edges := edges_from graph (current_node (w_state w)) in
  (Forall (λ e, is_Some (e_to e)) out_edges →
   _check_graph_progress history_output library w =
   (Ret tt, mkWorld s' true (w_pace w) (w_log w) (Some (WorkflowStatus s'))))
  ∧ (Exists (λ e, e_to e = None) out_edges →
     _check_graph_progress history_output library w =
     (Raise (KeyError "to"),
      mkWorld s' (w_attached w) (w_pace w) (w_log w) (w_extras w)))
  ∧ turns_since_transition s' = turns_since_transition (w_state w) + 1
  ∧ turns_since_progress s' = turns_since_progress (w_state w) + 1
  ∧ visited s' = visited (w_state w)
  ∧ events s' = events (w_state w)
  ∧ path s' = path (w_state w).
Proof.
  intros Hfresh Hplan Hgraph Hnodes Hnode Htype Hout. cbv zeta.
  apply get_last_tool_output_none in Hout.
  rewrite (check_graph_progress_idle_run _ _ _ plan graph nodes node); [|done..].
  rewrite bind_run.
  rewrite (inject_graph_context_run plan graph nodes node); [|done..].
  rewrite bool_decide_eq_true_2 by done.
  cbn [ticked w_state].
  change (current_node (count_turn (w_state w))) with (current_node (w_state w)).
  split; [|split; [|done]].
  - intros Hall.
    replace (List.find _ _) with (@None Edge); [done|].
    symmetry. apply find_nothing. intros e He.
    apply bool_decide_eq_false. intros Hto.
    destruct (proj1 (Forall_forall _ _) Hall e He) as [t Ht]. congruence.
  - intros (e & He & Hto)%Exists_exists.
    destruct (List.find _ _) eqn:Hfind; [done|].
    exfalso. pose proof (proj1 (find_nothing _ _) Hfind e He) as Hf.
    by apply bool_decide_eq_false in Hf.
Qed.

Lemma idle_turn_witness :
  let w := activated "p" Sample.stale_plan Sample.linear_graph in
  _check_graph_progress [Sample.user_says "hello"] [("p", Sample.stale_plan)] w =
  (Ret tt, mkWorld (count_turn (w_state w)) true (w_pace w) (w_log w)
                   (Some (WorkflowStatus (count_turn (w_state w))))).
Proof.
  cbv zeta.
  destruct (idle_turn [Sample.user_says "hello"] [("p", Sample.stale_plan)]
              (activated "p" Sample.stale_plan Sample.linear_graph)
              Sample.stale_plan Sample.linear_graph
              {[ "s" := Sample.of_type "start"; "A" := Sample.task "done" 1;
                 "x" := Sample.of_type "exit" ]}
              (Sample.task "done" 1)) as [H _].
  - vm_compute. discriminate.
  - vm_compute. reflexivity.
  - reflexivity.
  - reflexivity.
  - vm_compute. reflexivity.
  - reflexivity.
  - repeat constructor.
  - apply H. vm_compute. repeat constructor; by eexists.
Defined.

(** ** Invariants of reachable states *)

Lemma emit_event_rest ty fields s :
  plan_name (_emit_event ty fields s) = plan_name s
  ∧ current_step (_emit_event ty fields s) = current_step s
  ∧ total_steps (_emit_event ty fields s) = total_steps s
  ∧ turns_since_progress (_emit_event ty fields s) = turns_since_progress s
  ∧ steps_failed (_emit_event ty fields s) = steps_failed s
  ∧ iteration_started (_emit_event ty fields s) = iteration_started s.
Proof. unfold _emit_event. by case_match. Qed.

Lemma move_to_node_rest from_node to_node condition s :
  plan_name (_move_to_node from_node to_node condition s) = plan_name s
  ∧ current_step (_move_to_node from_node to_node condition s) = current_step s
  ∧ total_steps (_move_to_node from_node to_node condition s) = total_steps s
  ∧ turns_since_progress (_move_to_node from_node to_node condition s)
    = turns_since_progress s
  ∧ steps_failed (_move_to_node from_node to_node condition s) = steps_failed s
  ∧ iteration_started (_move_to_node from_node to_node condition s) = iteration_started s.
Proof.
  unfold _move_to_node.
  repeat match goal with
  | |- context [ _emit_event ?ty ?f ?x ] =>
      destruct (emit_event_rest ty f x) as (->&->&->&->&->&->)
  end.
  by case_match.
Qed.

#[local] Instance keeps_preorder (I : State → Prop) : PreOrder (keeps I).
Proof.
  split.
  - intros s H. exact H.
  - intros s1 s2 s3 H12 H23 H. apply H23, H12, H.
Qed.

(** An invariant of the primitive updates that holds of every freshly
    created state holds of every reachable state. *)
Lemma reachable_keeps library (I : State → Prop) :
  step_closed (keeps I) →
  (∀ s, I s → I (count_turn s)) →
  (∀ pid plan graph, I (_create_graph_state pid plan graph)) →
  ∀ w, reachable library w → I (w_state w).
Proof.
  intros Hclosed Hcount Hinit w.
  induction 1 as [pid plan graph Hplan Hgraph | history_output w Hreach IH Hatt].
  - unfold activated.
    apply (preserves_advance_from_start_closed (keeps I) Hclosed plan). apply Hinit.
  - apply (preserves_check_graph_progress (keeps I) Hclosed); [|exact IH].
    intros s Hs. by apply Hcount.
Qed.

Lemma compat_in_sync_closed : step_closed (keeps compat_in_sync).
Proof.
  split; unfold keeps, compat_in_sync.
  - intros ty fields s.
    destruct (emit_event_frame ty fields s) as (_&_&_&_&_&_&->&->&_).
    by destruct (emit_event_rest ty fields s) as (_&->&->&_).
  - intros f t c s.
    destruct (move_to_node_completion f t c s) as (_&->&->&_).
    by destruct (move_to_node_rest f t c s) as (_&->&->&_).
  - done.
  - done.
  - intros node_id s [_ Htotal]. unfold record_success. by case_bool_decide.
  - intros node_id s. unfold record_failure. by case_bool_decide.
Qed.

(** X7. The fields that the supervisor reads stay in step with the graph
    counters: in every reachable state [current_step] equals
    [completed_nodes] and [total_steps] equals [total_nodes]. *)
Theorem compat_fields_in_sync library w :
  reachable library w →
  current_step (w_state w) = completed_nodes (w_state w)
  ∧ total_steps (w_state w) = total_nodes (w_state w).
Proof.
  apply (reachable_keeps library compat_in_sync).
  - apply compat_in_sync_closed.
  - by intros s.
  - intros pid plan graph. unfold _create_graph_state, compat_in_sync.
    match goal with
    | |- context [ _emit_event ?ty ?f ?x ] =>
        destruct (emit_event_frame ty f x) as (_&_&_&_&_&_&->&->&_);
        destruct (emit_event_rest ty f x) as (_&->&->&_)
    end.
    done.
Qed.

Lemma compat_fields_in_sync_witness :
  let w := Sample.turn [("p", Sample.stale_plan)] "not yet"
             (activated "p" Sample.stale_plan Sample.linear_graph) in
  current_step (w_state w) = completed_nodes (w_state w)
  ∧ total_steps (w_state w) = total_nodes (w_state w).
Proof.
  cbv zeta. apply (compat_fields_in_sync [("p", Sample.stale_plan)]).
  unfold Sample.turn. apply reach_advanced.
  - by apply reach_activated.
  - vm_compute. reflexivity.
Defined.

(** ** The path and the ids recorded on it *)

Lemma path_consistent_from_closed node_id :
  step_closed_for (keeps (path_consistent_from node_id)) node_id True.
Proof.
  split; unfold keeps, path_consistent_from, path_consistent.
  - intros ty fields s.
    destruct (emit_event_frame ty fields s) as (_&_&->&->&->&_&_&_&->).
    by destruct (emit_event_rest ty fields s) as (_&_&_&_&->&_).
  - intros f t c s ((Hlast & Hnd & Hin) & Hnode).
    destruct (move_to_node_completion f t c s) as (_&_&_&->).
    destruct (move_to_node_rest f t c s) as (_&_&_&_&->&_).
    rewrite move_to_node_path, move_to_node_current, move_to_node_visited.
    split; [|apply elem_of_app; by left].
    split; [by rewrite last_snoc|]. split; [done|].
    intros x Hx. apply elem_of_app. left. apply Hin.
    destruct Hx as [Hx|[Hx|Hx]]; [by left | by right; left |].
    right; right. destruct (visited s !! t) eqn:Ht; [|done].
    destruct (decide (x = t)) as [->|Hne]; [by rewrite Ht|].
    by rewrite lookup_insert_ne in Hx.
  - intros _ s ((Hlast & Hnd & Hin) & Hnode). split; [|done].
    split; [done|]. split; [done|]. intros x Hx. unfold count_attempt in Hx.
    cbn [steps_completed steps_failed visited set_visited] in Hx.
    destruct (decide (x = node_id)) as [->|Hne]; [done|].
    rewrite lookup_insert_ne in Hx by done. by apply Hin.
  - intros _ o s ((Hlast & Hnd & Hin) & Hnode). split; [|done].
    split; [done|]. split; [done|]. intros x Hx. unfold set_outcome in Hx.
    cbn [steps_completed steps_failed visited set_visited] in Hx.
    destruct (decide (x = node_id)) as [->|Hne]; [done|].
    rewrite lookup_insert_ne in Hx by done. by apply Hin.
  - intros _ s ((Hlast & Hnd & Hin) & Hnode). unfold record_success.
    case_bool_decide as Hc; cbn; (split; [|done]); (split; [done|]); (split; [done|]).
    + exact Hin.
    + intros x [Hx|Hx].
      * apply elem_of_app in Hx as [Hx|Hx]; [apply Hin; by left|].
        apply list_elem_of_singleton in Hx. by subst x.
      * apply Hin. by right.
  - intros _ s ((Hlast & Hnd & Hin) & Hnode). unfold record_failure.
    case_bool_decide as Hc; cbn; [done|]. split; [|done]. split; [done|]. split.
    + apply NoDup_app. split; [done|]. split; [|apply NoDup_singleton].
      intros x Hx Hx'. apply list_elem_of_singleton in Hx'. by subst x.
    + intros x [Hx|[Hx|Hx]].
      * apply Hin. by left.
      * apply elem_of_app in Hx as [Hx|Hx]; [apply Hin; by right; left|].
        apply list_elem_of_singleton in Hx. by subst x.
      * apply Hin. by right; right.
Qed.

Lemma path_consistent_here s :
  path_consistent s → path_consistent_from (current_node s) s.
Proof.
  intros Hs. split; [done|]. destruct Hs as (Hlast & _).
  apply last_Some in Hlast as [l' ->]. apply elem_of_app. right. apply list_elem_of_here.
Qed.

Lemma create_graph_state_path_consistent pid plan graph :
  path_consistent (_create_graph_state pid plan graph).
Proof.
  unfold _create_graph_state, path_consistent.
  match goal with
  | |- context [ _emit_event ?ty ?f ?x ] =>
      destruct (emit_event_frame ty f x) as (_&_&->&->&->&_&_&_&->);
      destruct (emit_event_rest ty f x) as (_&_&_&_&->&_)
  end.
  cbn. split; [done|]. split; [apply NoDup_nil_2|].
  intros x [Hx|[Hx|Hx]].
  - by apply elem_of_nil in Hx.
  - by apply elem_of_nil in Hx.
  - rewrite lookup_empty in Hx. by destruct Hx.
Qed.

(** X8. In every reachable state the path is not empty and ends at the
    current node, no node id is listed twice in [steps_failed], and every
    id that has a visit entry or is listed as completed or failed occurs on
    the path: the bookkeeping only ever names nodes the traversal has been
    on. *)
Theorem path_bookkeeping library w :
  reachable library w →
  last (path (w_state w)) = Some (current_node (w_state w))
  ∧ NoDup (steps_failed (w_state w))
  ∧ ∀ x, x ∈ steps_completed (w_state w) ∨ x ∈ steps_failed (w_state w)
         ∨ is_Some (visited (w_state w) !! x) →
         x ∈ path (w_state w).
Proof.
  change (reachable library w → path_consistent (w_state w)).
  induction 1 as [pid plan graph Hplan Hgraph | history_output w Hreach IH Hatt].
  - unfold activated.
    set (s0 := _create_graph_state pid plan graph).
    apply (preserves_advance_from_start _ _ _
             (path_consistent_from_closed (current_node s0)) plan
             (mkWorld s0 true None [] None)).
    apply path_consistent_here, create_graph_state_path_consistent.
  - apply (check_graph_progress_preserves _ _ _
             (path_consistent_from_closed (current_node (w_state w)))
             history_output library w); [done|done| |by apply path_consistent_here].
    intros s Hs. exact Hs.
Qed.

Lemma path_bookkeeping_witness :
  let w := Sample.turn [("p", Sample.cycle_plan)] "bad"
             (activated "p" Sample.cycle_plan Sample.cycle_graph) in
  last (path (w_state w)) = Some (current_node (w_state w)).
Proof.
  cbv zeta.
  apply (path_bookkeeping [("p", Sample.cycle_plan)]).
  unfold Sample.turn. apply reach_advanced.
  - by apply reach_activated.
  - vm_compute. reflexivity.
Defined.

(** ** The progress counter *)

#[local] Instance progress_tracked_preorder : PreOrder progress_tracked.
Proof.
  split.
  - intros s. exists []. by rewrite app_nil_r.
  - intros s1 s2 s3 (a1 & Hs1 & Hk1 & Hz1) (a2 & Hs2 & Hk2 & Hz2).
    exists (a1 ++ a2). rewrite Hs2, Hs1, <- app_assoc. split; [done|]. split.
    + intros [-> ->]%app_eq_nil. by rewrite Hk2, Hk1.
    + intros Hne. destruct a2 as [|x a2]; [|by apply Hz2].
      rewrite app_nil_r in Hne. rewrite Hk2 by done. by apply Hz1.
Qed.

Lemma progress_tracked_same s s' :
  steps_completed s' = steps_completed s →
  turns_since_progress s' = turns_since_progress s →
  progress_tracked s s'.
Proof. intros H1 H2. exists []. by rewrite app_nil_r. Qed.

Lemma progress_tracked_closed : step_closed progress_tracked.
Proof.
  split.
  - intros ty fields s. apply progress_tracked_same.
    + by destruct (emit_event_frame ty fields s) as (_&_&_&_&_&_&_&_&->).
    + by destruct (emit_event_rest ty fields s) as (_&_&_&->&_).
  - intros f t c s. apply progress_tracked_same.
    + by destruct (move_to_node_completion f t c s) as (_&_&_&->).
    + by destruct (move_to_node_rest f t c s) as (_&_&_&->&_).
  - intros node_id s. by apply progress_tracked_same.
  - intros node_id o s. by apply progress_tracked_same.
  - intros node_id s. unfold record_success.
    case_bool_decide; [by apply progress_tracked_same|].
    exists [node_id]. cbn. by repeat split.
  - intros node_id s. unfold record_failure.
    case_bool_decide; by apply progress_tracked_same.
Qed.

(** X9. [turns_since_progress] counts the advance calls since the last
    first-time completion of a node: an advance call raises it by exactly
    one unless it adds an id to [steps_completed], in which case it leaves
    it at zero.  A move alone does not reset it, so it keeps growing while
    the traversal cycles through nodes already completed. *)
Theorem progress_counter :
  (∀ history_output library w,
     let s := w_state w in
     let s' := w_state (_check_graph_progress history_output library w).2 in
     ∃ added, steps_completed s' = steps_completed s ++ added
              ∧ (added = [] → turns_since_progress s' = turns_since_progress s + 1)
              ∧ (added ≠ [] → turns_since_progress s' = 0))
  ∧ (∀ from_node to_node condition s,
       turns_since_progress (_move_to_node from_node to_node condition s)
       = turns_since_progress s)
  ∧ (∀ node_id s,
       node_id ∈ steps_completed s →
       turns_since_progress (record_success node_id s) = turns_since_progress s).
Proof.
  split; [|split].
  - intros history_output library w. cbv zeta.
    rewrite check_graph_progress_run. cbv zeta.
    set (w1 := (modify_state count_turn w).2).
    assert (progress_tracked (w_state w1)
              (w_state (if stale_after_turns (w_state w1) <? turns_since_transition (w_state w1)
                        then expire_plan w1
                        else traverse history_output library w1).2)) as HR.
    { case_match.
      - apply (preserves_expire_plan _ (sc_emit _ progress_tracked_closed)).
      - apply (preserves_traverse _ progress_tracked_closed). }
    destruct HR as (added & Hs & Hk & Hz). exists added.
    split; [exact Hs|]. split; [|exact Hz].
    intros Hnil. by rewrite Hk.
  - intros f t c s. by destruct (move_to_node_rest f t c s) as (_&_&_&->&_).
  - intros node_id s Hin. unfold record_success. by rewrite bool_decide_eq_true_2.
Qed.

(** ** Plans that no longer resolve *)

Lemma check_graph_progress_fresh_run history_output library w :
  turns_since_transition (w_state w) + 1 ≤ stale_after_turns (w_state w) →
  _check_graph_progress history_output library w =
  dispatch history_output library (count_turn (w_state w)) (ticked w).
Proof.
  intros Hfresh. rewrite check_graph_progress_run. cbv zeta.
  replace (stale_after_turns _ <? turns_since_transition _) with false
    by (symmetry; apply Z.ltb_ge; simpl; lia).
  unfold traverse. by rewrite bind_get.
Qed.

(** X10. Within the staleness window, an advance call whose plan id is no
    longer in the library, whose plan has no graph, or whose current node
    does not resolve to a non-empty node drops the plan silently: the agent
    attribute is removed, and nothing is emitted, logged or injected.  A
    graph without ["nodes"] is not handled that way: the call raises
    [KeyError]; through the entry point the plan then stays attached with
    only its counters advanced, and a warning is logged. *)
Theorem unresolvable_plan_dropped history_output library w :
  turns_since_transition (w_state w) + 1 ≤ stale_after_turns (w_state w) →
  let s := w_state w in
  let run := _check_graph_progress history_output library w in
  (lookup_plan library (plan_id s) = None → run = (Ret tt, dropped w))
  ∧ (∀ plan, lookup_plan library (plan_id s) = Some plan → p_graph plan = None →
       run = (Ret tt, dropped w))
  ∧ (∀ plan graph nodes,
       lookup_plan library (plan_id s) = Some plan → p_graph plan = Some graph →
       g_nodes graph = Some nodes → unresolved nodes s →
       run = (Ret tt, dropped w))
  ∧ (∀ plan graph,
       lookup_plan library (plan_id s) = Some plan → p_graph plan = Some graph →
       g_nodes graph = None →
       run = (Raise (KeyError "nodes"), ticked w)
       ∧ (w_attached w = true →
          ∀ domain allowed_plans pace log extras,
            execute (Some library) domain allowed_plans history_output
                    (mkHost (Some (GraphSt s)) pace log extras) =
            mkHost (Some (GraphSt (count_turn s))) pace
                   (log ++ [mkLog "warning" (MsgError (KeyError "nodes"))]) extras)).
Proof.
  intros Hfresh. cbv zeta.
  rewrite (check_graph_progress_fresh_run _ _ _ Hfresh).
  unfold dispatch.
  change (plan_id (count_turn (w_state w))) with (plan_id (w_state w)).
  change (current_node (count_turn (w_state w))) with (current_node (w_state w)).
  split; [|split; [|split]].
  - by intros ->.
  - by intros plan -> ->.
  - intros plan graph nodes -> -> -> Hun. cbn [getitem]. rewrite bind_lift_ret.
    unfold unresolved in Hun.
    destruct (nodes !! current_node (w_state w)) as [node|]; [|done].
    by rewrite Hun.
  - intros plan graph Hplan Hgraph Hnodes. rewrite Hplan, Hgraph, Hnodes. split; [done|].
    intros _ domain allowed_plans pace log extras.
    unfold execute, execute_body. cbn [h_state]. unfold run_on.
    cbn [h_pace h_log h_extras].
    set (w0 := mkWorld (w_state w) true pace log extras).
    assert (turns_since_transition (w_state w0) + 1 ≤ stale_after_turns (w_state w0))
      as Hfresh0 by done.
    rewrite (check_graph_progress_fresh_run _ _ _ Hfresh0).
    unfold dispatch. cbn [w_state w0].
    change (plan_id (count_turn (w_state w))) with (plan_id (w_state w)).
    by rewrite Hplan, Hgraph, Hnodes.
Qed.

Lemma unresolvable_plan_dropped_witness :
  let w := activated "p" Sample.stale_plan Sample.linear_graph in
  _check_graph_progress [] [] w = (Ret tt, dropped w).
Proof.
  cbv zeta.
  destruct (unresolvable_plan_dropped [] []
              (activated "p" Sample.stale_plan Sample.linear_graph)) as [H _].
  - vm_compute. discriminate.
  - by apply H.
Defined.

(** ** Terminal nodes end the plan in the call that reaches them *)

Lemma complete_graph_run w : _complete_graph w = (Ret tt, completed_world w).
Proof.
  unfold _complete_graph, completed_world. rewrite bind_get. rewrite bind_run.
  cbn [emit modify_state]. rewrite bind_run. cbn [log w_state w_attached w_pace w_log w_extras].
  reflexivity.
Qed.

Lemma escalate_graph_run node w : _escalate_graph node w = (Ret tt, escalated_world node w).
Proof.
  unfold _escalate_graph, escalated_world. cbv zeta. rewrite bind_get. rewrite bind_run.
  cbn [emit modify_state]. rewrite bind_run.
  cbn [set_pace w_state w_attached w_pace w_log w_extras].
  rewrite bind_run. cbn [log w_state w_attached w_pace w_log w_extras].
  rewrite bind_run. cbn [set_extras w_state w_attached w_pace w_log w_extras].
  reflexivity.
Qed.

Lemma inject_keeps_state plan w :
  w_state (_inject_graph_context plan w).2 = w_state w.
Proof.
  unfold _inject_graph_context. rewrite bind_get. repeat case_match; reflexivity.
Qed.

Lemma inject_and_attach_run plan w w' :
  (_inject_graph_context plan;; _set_state) w = (Ret tt, w') →
  w_state w' = w_state w ∧ w_attached w' = true.
Proof.
  rewrite bind_run. pose proof (inject_keeps_state plan w) as Hs.
  destruct (_inject_graph_context plan w) as [[[]|e] w1]; [|done].
  intros [= <-]. by split.
Qed.

Lemma finish_turn_terminal plan nodes w w' node :
  finish_turn plan nodes w = (Ret tt, w') →
  nodes !! current_node (w_state w') = Some node →
  (n_type node = Some "exit" → w' = completed_world w)
  ∧ (n_type node = Some "escalate" → w' = escalated_world node w).
Proof.
  unfold finish_turn. rewrite bind_get.
  assert ((_inject_graph_context plan;; _set_state) w = (Ret tt, w') →
          nodes !! current_node (w_state w') = nodes !! current_node (w_state w)) as Hinj.
  { intros H. apply inject_and_attach_run in H as [-> _]. done. }
  destruct (nodes !! current_node (w_state w)) as [final|] eqn:Hfinal.
  - destruct (node_truthy final) eqn:Htruthy.
    + rewrite bind_run. unfold lift. destruct (n_type final) as [t|] eqn:Ht; cbn [getitem]; [|done].
      destruct (String.eqb t "exit") eqn:Hexit.
      { apply String.eqb_eq in Hexit. subst t. rewrite complete_graph_run.
        intros [= <-]. unfold completed_world at 1. cbn [w_state].
        rewrite (proj1 (proj2 (proj2 (emit_event_frame _ _ _)))), Hfinal.
        intros [= <-]. split; [done|]. congruence. }
      destruct (String.eqb t "escalate") eqn:Hesc.
      { apply String.eqb_eq in Hesc. subst t. rewrite escalate_graph_run.
        intros [= <-]. unfold escalated_world at 1. cbn [w_state].
        rewrite (proj1 (proj2 (proj2 (emit_event_frame _ _ _)))), Hfinal.
        intros [= <-]. split; [congruence|done]. }
      intros H. rewrite (Hinj H). intros [= <-].
      apply String.eqb_neq in Hexit, Hesc. split; congruence.
    + intros H. rewrite (Hinj H). intros [= <-].
      destruct final as [[] [] [] [] [] [] [] []]; simpl in *; try done;
        split; congruence.
  - intros H. rewrite (Hinj H). done.
Qed.

(** X11. A terminal node ends the plan in the very call that reaches it.
    When an advance call within the staleness window, not dispatched on a
    start node, returns with the traversal on a node declared [exit], it
    has completed the plan there: [plan_completed] is the last event, the
    completion is the last log entry, the agent attribute is removed and
    nothing was injected.  When it returns on a node declared [escalate],
    it has escalated there: the pace level of the node (default
    ["contingent"]) is set on the agent, the escalation message replaces
    the status, and the attribute is removed. *)
Theorem terminal_node_ends_plan history_output library w plan graph nodes w' node :
  turns_since_transition (w_state w) + 1 ≤ stale_after_turns (w_state w) →
  lookup_plan library (plan_id (w_state w)) = Some plan →
  p_graph plan = Some graph →
  g_nodes graph = Some nodes →
  (∀ entry, nodes !! current_node (w_state w) = Some entry → node_type entry ≠ "start") →
  _check_graph_progress history_output library w = (Ret tt, w') →
  nodes !! current_node (w_state w') = Some node →
  (n_type node = Some "exit" →
   ∃ w2, w' = completed_world w2 ∧ w_extras w2 = w_extras w
         ∧ current_node (w_state w2) = current_node (w_state w'))
  ∧ (n_type node = Some "escalate" →
     ∃ w2, w' = escalated_world node w2
           ∧ current_node (w_state w2) = current_node (w_state w')).
Proof.
  intros Hfresh Hplan Hgraph Hnodes Hstart.
  rewrite (check_graph_progress_fresh_run _ _ _ Hfresh).
  unfold dispatch.
  change (plan_id (count_turn (w_state w))) with (plan_id (w_state w)).
  change (current_node (count_turn (w_state w))) with (current_node (w_state w)).
  rewrite Hplan, Hgraph, Hnodes. cbn [getitem]. rewrite bind_lift_ret.
  assert (∀ w2 : World State,
            current_node (w_state (completed_world w2)) = current_node (w_state w2)) as Hcc.
  { intros w2. unfold completed_world. cbn [w_state].
    apply (proj1 (proj2 (proj2 (emit_event_frame _ _ _)))). }
  assert (∀ n (w2 : World State),
            current_node (w_state (escalated_world n w2)) = current_node (w_state w2)) as Hec.
  { intros n w2. unfold escalated_world. cbn [w_state].
    apply (proj1 (proj2 (proj2 (emit_event_frame _ _ _)))). }
  destruct (nodes !! current_node (w_state w)) as [entry|] eqn:Hentry.
  2: { intros [= <-]. cbn [ticked w_state].
       change (current_node (count_turn (w_state w))) with (current_node (w_state w)).
       by rewrite Hentry. }
  specialize (Hstart entry eq_refl).
  destruct (node_truthy entry) eqn:Htruthy; cbn [negb].
  2: { intros [= <-]. cbn [ticked w_state].
       change (current_node (count_turn (w_state w))) with (current_node (w_state w)).
       rewrite Hentry. intros [= <-].
       destruct entry as [[] [] [] [] [] [] [] []]; simpl in *; try done;
         split; congruence. }
  destruct (String.eqb (node_type entry) "exit") eqn:Hexit.
  { rewrite complete_graph_run. intros [= <-]. rewrite Hcc. cbn [ticked w_state].
    change (current_node (count_turn (w_state w))) with (current_node (w_state w)).
    rewrite Hentry. intros [= <-]. apply String.eqb_eq in Hexit. split.
    - intros _. exists (ticked w). by repeat split.
    - intros Hesc. unfold node_type in Hexit. rewrite Hesc in Hexit. done. }
  destruct (String.eqb (node_type entry) "escalate") eqn:Hesc.
  { rewrite escalate_graph_run. intros [= <-]. rewrite Hec. cbn [ticked w_state].
    change (current_node (count_turn (w_state w))) with (current_node (w_state w)).
    rewrite Hentry. intros [= <-]. apply String.eqb_eq in Hesc. split.
    - intros Hex. unfold node_type in Hesc. rewrite Hex in Hesc. done.
    - intros _. exists (ticked w). by repeat split. }
  rewrite (proj2 (String.eqb_neq _ _) Hstart).
  rewrite bind_run.
  match goal with |- context [ match ?m (ticked w) with _ => _ end ] =>
    assert (w_extras (m (ticked w)).2 = w_extras w) as Hextras;
    [|destruct (m (ticked w)) as [[[]|e] w2]; [|done]] end.
  { destruct (String.eqb (node_type entry) "task").
    - destruct (_get_last_tool_output history_output); [|done].
      by rewrite keeps_extras_task_step.
    - destruct (String.eqb (node_type entry) "decision"); [|done].
      unfold _auto_route. by rewrite keeps_extras_auto_route_from. }
  cbn [snd] in Hextras.
  intros Hfin Hnode.
  destruct (finish_turn_terminal plan nodes w2 w' node Hfin Hnode) as [Hex Hes].
  split.
  - intros Ht. exists w2. split; [by apply Hex|]. split; [done|].
    rewrite (Hex Ht). by rewrite Hcc.
  - intros Ht. exists w2. split; [by apply Hes|]. rewrite (Hes Ht). by rewrite Hec.
Qed.

Lemma terminal_node_ends_plan_witness :
  let library := [("p", Sample.stale_plan)] in
  let w := activated "p" Sample.stale_plan Sample.linear_graph in
  ∃ w2, (_check_graph_progress [Sample.tool_result "all done"] library w).2
        = completed_world w2
        ∧ w_extras w2 = w_extras w
        ∧ current_node (w_state w2) = "x".
Proof.
  cbv zeta.
  destruct (terminal_node_ends_plan [Sample.tool_result "all done"]
              [("p", Sample.stale_plan)]
              (activated "p" Sample.stale_plan Sample.linear_graph)
              Sample.stale_plan Sample.linear_graph
              {[ "s" := Sample.of_type "start"; "A" := Sample.task "done" 1;
                 "x" := Sample.of_type "exit" ]}
              (_check_graph_progress [Sample.tool_result "all done"]
                 [("p", Sample.stale_plan)]
                 (activated "p" Sample.stale_plan Sample.linear_graph)).2
              (Sample.of_type "exit")) as [H _].
  - vm_compute. discriminate.
  - vm_compute. reflexivity.
  - reflexivity.
  - reflexivity.
  - intros entry. vm_compute. intros [= <-]. discriminate.
  - vm_compute. reflexivity.
  - vm_compute. reflexivity.
  - destruct (H eq_refl) as (w2 & Hw & Hx & Hc). exists w2.
    split; [done|]. split; [done|]. rewrite Hc. vm_compute. reflexivity.
Defined.

(** ** Success and exhausted retries *)

Lemma attempts_after_verification node_id o s :
  attempts (visit_entry
              (_emit_event "node_verified" {[ "node" := node_id; "outcome" := o ]}
                 (count_attempt node_id s)) node_id)
  = attempts (visit_entry s node_id) + 1.
Proof.
  unfold visit_entry.
  rewrite (proj1 (proj2 (proj2 (proj2 (emit_event_frame _ _ _))))).
  unfold count_attempt. cbn [visited set_visited]. by rewrite lookup_insert_eq.
Qed.

Lemma task_step_exhaust_run plan graph node_id node last_output w :
  _verify_node node last_output = false →
  default 0 (n_max_retries node) < attempts (visit_entry (w_state w) node_id) + 1 →
  task_step plan graph node_id node last_output w =
  route_or_stall plan graph node_id "on_exhaust" "on_fail" "always"
                 (MsgStallExhaust node_id)
    (mkWorld (exhaust_state node_id (w_state w)) (w_attached w) (w_pace w) (w_log w)
             (w_extras w)).
Proof.
  intros Hfail Hbudget. unfold task_step. rewrite Hfail.
  rewrite bind_run. cbn [modify_state]. rewrite bind_run. cbn [emit modify_state].
  cbn [w_state w_attached w_pace w_log w_extras].
  rewrite bind_run. cbn [get_state w_state].
  rewrite attempts_after_verification.
  rewrite (proj2 (Z.leb_gt _ _) Hbudget).
  rewrite bind_run. cbn [modify_state w_state w_attached w_pace w_log w_extras].
  rewrite bind_run. cbn [modify_state w_state w_attached w_pace w_log w_extras].
  reflexivity.
Qed.

Lemma task_step_success_run plan graph node_id node last_output w :
  _verify_node node last_output = true →
  task_step plan graph node_id node last_output w =
  route_or_stall plan graph node_id "on_success" "always" ""
                 (MsgStallSuccess node_id)
    (mkWorld (success_state node_id (w_state w)) (w_attached w) (w_pace w) (w_log w)
             (w_extras w)).
Proof.
  intros Hok. unfold task_step. rewrite Hok.
  rewrite bind_run. cbn [modify_state]. rewrite bind_run. cbn [emit modify_state].
  cbn [w_state w_attached w_pace w_log w_extras].
  rewrite bind_run. cbn [modify_state w_state w_attached w_pace w_log w_extras].
  rewrite bind_run. cbn [modify_state w_state w_attached w_pace w_log w_extras].
  reflexivity.
Qed.

Lemma exhaust_state_frame node_id s :
  current_node (exhaust_state node_id s) = current_node s
  ∧ path (exhaust_state node_id s) = path s
  ∧ visited (exhaust_state node_id s) !! node_id
    = Some (mkVisit "fail" (attempts (visit_entry s node_id) + 1))
  ∧ node_id ∈ steps_failed (exhaust_state node_id s)
  ∧ steps_completed (exhaust_state node_id s) = steps_completed s
  ∧ completed_nodes (exhaust_state node_id s) = completed_nodes s.
Proof.
  unfold exhaust_state.
  set (s1 := _emit_event _ _ _).
  assert (current_node s1 = current_node s ∧ path s1 = path s
          ∧ steps_completed s1 = steps_completed s
          ∧ completed_nodes s1 = completed_nodes s) as (Hc & Hp & Hs & Hn).
  { unfold s1.
    by destruct (emit_event_frame "node_verified"
                   {[ "node" := node_id; "outcome" := "fail" ]}
                   (count_attempt node_id s)) as (_&_&->&_&->&_&_&->&->). }
  pose proof (attempts_after_verification node_id "fail" s) as Hatt. fold s1 in Hatt.
  unfold record_failure.
  case_bool_decide as Hin; cbn; rewrite ?Hc, ?Hp, ?Hs, ?Hn, ?lookup_insert_eq, ?Hatt;
    repeat split; try done.
  apply elem_of_app. right. apply list_elem_of_here.
Qed.

Lemma success_state_frame node_id s :
  current_node (success_state node_id s) = current_node s
  ∧ path (success_state node_id s) = path s
  ∧ visited (success_state node_id s) !! node_id
    = Some (mkVisit "success" (attempts (visit_entry s node_id) + 1))
  ∧ node_id ∈ steps_completed (success_state node_id s)
  ∧ steps_failed (success_state node_id s) = steps_failed s.
Proof.
  unfold success_state.
  set (s1 := _emit_event _ _ _).
  assert (current_node s1 = current_node s ∧ path s1 = path s
          ∧ steps_failed s1 = steps_failed s) as (Hc & Hp & Hf).
  { unfold s1.
    destruct (emit_event_frame "node_verified"
                {[ "node" := node_id; "outcome" := "success" ]}
                (count_attempt node_id s)) as (_&_&->&_&->&_).
    by destruct (emit_event_rest "node_verified"
                   {[ "node" := node_id; "outcome" := "success" ]}
                   (count_attempt node_id s)) as (_&_&_&_&->&_). }
  pose proof (attempts_after_verification node_id "success" s) as Hatt. fold s1 in Hatt.
  unfold record_success.
  case_bool_decide as Hin; cbn; rewrite ?Hc, ?Hp, ?Hf, ?lookup_insert_eq, ?Hatt;
    repeat split; try done.
  apply elem_of_app. right. apply list_elem_of_here.
Qed.

(** The traversal after a branch has looked its edge up. *)
Lemma route_or_stall_run plan graph node_id condition fallback fallback2 stall w :
  let s := w_state w in
  let run := route_or_stall plan graph node_id condition fallback fallback2 stall w in
  match _follow_edge graph node_id condition fallback fallback2 with
  | Ret (Some t) =>
      if Text.truthy t then
        path s ++ [t] `prefix_of` path (w_state run.2)
        ∧ w_log run.2 = w_log w
      else run = (Ret tt, mkWorld s (w_attached w) (w_pace w)
                                  (w_log w ++ [mkLog "warning" stall]) (w_extras w))
  | Ret None =>
      run = (Ret tt, mkWorld s (w_attached w) (w_pace w)
                             (w_log w ++ [mkLog "warning" stall]) (w_extras w))
  | Raise e => run = (Raise e, w)
  end.
Proof.
  cbv zeta. unfold route_or_stall. rewrite bind_run. unfold lift.
  destruct (_follow_edge graph node_id condition fallback fallback2) as [[t|]|e];
    cbn [target_truthy]; [|done|done].
  destruct (Text.truthy t); [|done].
  rewrite bind_run. cbn [modify_state].
  set (wM := mkWorld (_move_to_node node_id t condition (w_state w)) _ _ _ _).
  assert (path (w_state wM) = path (w_state w) ++ [t]) as <-
    by (unfold wM; cbn [w_state]; by rewrite move_to_node_path).
  split.
  - apply (preserves_auto_route_closed _ path_grows_closed plan 0 wM).
  - assert (∀ n w0, w_log (auto_route_from n plan w0).2 = w_log w0) as Hlog.
    { induction n as [|n IH]; intros w0; [done|].
      cbn [auto_route_from]. unfold auto_route_body.
      repeat first
        [ rewrite bind_run | progress cbn [lift get_state modify_state mret M_ret snd w_log]
        | match goal with
          | |- context [ match ?x with _ => _ end ] => destruct x eqn:?
          end
        | rewrite IH | reflexivity ]. }
    unfold _auto_route. by rewrite Hlog.
Qed.

#[local] Instance keeps_records_preorder : PreOrder keeps_records.
Proof.
  split.
  - intros s. by repeat split.
  - intros s1 s2 s3 (?&?&?) (?&?&?). repeat split; congruence.
Qed.

Lemma keeps_records_closed : step_closed_for keeps_records "" False.
Proof.
  split; try done.
  - intros ty fields s.
    destruct (emit_event_frame ty fields s) as (_&_&_&_&_&_&_&?&?).
    destruct (emit_event_rest ty fields s) as (_&_&_&_&?&_). by repeat split.
  - intros f t c s.
    destruct (move_to_node_completion f t c s) as (_&_&?&?).
    destruct (move_to_node_rest f t c s) as (_&_&_&_&?&_). by repeat split.
Qed.

Lemma inject_keeps_log plan w :
  w_log (_inject_graph_context plan w).2 = w_log w.
Proof.
  unfold _inject_graph_context. rewrite bind_get. repeat case_match; reflexivity.
Qed.

Lemma finish_turn_on_task plan nodes node w :
  nodes !! current_node (w_state w) = Some node →
  node_type node = "task" →
  w_state (finish_turn plan nodes w).2 = w_state w
  ∧ w_log (finish_turn plan nodes w).2 = w_log w.
Proof.
  intros Hnode Htype.
  assert (w_state ((_inject_graph_context plan ≫= λ _, _set_state) w).2 = w_state w
          ∧ w_log ((_inject_graph_context plan ≫= λ _, _set_state) w).2 = w_log w) as Hinj.
  { rewrite bind_run.
    pose proof (inject_keeps_state plan w) as Hs.
    pose proof (inject_keeps_log plan w) as Hl.
    by destruct (_inject_graph_context plan w) as [[[]|e] w1]. }
  unfold finish_turn. rewrite bind_get, Hnode.
  destruct (node_truthy node); [|exact Hinj].
  rewrite bind_run. unfold lift, node_type in *.
  destruct (n_type node) as [t|]; simpl in Htype; cbn [getitem]; [|done].
  subst t. exact Hinj.
Qed.

Lemma check_graph_progress_task_run history_output library w plan graph nodes node
    last_output :
  turns_since_transition (w_state w) + 1 ≤ stale_after_turns (w_state w) →
  lookup_plan library (plan_id (w_state w)) = Some plan →
  p_graph plan = Some graph →
  g_nodes graph = Some nodes →
  nodes !! current_node (w_state w) = Some node →
  node_truthy node = true →
  node_type node = "task" →
  _get_last_tool_output history_output = Some last_output →
  _check_graph_progress history_output library w =
  (task_step plan graph (current_node (w_state w)) node last_output
   ≫= λ _, finish_turn plan nodes) (ticked w).
Proof.
  intros Hfresh Hplan Hgraph Hnodes Hnode Htruthy Htype Hout.
  rewrite check_graph_progress_run. cbv zeta.
  replace (stale_after_turns _ <? turns_since_transition _) with false
    by (symmetry; apply Z.ltb_ge; simpl; lia).
  change (modify_state count_turn w).2 with (ticked w).
  by rewrite (traverse_task_run _ _ _ plan graph nodes node last_output).
Qed.

(** A branch of the task step from its bookkeeping state to the end of
    the call. *)
Lemma route_or_stall_then_finish plan graph nodes node node_id condition fallback
    fallback2 stall w1 :
  nodes !! node_id = Some node →
  node_type node = "task" →
  current_node (w_state w1) = node_id →
  let run := (route_or_stall plan graph node_id condition fallback fallback2 stall
              ≫= λ _, finish_turn plan nodes) w1 in
  keeps_records (w_state w1) (w_state run.2)
  ∧ match _follow_edge graph node_id condition fallback fallback2 with
    | Ret (Some t) =>
        if Text.truthy t then path (w_state w1) ++ [t] `prefix_of` path (w_state run.2)
        else stalled_at (w_state w1) stall w1 run.2
    | Ret None => stalled_at (w_state w1) stall w1 run.2
    | Raise e => run = (Raise e, w1)
    end.
Proof.
  intros Hnode Htype Hcur. cbv zeta. split.
  - match goal with |- keeps_records _ (w_state (?m w1).2) =>
      assert (preserves keeps_records m) as Hpres; [|exact (Hpres w1)] end.
    apply (preserves_bind keeps_records).
    2: { intros ?. apply (preserves_finish_turn keeps_records).
         apply (scf_emit _ _ _ keeps_records_closed). }
    unfold route_or_stall.
    apply (preserves_bind keeps_records); [apply (preserves_lift keeps_records)|].
    intros target.
    destruct (target_truthy target); [|apply (preserves_log keeps_records)].
    apply (preserves_bind keeps_records).
    + apply (preserves_modify keeps_records), (scf_move _ _ _ keeps_records_closed).
    + intros ?. apply (preserves_auto_route keeps_records _ _ keeps_records_closed).
  - rewrite bind_run.
    pose proof (route_or_stall_run plan graph node_id condition fallback fallback2
                  stall w1) as Hrun. cbv zeta in Hrun.
    assert (∀ r, r = (Ret tt, mkWorld (w_state w1) (w_attached w1) (w_pace w1)
                                 (w_log w1 ++ [mkLog "warning" stall]) (w_extras w1)) →
                 stalled_at (w_state w1) stall w1
                   (match r with
                    | (Ret a, w') => finish_turn plan nodes w'
                    | (Raise e, w') => (Raise e, w')
                    end).2) as Hstall.
    { intros r ->.
      set (w2 := mkWorld _ _ _ _ _).
      destruct (finish_turn_on_task plan nodes node w2) as [Hs Hl];
        [by rewrite <- Hcur in Hnode|done|].
      split; [exact Hs | exact Hl]. }
    destruct (_follow_edge graph node_id condition fallback fallback2) as [[t|]|e].
    + destruct (Text.truthy t); [|by apply Hstall].
      destruct Hrun as [Hpath _].
      destruct (route_or_stall _ _ _ _ _ _ _ w1) as [[[]|e] w2]; cbn [snd] in *; [|done].
      etrans; [exact Hpath|].
      apply (preserves_finish_turn _ (sc_emit _ path_grows_closed) plan nodes w2).
    + by apply Hstall.
    + by rewrite Hrun.
Qed.

(** X12. A task node that fails verification after its retries are used up
    ([attempts] now above [max_retries]) is marked failed and listed in
    [steps_failed], once; the completion records are not touched.  The
    traversal then follows the first [on_exhaust] edge leaving the node,
    else the first [on_fail] edge, else the first [always] edge; when the
    node has none of them a warning is logged and the traversal stays on
    the node with the failed attempt recorded. *)
Theorem retries_exhausted history_output library w plan graph nodes node last_output :
  turns_since_transition (w_state w) + 1 ≤ stale_after_turns (w_state w) →
  lookup_plan library (plan_id (w_state w)) = Some plan →
  p_graph plan = Some graph →
  g_nodes graph = Some nodes →
  nodes !! current_node (w_state w) = Some node →
  node_truthy node = true →
  node_type node = "task" →
  _get_last_tool_output history_output = Some last_output →
  _verify_node node last_output = false →
  default 0 (n_max_retries node)
    < attempts (visit_entry (w_state w) (current_node (w_state w))) + 1 →
  let s := w_state w in
  let node_id := current_node s in
  let run := _check_graph_progress history_output library w in
  let s' := w_state run.2 in
  node_id ∈ steps_failed s'
  ∧ steps_failed s' =
    (if bool_decide (node_id ∈ steps_failed s) then steps_failed s
     else steps_failed s ++ [node_id])
  ∧ steps_completed s' = steps_completed s
  ∧ completed_nodes s' = completed_nodes s
  ∧ match _follow_edge graph node_id "on_exhaust" "on_fail" "always" with
    | Ret (Some t) =>
        if Text.truthy t then path s ++ [t] `prefix_of` path s'
        else stalled_at (exhaust_state node_id (count_turn s))
                        (MsgStallExhaust node_id) w run.2
    | Ret None =>
        stalled_at (exhaust_state node_id (count_turn s)) (MsgStallExhaust node_id) w run.2
        ∧ current_node s' = node_id
        ∧ path s' = path s
        ∧ visited s' !! node_id
          = Some (mkVisit "fail" (attempts (visit_entry s node_id) + 1))
    | Raise e => run.1 = Raise e
    end.
Proof.
  intros Hfresh Hplan Hgraph Hnodes Hnode Htruthy Htype Hout Hfail Hbudget. cbv zeta.
  rewrite (check_graph_progress_task_run _ _ _ plan graph nodes node last_output);
    [|done..].
  rewrite bind_run.
  rewrite task_step_exhaust_run; [|done..].
  rewrite <- (bind_run (route_or_stall _ _ _ _ _ _ _) (λ _, finish_turn plan nodes)).
  cbn [ticked w_state w_attached w_pace w_log w_extras].
  change (current_node (count_turn (w_state w))) with (current_node (w_state w)).
  set (node_id := current_node (w_state w)).
  set (s1 := exhaust_state node_id (count_turn (w_state w))).
  set (w1 := mkWorld s1 _ _ _ _).
  destruct (exhaust_state_frame node_id (count_turn (w_state w)))
    as (Hc1 & Hp1 & Hv1 & Hin1 & Hs1 & Hn1).
  fold s1 in Hc1, Hp1, Hv1, Hin1, Hs1, Hn1.
  assert (steps_failed s1 =
          (if bool_decide (node_id ∈ steps_failed (w_state w)) then steps_failed (w_state w)
           else steps_failed (w_state w) ++ [node_id])) as Hsf1.
  { unfold s1, exhaust_state, record_failure.
    set (s0 := set_outcome node_id "fail" _).
    assert (steps_failed s0 = steps_failed (w_state w)) as Hsf.
    { unfold s0. cbn [set_outcome set_visited steps_failed].
      by destruct (emit_event_rest "node_verified"
                     {[ "node" := node_id; "outcome" := "fail" ]}
                     (count_attempt node_id (count_turn (w_state w)))) as (_&_&_&_&->&_). }
    rewrite Hsf. by case_bool_decide. }
  clearbody s1.
  destruct (route_or_stall_then_finish plan graph nodes node node_id
              "on_exhaust" "on_fail" "always" (MsgStallExhaust node_id) w1)
    as [(Hrs & Hrn & Hrf) Hroute]; [done..|].
  split; [rewrite Hrf; exact Hin1|]. split; [rewrite Hrf; exact Hsf1|].
  split; [rewrite Hrs; exact Hs1|]. split; [rewrite Hrn; exact Hn1|].
  assert (path (w_state w) = path (w_state w1)) as Hpw by exact (eq_sym Hp1).
  assert (∀ w', stalled_at (w_state w1) (MsgStallExhaust node_id) w1 w' →
                stalled_at s1 (MsgStallExhaust node_id) w w') as Hstall.
  { intros w' [Hst Hlog]. split; [rewrite Hst; reflexivity | rewrite Hlog; reflexivity]. }
  destruct (_follow_edge graph node_id "on_exhaust" "on_fail" "always") as [[t|]|e].
  - destruct (Text.truthy t); [|by apply Hstall]. rewrite Hpw. exact Hroute.
  - split; [by apply Hstall|]. destruct Hroute as [Hst _]. rewrite Hst.
    split; [exact Hc1|]. split; [exact Hp1|]. exact Hv1.
  - rewrite Hroute. reflexivity.
Qed.

Lemma retries_exhausted_witness :
  let library := [("p", Sample.cycle_plan)] in
  let w := Sample.turn library "bad" (activated "p" Sample.cycle_plan Sample.cycle_graph) in
  "B" ∈ steps_failed (w_state (_check_graph_progress [Sample.tool_result "bad"] library w).2).
Proof.
  cbv zeta.
  destruct (retries_exhausted [Sample.tool_result "bad"] [("p", Sample.cycle_plan)]
              (Sample.turn [("p", Sample.cycle_plan)] "bad"
                 (activated "p" Sample.cycle_plan Sample.cycle_graph))
              Sample.cycle_plan Sample.cycle_graph
              {[ "s" := Sample.of_type "start"; "A" := Sample.task "ok" 1;
                 "B" := Sample.task "fixed" 0 ]}
              (Sample.task "fixed" 0) "bad") as [H _].
  - vm_compute. discriminate.
  - vm_compute. reflexivity.
  - reflexivity.
  - reflexivity.
  - vm_compute. reflexivity.
  - reflexivity.
  - reflexivity.
  - vm_compute. reflexivity.
  - vm_compute. reflexivity.
  - vm_compute. reflexivity.
  - exact H.
Defined.

(** X13. A task node whose output passes verification is marked
    successful and listed in [steps_completed], the counter moving only if
    it was not listed yet; [steps_failed] is not touched.  The traversal
    then follows the first [on_success] edge leaving the node, else the
    first [always] edge; when the node has neither a warning is logged and
    the traversal stays on the node with the successful attempt
    recorded. *)
Theorem verified_task_advances history_output library w plan graph nodes node
    last_output :
  turns_since_transition (w_state w) + 1 ≤ stale_after_turns (w_state w) →
  lookup_plan library (plan_id (w_state w)) = Some plan →
  p_graph plan = Some graph →
  g_nodes graph = Some nodes →
  nodes !! current_node (w_state w) = Some node →
  node_truthy node = true →
  node_type node = "task" →
  _get_last_tool_output history_output = Some last_output →
  _verify_node node last_output = true →
  let s := w_state w in
  let node_id := current_node s in
  let run := _check_graph_progress history_output library w in
  let s' := w_state run.2 in
  node_id ∈ steps_completed s'
  ∧ steps_completed s' =
    (if bool_decide (node_id ∈ steps_completed s) then steps_completed s
     else steps_completed s ++ [node_id])
  ∧ completed_nodes s' =
    (if bool_decide (node_id ∈ steps_completed s) then completed_nodes s
     else completed_nodes s + 1)
  ∧ steps_failed s' = steps_failed s
  ∧ match _follow_edge graph node_id "on_success" "always" "" with
    | Ret (Some t) =>
        if Text.truthy t then path s ++ [t] `prefix_of` path s'
        else stalled_at (success_state node_id (count_turn s))
                        (MsgStallSuccess node_id) w run.2
    | Ret None =>
        stalled_at (success_state node_id (count_turn s)) (MsgStallSuccess node_id) w run.2
        ∧ current_node s' = node_id
        ∧ path s' = path s
        ∧ visited s' !! node_id
          = Some (mkVisit "success" (attempts (visit_entry s node_id) + 1))
    | Raise e => run.1 = Raise e
    end.
Proof.
  intros Hfresh Hplan Hgraph Hnodes Hnode Htruthy Htype Hout Hok. cbv zeta.
  rewrite (check_graph_progress_task_run _ _ _ plan graph nodes node last_output);
    [|done..].
  rewrite bind_run.
  rewrite task_step_success_run; [|done].
  rewrite <- (bind_run (route_or_stall _ _ _ _ _ _ _) (λ _, finish_turn plan nodes)).
  cbn [ticked w_state w_attached w_pace w_log w_extras].
  change (current_node (count_turn (w_state w))) with (current_node (w_state w)).
  set (node_id := current_node (w_state w)).
  set (s1 := success_state node_id (count_turn (w_state w))).
  set (w1 := mkWorld s1 _ _ _ _).
  destruct (success_state_frame node_id (count_turn (w_state w)))
    as (Hc1 & Hp1 & Hv1 & Hin1 & Hf1).
  fold s1 in Hc1, Hp1, Hv1, Hin1, Hf1.
  assert (steps_completed s1 =
          (if bool_decide (node_id ∈ steps_completed (w_state w))
           then steps_completed (w_state w)
           else steps_completed (w_state w) ++ [node_id])
          ∧ completed_nodes s1 =
            (if bool_decide (node_id ∈ steps_completed (w_state w))
             then completed_nodes (w_state w)
             else completed_nodes (w_state w) + 1)) as [Hsc1 Hcn1].
  { unfold s1, success_state, record_success.
    set (s0 := set_outcome node_id "success" _).
    assert (steps_completed s0 = steps_completed (w_state w)
            ∧ completed_nodes s0 = completed_nodes (w_state w)) as [Hsc Hcn].
    { unfold s0. cbn [set_outcome set_visited steps_completed completed_nodes].
      by destruct (emit_event_frame "node_verified"
                     {[ "node" := node_id; "outcome" := "success" ]}
                     (count_attempt node_id (count_turn (w_state w))))
        as (_&_&_&_&_&_&_&->&->). }
    clearbody s0. rewrite Hsc. case_bool_decide; cbn; by rewrite ?Hsc, ?Hcn. }
  clearbody s1.
  destruct (route_or_stall_then_finish plan graph nodes node node_id
              "on_success" "always" "" (MsgStallSuccess node_id) w1)
    as [(Hrs & Hrn & Hrf) Hroute]; [done..|].
  split; [rewrite Hrs; exact Hin1|]. split; [rewrite Hrs; exact Hsc1|].
  split; [rewrite Hrn; exact Hcn1|]. split; [rewrite Hrf; exact Hf1|].
  assert (path (w_state w) = path (w_state w1)) as Hpw by exact (eq_sym Hp1).
  assert (∀ w', stalled_at (w_state w1) (MsgStallSuccess node_id) w1 w' →
                stalled_at s1 (MsgStallSuccess node_id) w w') as Hstall.
  { intros w' [Hst Hlog]. split; [rewrite Hst; reflexivity | rewrite Hlog; reflexivity]. }
  destruct (_follow_edge graph node_id "on_success" "always" "") as [[t|]|e].
  - destruct (Text.truthy t); [|by apply Hstall]. rewrite Hpw. exact Hroute.
  - split; [by apply Hstall|]. destruct Hroute as [Hst _]. rewrite Hst.
    split; [exact Hc1|]. split; [exact Hp1|]. exact Hv1.
  - rewrite Hroute. reflexivity.
Qed.

Lemma verified_task_advances_witness :
  let library := [("p", Sample.cycle_plan)] in
  let w := activated "p" Sample.cycle_plan Sample.cycle_graph in
  "A" ∈ steps_completed
          (w_state (_check_graph_progress [Sample.tool_result "ok"] library w).2).
Proof.
  cbv zeta.
  destruct (verified_task_advances [Sample.tool_result "ok"] [("p", Sample.cycle_plan)]
              (activated "p" Sample.cycle_plan Sample.cycle_graph)
              Sample.cycle_plan Sample.cycle_graph
              {[ "s" := Sample.of_type "start"; "A" := Sample.task "ok" 1;
                 "B" := Sample.task "fixed" 0 ]}
              (Sample.task "ok" 1) "ok") as [H _].
  - vm_compute. discriminate.
  - vm_compute. reflexivity.
  - reflexivity.
  - reflexivity.
  - vm_compute. reflexivity.
  - reflexivity.
  - reflexivity.
  - vm_compute. reflexivity.
  - vm_compute. reflexivity.
  - exact H.
Defined.

(** ** The retry budget over several turns *)

Lemma retry_state_rest node_id s :
  plan_id (retry_state node_id s) = plan_id s
  ∧ stale_after_turns (retry_state node_id s) = stale_after_turns s
  ∧ steps_failed (retry_state node_id s) = steps_failed s
  ∧ steps_completed (retry_state node_id s) = steps_completed s.
Proof.
  unfold retry_state.
  repeat match goal with
  | |- context [ _emit_event ?ty ?f ?x ] =>
      destruct (emit_event_frame ty f x) as (->&->&_&_&_&_&_&_&->);
      destruct (emit_event_rest ty f x) as (_&_&_&_&->&_)
  end.
  done.
Qed.

(** A failed attempt within budget on a node without retry edge leaves
    exactly the retry bookkeeping behind. *)
Lemma retry_in_place_state history_output library w plan graph nodes node last_output :
  turns_since_transition (w_state w) + 1 ≤ stale_after_turns (w_state w) →
  lookup_plan library (plan_id (w_state w)) = Some plan →
  p_graph plan = Some graph →
  g_nodes graph = Some nodes →
  nodes !! current_node (w_state w) = Some node →
  node_truthy node = true →
  node_type node = "task" →
  _get_last_tool_output history_output = Some last_output →
  _verify_node node last_output = false →
  attempts (visit_entry (w_state w) (current_node (w_state w))) + 1
    ≤ default 0 (n_max_retries node) →
  retry_edge graph (current_node (w_state w)) = None →
  w_state (_check_graph_progress history_output library w).2 =
  retry_state (current_node (w_state w)) (count_turn (w_state w)).
Proof.
  intros Hfresh Hplan Hgraph Hnodes Hnode Htruthy Htype Hout Hfail Hbudget Hedge.
  rewrite (check_graph_progress_retry_run _ _ _ plan graph nodes node last_output);
    [|done..].
  rewrite Hedge, bind_run, ret_run.
  set (s2 := retry_state _ _). set (w2 := mkWorld s2 _ _ _ _).
  destruct (finish_turn_on_task plan nodes node w2) as [Hs _]; [|done|exact Hs].
  unfold w2, s2. cbn [w_state].
  destruct (retry_state_frame (current_node (w_state w)) (count_turn (w_state w)))
    as (-> & _). exact Hnode.
Qed.

(** A failed attempt beyond the budget lists the node as failed. *)
Lemma exhaust_lists_failed history_output library w plan graph nodes node last_output :
  turns_since_transition (w_state w) + 1 ≤ stale_after_turns (w_state w) →
  lookup_plan library (plan_id (w_state w)) = Some plan →
  p_graph plan = Some graph →
  g_nodes graph = Some nodes →
  nodes !! current_node (w_state w) = Some node →
  node_truthy node = true →
  node_type node = "task" →
  _get_last_tool_output history_output = Some last_output →
  _verify_node node last_output = false →
  default 0 (n_max_retries node)
    < attempts (visit_entry (w_state w) (current_node (w_state w))) + 1 →
  current_node (w_state w)
  ∈ steps_failed (w_state (_check_graph_progress history_output library w).2).
Proof.
  intros Hfresh Hplan Hgraph Hnodes Hnode Htruthy Htype Hout Hfail Hbudget.
  rewrite (check_graph_progress_task_run _ _ _ plan graph nodes node last_output);
    [|done..].
  rewrite bind_run.
  rewrite task_step_exhaust_run; [|done..].
  rewrite <- (bind_run (route_or_stall _ _ _ _ _ _ _) (λ _, finish_turn plan nodes)).
  cbn [ticked w_state w_attached w_pace w_log w_extras].
  change (current_node (count_turn (w_state w))) with (current_node (w_state w)).
  set (node_id := current_node (w_state w)).
  set (s1 := exhaust_state node_id (count_turn (w_state w))).
  set (w1 := mkWorld s1 _ _ _ _).
  destruct (exhaust_state_frame node_id (count_turn (w_state w)))
    as (Hc1 & _ & _ & Hin1 & _).
  fold s1 in Hc1, Hin1. clearbody s1.
  destruct (route_or_stall_then_finish plan graph nodes node node_id
              "on_exhaust" "on_fail" "always" (MsgStallExhaust node_id) w1)
    as [(_ & _ & Hrf) _]; [done..|].
  rewrite Hrf. exact Hin1.
Qed.

(** X14. The retry budget spans turns.  On a task node with no edge for a
    failed attempt (no [on_retry] and no [always] edge), failing turns
    within the budget and within the staleness window are retried in
    place: each counts one attempt and one turn without transition, and
    leaves the node, the path and the failure list as they are.  Once the
    attempts have reached [max_retries], the next failing turn lists the
    node as failed: a node entered fresh is verified [max_retries + 1]
    times before it is given up. *)
Theorem retry_budget library plan graph nodes node turns w :
  lookup_plan library (plan_id (w_state w)) = Some plan →
  p_graph plan = Some graph →
  g_nodes graph = Some nodes →
  nodes !! current_node (w_state w) = Some node →
  node_truthy node = true →
  node_type node = "task" →
  retry_edge graph (current_node (w_state w)) = None →
  all_fail node turns →
  attempts (visit_entry (w_state w) (current_node (w_state w))) + Z.of_nat (length turns)
    ≤ default 0 (n_max_retries node) →
  turns_since_transition (w_state w) + Z.of_nat (length turns)
    ≤ stale_after_turns (w_state w) →
  let s := w_state w in
  let node_id := current_node s in
  let w' := advance_calls library turns w in
  let s' := w_state w' in
  current_node s' = node_id
  ∧ path s' = path s
  ∧ attempts (visit_entry s' node_id)
    = attempts (visit_entry s node_id) + Z.of_nat (length turns)
  ∧ turns_since_transition s' = turns_since_transition s + Z.of_nat (length turns)
  ∧ steps_failed s' = steps_failed s
  ∧ steps_completed s' = steps_completed s
  ∧ (∀ history_output,
       all_fail node [history_output] →
       attempts (visit_entry s' node_id) = default 0 (n_max_retries node) →
       turns_since_transition s' + 1 ≤ stale_after_turns s →
       node_id ∈ steps_failed
                   (w_state (_check_graph_progress history_output library w').2)).
Proof.
  revert w. induction turns as [|history_output turns IH];
    intros w Hplan Hgraph Hnodes Hnode Htruthy Htype Hedge Hall Hbudget Hstale; cbv zeta.
  - cbn [advance_calls length Z.of_nat]. rewrite !Z.add_0_r.
    repeat (split; [done|]).
    intros history_output Hfail Hused Hfresh.
    apply Forall_inv in Hfail as (last_output & Hout & Hfail).
    apply (exhaust_lists_failed _ _ _ plan graph nodes node last_output); [done..|].
    rewrite Hused. lia.
  - apply Forall_cons in Hall as [(last_output & Hout & Hfail) Hall].
    cbn [advance_calls]. cbn [length] in *.
    set (w1 := (_check_graph_progress history_output library w).2).
    assert (w_state w1 = retry_state (current_node (w_state w)) (count_turn (w_state w)))
      as Hs1.
    { apply (retry_in_place_state _ _ _ plan graph nodes node last_output);
        [lia|done..|lia|done]. }
    clearbody w1.
    destruct (retry_state_frame (current_node (w_state w)) (count_turn (w_state w)))
      as (Hc & Hp & Ht).
    destruct (retry_state_rest (current_node (w_state w)) (count_turn (w_state w)))
      as (Hid & Hst & Hsf & Hsc).
    pose proof (retry_state_attempts (current_node (w_state w)) (count_turn (w_state w)))
      as Hat.
    rewrite <- Hs1 in Hc, Hp, Ht, Hid, Hst, Hsf, Hsc, Hat.
    change (current_node (count_turn (w_state w))) with (current_node (w_state w)) in Hc.
    change (path (count_turn (w_state w))) with (path (w_state w)) in Hp.
    change (turns_since_transition (count_turn (w_state w)))
      with (turns_since_transition (w_state w) + 1) in Ht.
    change (plan_id (count_turn (w_state w))) with (plan_id (w_state w)) in Hid.
    change (stale_after_turns (count_turn (w_state w)))
      with (stale_after_turns (w_state w)) in Hst.
    change (steps_failed (count_turn (w_state w))) with (steps_failed (w_state w)) in Hsf.
    change (steps_completed (count_turn (w_state w)))
      with (steps_completed (w_state w)) in Hsc.
    change (visit_entry (count_turn (w_state w)) (current_node (w_state w)))
      with (visit_entry (w_state w) (current_node (w_state w))) in Hat.
    specialize (IH w1). cbv zeta in IH. rewrite Hc, Hp, Ht, Hid, Hst, Hsf, Hsc, Hat in IH.
    destruct IH as (IH1 & IH2 & IH3 & IH4 & IH5 & IH6 & IH7); [done..|lia|lia|].
    split; [done|]. split; [done|]. split; [lia|]. split; [lia|].
    split; [done|]. split; [done|]. exact IH7.
Qed.

Lemma retry_budget_witness :
  let library := [("p", patient_plan)] in
  let w := activated "p" patient_plan patient_graph in
  let w' := advance_calls library [[Sample.tool_result "no"]; [Sample.tool_result "nope"]] w in
  current_node (w_state w') = "A"
  ∧ attempts (visit_entry (w_state w') "A") = 2
  ∧ "A" ∈ steps_failed
            (w_state (_check_graph_progress [Sample.tool_result "still not"] library w').2).
Proof.
  cbv zeta.
  destruct (retry_budget [("p", patient_plan)] patient_plan patient_graph
              {[ "s" := Sample.of_type "start"; "A" := Sample.task "done" 2;
                 "x" := Sample.of_type "exit" ]}
              (Sample.task "done" 2)
              [[Sample.tool_result "no"]; [Sample.tool_result "nope"]]
              (activated "p" patient_plan patient_graph))
    as (H1 & _ & H3 & _ & _ & _ & H7).
  - vm_compute. reflexivity.
  - reflexivity.
  - reflexivity.
  - vm_compute. reflexivity.
  - reflexivity.
  - reflexivity.
  - vm_compute. reflexivity.
  - repeat constructor; eexists; split; vm_compute; reflexivity.
  - vm_compute. discriminate.
  - vm_compute. discriminate.
  - split; [exact H1|]. split; [exact H3|].
    apply (H7 [Sample.tool_result "still not"]).
    + repeat constructor. eexists. split; vm_compute; reflexivity.
    + rewrite H3. vm_compute. reflexivity.
    + vm_compute. discriminate.
Defined.

(** ** The linear engine *)

Lemma py_index_in_range {A} (l : list A) (i : Z) :
  0 ≤ i < Z.of_nat (length l) →
  ∃ a, py_index l i = Ret a ∧ l !! Z.to_nat i = Some a.
Proof.
  intros Hi. unfold py_index. cbv zeta.
  replace (i <? 0) with false by (symmetry; apply Z.ltb_ge; lia).
  replace (0 <=? i) with true by (symmetry; apply Z.leb_le; lia).
  replace (i <? Z.of_nat (length l)) with true by (symmetry; apply Z.ltb_lt; lia).
  cbn [andb].
  destruct (lookup_lt_is_Some_2 l (Z.to_nat i)) as [a Ha]; [lia|].
  exists a. by rewrite Ha.
Qed.

Lemma linear_continue_run library w :
  ∃ w', linear_continue library w = (Ret tt, w')
        ∧ w_state w' = w_state w
        ∧ w_attached w' = w_attached w
        ∧ w_log w' = w_log w.
Proof.
  unfold linear_continue. rewrite bind_run. cbn [state_is_cleared].
  destruct (w_attached w) eqn:Hatt; cbn [negb].
  - rewrite bind_run. unfold _inject_linear_context. rewrite bind_get.
    destruct (lookup_plan library (l_plan_id (w_state w))); eexists; (split; [reflexivity|]);
      by rewrite ?Hatt.
  - eexists. split; [reflexivity|]. by rewrite ?Hatt.
Qed.

(** One advance call of the linear engine on a state that belongs to a
    plan of the library. *)
Lemma check_linear_progress_cases history_output library w plan steps :
  lookup_plan library (l_plan_id (w_state w)) = Some plan →
  p_steps plan = Some steps →
  l_total_steps (w_state w) = Z.of_nat (length steps) →
  0 ≤ l_current_step (w_state w) →
  let l := w_state w in
  let run := _check_linear_progress history_output library w in
  let l' := w_state run.2 in
  lin_frame l l'
  ∧ (w_attached run.2 = true →
     l_turns_since_progress l + 1 ≤ l_stale_after_turns l
     ∧ l_current_step l < l_total_steps l)
  ∧ ((lin_kept l l' ∧ run.1 = Ret tt)
     ∨ (∃ step, l_current_step l < l_total_steps l
                ∧ steps !! Z.to_nat (l_current_step l) = Some step
                ∧ lin_verified l l'
                ∧ ((is_Some (n_name step) ∧ run.1 = Ret tt)
                   ∨ (n_name step = None ∧ run.1 = Raise (KeyError "name")
                      ∧ w_attached run.2 = w_attached w)))
     ∨ (l_current_step l < l_total_steps l ∧ lin_skipped l l' ∧ run.1 = Ret tt
        ∧ w_attached run.2 = w_attached w)
     ∨ (∃ step, l_current_step l < l_total_steps l
                ∧ steps !! Z.to_nat (l_current_step l) = Some step
                ∧ lin_aborted l l'
                ∧ ((is_Some (n_name step) ∧ run.1 = Ret tt ∧ w_attached run.2 = false)
                   ∨ (n_name step = None ∧ run.1 = Raise (KeyError "name"))))).
Proof.
  intros Hplan Hsteps Htotal Hpos. cbv zeta.
  unfold _check_linear_progress. rewrite bind_run. cbn [modify_state]. rewrite bind_get.
  cbn [w_state set_l_progress l_stale_after_turns l_turns_since_progress l_total_steps
       l_current_step l_plan_name l_plan_id].
  set (l1 := set_l_progress _ _ _ _ (w_state w)).
  set (w1 := mkWorld l1 _ _ _ _).
  assert (lin_frame (w_state w) l1) as Hframe1 by (by repeat split).
  assert (lin_kept (w_state w) l1) as Hkept1 by (by repeat split).
  destruct (l_stale_after_turns (w_state w) <? l_turns_since_progress (w_state w) + 1)
    eqn:Hstale.
  { rewrite bind_run. cbn. split; [done|]. split; [done|]. by left. }
  apply Z.ltb_ge in Hstale.
  destruct (l_total_steps (w_state w) <=? l_current_step (w_state w)) eqn:Hdone.
  { rewrite bind_run. cbn. split; [done|]. split; [done|]. by left. }
  apply Z.leb_gt in Hdone.
  assert (l_turns_since_progress (w_state w) + 1 ≤ l_stale_after_turns (w_state w)
          ∧ l_current_step (w_state w) < l_total_steps (w_state w)) as Hwin by done.
  rewrite Hplan, Hsteps.
  destruct (py_index_in_range steps (l_current_step (w_state w))) as (step & Hidx & Hstep);
    [lia|].
  rewrite Hidx, bind_lift_ret.
  assert (∀ w2, w_state w2 = w_state w1 → w_state (linear_continue library w2).2 = l1
                ∧ (linear_continue library w2).1 = Ret tt
                ∧ w_attached (linear_continue library w2).2 = w_attached w2) as Hcont.
  { intros w2 Hw2. destruct (linear_continue_run library w2) as (w' & -> & Hs & Ha & _).
    cbn [fst snd]. by rewrite Hs, Hw2. }
  destruct (_get_last_tool_output history_output) as [last_output|].
  2: { destruct (Hcont w1 eq_refl) as (-> & -> & _). split; [done|]. split; [done|]. by left. }
  destruct (_verify_node step last_output).
  - (* verified *)
    rewrite bind_run. cbn [modify_state w_state w_attached w_pace w_log w_extras].
    set (l2 := set_l_progress _ _ _ _ (w_state w1)).
    assert (lin_frame (w_state w) l2) as Hframe2 by (by repeat split).
    assert (lin_verified (w_state w) l2) as Hver2 by (by repeat split).
    rewrite bind_run. unfold lift.
    destruct (n_name step) as [name|] eqn:Hname; cbn [getitem].
    + rewrite bind_run. cbn [log w_state w_attached w_pace w_log w_extras].
      rewrite bind_get. cbn [w_state].
      destruct (l_total_steps l2 <=? l_current_step l2).
      * rewrite bind_run. cbn. split; [done|]. split; [done|]. right; left. exists step.
        split; [done|]. split; [done|]. split; [done|]. left. by split.
      * match goal with |- context [ linear_continue library ?w2 ] =>
          destruct (linear_continue_run library w2) as (w' & -> & Hs & _) end.
        cbn [fst snd]. rewrite Hs. cbn [w_state].
        split; [done|]. split; [done|]. right; left. exists step.
        split; [done|]. split; [done|]. split; [done|]. left. by split.
    + cbn. split; [done|]. split; [done|]. right; left. exists step.
      split; [done|]. split; [done|]. split; [done|]. right. by repeat split.
  - destruct (String.eqb (default "warn" (n_on_fail step)) "skip").
    { (* skipped *)
      rewrite bind_run. cbn [modify_state w_state w_attached w_pace w_log w_extras].
      set (l2 := set_l_progress _ _ _ _ (w_state w1)).
      match goal with |- context [ linear_continue library ?w2 ] =>
        destruct (linear_continue_run library w2) as (w' & -> & Hs & Ha & _) end.
      cbn [fst snd]. rewrite Hs, Ha. cbn [w_state w_attached].
      split; [done|]. split; [done|]. right; right; left. by repeat split. }
    destruct (String.eqb (default "warn" (n_on_fail step)) "abort").
    { (* aborted *)
      rewrite bind_run. cbn [modify_state w_state w_attached w_pace w_log w_extras].
      set (l2 := set_l_progress _ _ _ _ (w_state w1)).
      rewrite bind_run. unfold lift.
      destruct (n_name step) as [name|] eqn:Hname; cbn [getitem].
      - rewrite bind_run. cbn. split; [done|]. split; [done|]. right; right; right. exists step.
        split; [done|]. split; [done|]. split; [done|]. left. by repeat split.
      - cbn. split; [done|]. split; [done|]. right; right; right. exists step.
        split; [done|]. split; [done|]. split; [done|]. right. by split. }
    destruct (Hcont w1 eq_refl) as (-> & -> & _). split; [done|]. split; [done|]. by left.
Qed.

Lemma seqZ_snoc (c : Z) : 0 ≤ c → seqZ 0 (c + 1) = seqZ 0 c ++ [c].
Proof.
  intros Hc. rewrite <- (Z2Nat.id c Hc) at 1 2.
  replace (Z.of_nat (Z.to_nat c) + 1) with (Z.of_nat (S (Z.to_nat c))) by lia.
  rewrite seqZ_S. repeat f_equal. lia.
Qed.

Lemma create_linear_state_within_plan library pid plan steps :
  lookup_plan library pid = Some plan →
  p_steps plan = Some steps →
  lin_within_plan library (_create_linear_state pid plan)
  ∧ lin_accounted (_create_linear_state pid plan).
Proof.
  intros Hplan Hsteps. split.
  - exists plan, steps. unfold _create_linear_state. cbn. rewrite Hsteps. cbn.
    repeat split; [done|lia|lia|lia].
  - unfold lin_accounted, _create_linear_state. cbn. done.
Qed.

Lemma check_linear_progress_within_plan history_output library w :
  lin_within_plan library (w_state w) →
  lin_within_plan library (w_state (_check_linear_progress history_output library w).2)
  ∧ ((_check_linear_progress history_output library w).1 = Ret tt
     ∨ (∃ plan steps step,
          lookup_plan library (l_plan_id (w_state w)) = Some plan
          ∧ p_steps plan = Some steps
          ∧ step ∈ steps
          ∧ n_name step = None
          ∧ (_check_linear_progress history_output library w).1 = Raise (KeyError "name")))
  ∧ (lin_accounted (w_state w) →
     w_attached (_check_linear_progress history_output library w).2 = true →
     (_check_linear_progress history_output library w).1 = Ret tt →
     lin_accounted (w_state (_check_linear_progress history_output library w).2))
  ∧ (w_attached (_check_linear_progress history_output library w).2 = true →
     lin_lifetime (w_state (_check_linear_progress history_output library w).2) + 1
       ≤ lin_lifetime (w_state w)
     ∧ 0 ≤ lin_lifetime (w_state (_check_linear_progress history_output library w).2)).
Proof.
  intros (plan & steps & Hplan & Hsteps & Htotal & Hrange & Htsp).
  destruct (check_linear_progress_cases history_output library w plan steps)
    as ((Hid & _ & Htot & Hst) & Hwin & Hcases); [done|done|done|lia|].
  set (run := _check_linear_progress history_output library w) in *.
  clearbody run. unfold lin_accounted, lin_lifetime.
  rewrite Htot, Hst.
  assert (∀ c' tsp',
            l_current_step (w_state run.2) = c' → l_turns_since_progress (w_state run.2) = tsp' →
            0 ≤ c' ≤ l_total_steps (w_state w) → 0 ≤ tsp' →
            lin_within_plan library (w_state run.2)) as Hwithin.
  { intros c' tsp' Hc' Htsp' ? ?. exists plan, steps. rewrite Hid, Htot, Hc', Htsp'.
    by repeat split; try lia. }
  destruct Hcases as [((Hc & Hcomp & Hfail & Ht) & Hr)
                     |[(step & Hlt & Hstep & (Hc & Hcomp & Hfail & Ht) & Hname)
                     |[(Hlt & (Hc & Hcomp & Hfail & Ht) & Hr & Hatt)
                     |(step & Hlt & Hstep & (Hc & Hcomp & Hfail & Ht) & Hname)]]].
  - split; [apply (Hwithin _ _ Hc Ht); lia|]. split; [by left|]. split.
    + intros Hacc _ _. by rewrite Hc, Hcomp, Hfail.
    + intros Hatt. specialize (Hwin Hatt). rewrite Hc, Ht. nia.
  - split; [apply (Hwithin _ _ Hc Ht); lia|]. split.
    { destruct Hname as [[_ Hr]|(Hnone & Hr & _)]; [by left|]. right.
      exists plan, steps, step. split; [done|]. split; [done|].
      split; [by eapply list_elem_of_lookup_2|]. by split. }
    split.
    + intros Hacc _ _. rewrite Hc, Hcomp, Hfail, seqZ_snoc by lia.
      rewrite <- Hacc. rewrite <- !app_assoc. apply Permutation_app_head.
      apply Permutation_app_comm.
    + intros Hatt. specialize (Hwin Hatt). rewrite Hc, Ht. nia.
  - split; [apply (Hwithin _ _ Hc Ht); lia|]. split; [by left|]. split.
    + intros Hacc _ _. rewrite Hc, Hcomp, Hfail, seqZ_snoc by lia.
      rewrite <- Hacc. by rewrite app_assoc.
    + intros Hatt'. specialize (Hwin Hatt'). rewrite Hc, Ht. nia.
  - split; [apply (Hwithin _ _ Hc Ht); lia|]. split.
    { destruct Hname as [(_ & Hr & _)|(Hnone & Hr)]; [by left|]. right.
      exists plan, steps, step. split; [done|]. split; [done|].
      split; [by eapply list_elem_of_lookup_2|]. by split. }
    split.
    + intros Hacc Hatt Hr. destruct Hname as [(_ & _ & Hdet)|(_ & Hraise)]; congruence.
    + intros Hatt. specialize (Hwin Hatt). rewrite Hc, Ht. nia.
Qed.

Lemma lin_reachable_within_plan library w :
  lin_reachable library w → lin_within_plan library (w_state w).
Proof.
  induction 1 as [pid plan steps pace log extras Hplan Hsteps
                 | history_output w Hreach IH Hatt].
  - by apply (create_linear_state_within_plan library pid plan steps).
  - by apply check_linear_progress_within_plan.
Qed.

(** X15. The linear engine keeps its step index inside the plan.  In
    every state reachable by activation and advance calls the state
    belongs to a linear plan of the library, [total_steps] is that plan's
    number of steps and [0 <= current_step <= total_steps]; hence an
    advance call never raises [IndexError]: it returns, or raises
    [KeyError('name')] on a step without name.  If every step is named,
    an advance call on an active plan always returns, and the steps before
    [current_step] are exactly those listed in [steps_completed] or
    [steps_failed], each once. *)
Theorem linear_progress_accounted library w :
  lin_reachable library w →
  lin_within_plan library (w_state w)
  ∧ (∀ history_output,
       (_check_linear_progress history_output library w).1 = Ret tt
       ∨ (_check_linear_progress history_output library w).1 = Raise (KeyError "name"))
  ∧ (steps_named library →
     (∀ history_output, (_check_linear_progress history_output library w).1 = Ret tt)
     ∧ (w_attached w = true →
        l_steps_completed (w_state w) ++ l_steps_failed (w_state w)
        ≡ₚ seqZ 0 (l_current_step (w_state w)))).
Proof.
  intros Hreach.
  assert (∀ w0 history_output,
            lin_within_plan library (w_state w0) → steps_named library →
            (_check_linear_progress history_output library w0).1 = Ret tt) as Hret.
  { intros w0 history_output Hwithin Hnamed.
    destruct (check_linear_progress_within_plan history_output library w0 Hwithin)
      as (_ & [Hr|(plan & steps & step & Hplan & Hsteps & Hin & Hnone & _)] & _);
      [done|].
    destruct (Hnamed _ _ _ _ Hplan Hsteps Hin) as [name Hname]. congruence. }
  split; [by apply lin_reachable_within_plan|]. split.
  - intros history_output.
    destruct (check_linear_progress_within_plan history_output library w
                (lin_reachable_within_plan _ _ Hreach))
      as (_ & [Hr|(_ & _ & _ & _ & _ & _ & _ & Hr)] & _); [by left | by right].
  - intros Hnamed. split.
    + intros history_output. apply Hret; [by apply lin_reachable_within_plan | done].
    + change (w_attached w = true → lin_accounted (w_state w)).
      induction Hreach as [pid plan steps pace log extras Hplan Hsteps
                          | history_output w Hreach IH Hatt].
      * intros _. by apply (create_linear_state_within_plan library pid plan steps).
      * intros Hatt'.
        pose proof (lin_reachable_within_plan _ _ Hreach) as Hwithin.
        destruct (check_linear_progress_within_plan history_output library w Hwithin)
          as (_ & _ & Hacc & _).
        apply Hacc; [by apply IH | done | by apply Hret].
Qed.

Lemma linear_progress_accounted_witness :
  let library := [("two", two_step_plan)] in
  let w0 := mkWorld (_create_linear_state "two" two_step_plan) true None [] None in
  let w1 := (_check_linear_progress [Sample.tool_result "nothing"] library w0).2 in
  lin_within_plan library (w_state w1)
  ∧ (_check_linear_progress [Sample.tool_result "stored"] library w1).1 = Ret tt.
Proof.
  cbv zeta.
  destruct (linear_progress_accounted [("two", two_step_plan)]
              (_check_linear_progress [Sample.tool_result "nothing"]
                 [("two", two_step_plan)]
                 (mkWorld (_create_linear_state "two" two_step_plan) true None [] None)).2)
    as (H1 & _ & H3).
  - apply lin_advanced; [|reflexivity].
    by apply (lin_activated _ "two" two_step_plan
                (default [] (p_steps two_step_plan))).
  - split; [exact H1|]. apply H3.
    intros pid plan steps step Hplan Hsteps Hin.
    unfold lookup_plan in Hplan.
    destruct (String.eqb "two" pid); [|discriminate Hplan].
    injection Hplan as <-. injection Hsteps as <-.
    apply elem_of_cons in Hin as [->|Hin]; [by eexists|].
    apply elem_of_cons in Hin as [->|Hin]; [by eexists|].
    by apply elem_of_nil in Hin.
Defined.

(** ** A linear plan cannot stay active forever *)

Lemma lin_session_lifetime library turns w :
  lin_within_plan library (w_state w) →
  w_attached (lin_session library turns w) = true →
  turns = [] ∨ (Z.of_nat (length turns) ≤ lin_lifetime (w_state w)).
Proof.
  revert w. induction turns as [|history_output turns IH]; intros w Hwithin; [by left|].
  cbn [lin_session]. destruct (w_attached w) eqn:Hatt; [|intros H; congruence].
  intros Hend. right.
  destruct (check_linear_progress_within_plan history_output library w Hwithin)
    as (Hwithin1 & _ & _ & Hlife).
  set (w1 := (_check_linear_progress history_output library w).2) in *. clearbody w1.
  assert (w_attached w1 = true) as Hatt1.
  { destruct turns; [exact Hend|]. cbn [lin_session] in Hend.
    destruct (w_attached w1) eqn:E; [done | congruence]. }
  destruct (Hlife Hatt1) as [Hdec Hpos].
  destruct (IH w1 Hwithin1 Hend) as [->|Hlen]; cbn [length]; lia.
Qed.

(** X16. A linear plan cannot stay active forever.  Counting one advance
    call per turn for as long as the plan is attached, a plan that is
    still attached after a number of calls has made at most
    [(total_steps - current_step) * (stale_after_turns + 1)
     + stale_after_turns - turns_since_progress + 1] of them: every call
    that leaves the plan attached either passes a step or uses up one turn
    of the staleness window. *)
Theorem linear_plan_lifetime library turns w :
  lin_reachable library w →
  w_attached (lin_session library turns w) = true →
  turns = [] ∨ Z.of_nat (length turns) ≤ lin_lifetime (w_state w).
Proof.
  intros Hreach. apply lin_session_lifetime. by apply lin_reachable_within_plan.
Qed.

Lemma linear_plan_lifetime_witness :
  let library := [("two", two_step_plan)] in
  let w0 := mkWorld (_create_linear_state "two" two_step_plan) true None [] None in
  let turns := [[Sample.user_says "hm"]; [Sample.tool_result "fetched"]; []] in
  w_attached (lin_session library turns w0) = true
  ∧ Z.of_nat (length turns) ≤ lin_lifetime (w_state w0).
Proof.
  cbv zeta. split; [vm_compute; reflexivity|].
  destruct (linear_plan_lifetime [("two", two_step_plan)]
              [[Sample.user_says "hm"]; [Sample.tool_result "fetched"]; []]
              (mkWorld (_create_linear_state "two" two_step_plan) true None [] None))
    as [Hnil|Hlen].
  - by apply (lin_activated _ "two" two_step_plan (default [] (p_steps two_step_plan))).
  - vm_compute. reflexivity.
  - discriminate Hnil.
  - exact Hlen.
Defined.

(** ** The state on the host stays well formed *)

Lemma check_graph_progress_path_consistent history_output library w :
  path_consistent (w_state w) →
  path_consistent (w_state (_check_graph_progress history_output library w).2).
Proof.
  intros Hs.
  apply (check_graph_progress_preserves _ _ _
           (path_consistent_from_closed (current_node (w_state w)))
           history_output library w); [done|done| |by apply path_consistent_here].
  intros s Hs'. exact Hs'.
Qed.

Lemma graph_state_ok_advance history_output library w :
  graph_state_ok (w_state w) →
  graph_state_ok (w_state (_check_graph_progress history_output library w).2).
Proof.
  intros (Hcap & Hsync & Hcons & Hpath). split; [|split; [|split]].
  - apply (preserves_check_graph_progress _ keeps_within_cap_closed); [|exact Hcap].
    intros s Hs. exact Hs.
  - apply (preserves_check_graph_progress _ compat_in_sync_closed); [|exact Hsync].
    by intros s Hs.
  - apply (preserves_check_graph_progress _ keeps_completion_consistent_closed);
      [|exact Hcons].
    intros s Hs. exact Hs.
  - by apply check_graph_progress_path_consistent.
Qed.

Section Activation.
Context (R : State → State → Prop) `{!PreOrder R}.
Context (node_id : string) (is_task : Prop) (closed : step_closed_for R node_id is_task).

(** The computation that [execute] runs on a freshly created graph
    state. *)
Lemma preserves_activation pid plan :
  preserves R
    (_advance_from_start plan;;
     _inject_graph_context plan;;
     _set_state;;
     s' ← get_state;
     log "info" (MsgGraphActivated (default pid (p_name plan)) (total_steps s'))).
Proof.
  apply (preserves_bind R);
    [apply (preserves_advance_from_start R node_id is_task closed)|]. intros ?.
  apply (preserves_bind R); [apply (preserves_inject R)|]. intros ?.
  apply (preserves_bind R); [apply (preserves_set_state R)|]. intros ?.
  apply (preserves_bind R); [apply (preserves_get R)|]. intros ?.
  apply (preserves_log R).
Qed.
End Activation.

Lemma create_graph_state_ok pid plan graph :
  graph_state_ok (_create_graph_state pid plan graph).
Proof.
  split; [|split; [|split]].
  - unfold _create_graph_state. apply emit_event_within_cap.
  - unfold _create_graph_state, compat_in_sync.
    match goal with
    | |- context [ _emit_event ?ty ?f ?x ] =>
        destruct (emit_event_frame ty f x) as (_&_&_&_&_&_&->&->&_);
        destruct (emit_event_rest ty f x) as (_&->&->&_)
    end.
    done.
  - apply create_graph_state_consistent.
  - apply create_graph_state_path_consistent.
Qed.

Lemma graph_state_ok_activation pid plan graph w :
  w_state w = _create_graph_state pid plan graph →
  graph_state_ok
    (w_state ((_advance_from_start plan;;
               _inject_graph_context plan;;
               _set_state;;
               s' ← get_state;
               log "info" (MsgGraphActivated (default pid (p_name plan))
                                             (total_steps s'))) w).2).
Proof.
  intros Hw. destruct (create_graph_state_ok pid plan graph) as (Hcap & Hsync & Hcons & Hpath).
  rewrite <- Hw in Hcap, Hsync, Hcons, Hpath.
  split; [|split; [|split]].
  - apply (preserves_activation keeps_within_cap "" True
             (step_closed_any _ keeps_within_cap_closed "") pid plan w Hcap).
  - apply (preserves_activation (keeps compat_in_sync) "" True
             (step_closed_any _ compat_in_sync_closed "") pid plan w Hsync).
  - apply (preserves_activation keeps_completion_consistent "" True
             (step_closed_any _ keeps_completion_consistent_closed "") pid plan w Hcons).
  - apply (preserves_activation (keeps (path_consistent_from (current_node (w_state w))))
             _ True (path_consistent_from_closed (current_node (w_state w))) pid plan w).
    by apply path_consistent_here.
Qed.

Lemma match_plan_resolves plans domain message allowed_plans pid plan :
  _match_plan plans domain message allowed_plans = Ret (Some (pid, plan)) →
  lookup_plan plans pid = Some plan.
Proof.
  unfold _match_plan. cbv zeta.
  destruct (fold_left _ _ _).1 as [best_id|]; [|done].
  destruct (Text.truthy best_id); [|done].
  destruct (lookup_plan plans best_id) as [p|] eqn:Hlook; cbn [getitem]; [|done].
  by intros [= <- <-].
Qed.

Lemma execute_body_ok library domain allowed_plans history_output h :
  host_ok library h →
  host_ok library
    (execute_body (Some library) domain allowed_plans history_output h).2.
Proof.
  intros Hok. unfold execute_body, host_ok in *.
  destruct (h_state h) as [[s|l]|] eqn:Hstate.
  - unfold run_on.
    pose proof (graph_state_ok_advance history_output library
                  (mkWorld s true (h_pace h) (h_log h) (h_extras h)) Hok) as Hnext.
    destruct (_check_graph_progress _ _ _) as [r w']. cbn [snd h_state].
    by destruct (w_attached w').
  - unfold run_on.
    destruct (check_linear_progress_within_plan history_output library
                (mkWorld l true (h_pace h) (h_log h) (h_extras h)) Hok) as [Hnext _].
    destruct (_check_linear_progress _ _ _) as [r w']. cbn [snd h_state].
    by destruct (w_attached w').
  - destruct (negb (Text.truthy (_get_user_message history_output)));
      [cbn [snd]; by rewrite Hstate|].
    destruct (_match_plan library domain _ allowed_plans) as [[[pid plan]|]|e] eqn:Hmatch;
      [|cbn [snd]; by rewrite Hstate..].
    apply match_plan_resolves in Hmatch.
    destruct (p_graph plan) as [graph|] eqn:Hgraph.
    + unfold run_on.
      pose proof (graph_state_ok_activation pid plan graph
                    (mkWorld (_create_graph_state pid plan graph) true
                             (h_pace h) (h_log h) (h_extras h)) eq_refl) as Hnext.
      match goal with |- context [ ?m (mkWorld ?a ?b ?c ?d ?e) ] =>
        destruct (m (mkWorld a b c d e)) as [r w'] end.
      cbn [snd h_state]. by destruct (w_attached w').
    + destruct (p_steps plan) as [steps|] eqn:Hsteps; [|cbn [snd]; by rewrite Hstate].
      unfold run_on.
      assert (∀ w, w_state ((_inject_linear_context library;;
                             log "info" (MsgLinearActivated (default pid (p_name plan))
                                           (Z.of_nat (length steps)))) w).2
                   = w_state w) as Hsame.
      { intros w. rewrite bind_run. unfold _inject_linear_context. rewrite bind_get.
        by destruct (lookup_plan library (l_plan_id (w_state w))). }
      specialize (Hsame (mkWorld (_create_linear_state pid plan) true
                                 (h_pace h) (h_log h) (h_extras h))).
      match goal with |- context [ ?m (mkWorld ?a ?b ?c ?d ?e) ] =>
        destruct (m (mkWorld a b c d e)) as [r w'] end.
      cbn [snd h_state] in *.
      destruct (w_attached w'); [|done]. rewrite Hsame. cbn [w_state].
      by apply (create_linear_state_within_plan library pid plan steps).
Qed.

Lemma execute_state library domain allowed_plans history_output h :
  h_state (execute library domain allowed_plans history_output h) =
  h_state (execute_body library domain allowed_plans history_output h).2.
Proof. unfold execute. by destruct (execute_body _ _ _ _ _) as [[[]|e] h']. Qed.

(** X17. The entry point keeps the state on the agent well formed.  If
    the agent holds no plan, or a graph state that respects the event cap,
    has its compatibility fields in step, counts each completed node once
    and keeps its path bookkeeping, or a linear state whose step index is
    within its plan, then the same holds after [execute], whether the call
    advanced the plan, activated a new one, or ended in the exception
    handler.  It therefore holds after any number of turns from an idle
    agent. *)
Theorem execute_keeps_state_well_formed library :
  (∀ domain allowed_plans history_output h,
     host_ok library h →
     host_ok library (execute (Some library) domain allowed_plans history_output h))
  ∧ (∀ turns pace log extras,
       host_ok library (run_turns library turns (mkHost None pace log extras))).
Proof.
  assert (∀ domain allowed_plans history_output h,
            host_ok library h →
            host_ok library (execute (Some library) domain allowed_plans history_output h))
    as Hstep.
  { intros domain allowed_plans history_output h Hok.
    pose proof (execute_body_ok library domain allowed_plans history_output h Hok) as H.
    unfold host_ok in *. by rewrite execute_state. }
  split; [exact Hstep|].
  intros turns pace log extras.
  assert (host_ok library (mkHost None pace log extras)) as Hidle by done.
  revert Hidle. generalize (mkHost None pace log extras).
  induction turns as [|[[domain allowed_plans] history_output] turns IH]; intros h Hok;
    [exact Hok|].
  cbn [run_turns]. apply IH. by apply Hstep.
Qed.

(** ** An active plan is not replaced *)

Lemma check_graph_progress_plan_id history_output library w :
  plan_id (w_state (_check_graph_progress history_output library w).2)
  = plan_id (w_state w).
Proof.
  destruct (check_graph_progress_preserves _ _ True
              (only_completes_closed (current_node (w_state w)) True)
              history_output library w) as (Hid & _); [done|done| |exact Hid].
  intros s. by apply only_completes_same.
Qed.

Lemma check_linear_progress_plan_id history_output library w :
  l_plan_id (w_state (_check_linear_progress history_output library w).2)
  = l_plan_id (w_state w).
Proof.
  assert (∀ w0, l_plan_id (w_state (linear_continue library w0).2)
                = l_plan_id (w_state w0)) as Hcont.
  { intros w0. destruct (linear_continue_run library w0) as (w' & Hrun & Hs & _).
    rewrite Hrun. cbn [snd]. by rewrite Hs. }
  unfold _check_linear_progress. rewrite bind_run. cbn [modify_state]. rewrite bind_get.
  cbn [w_state].
  set (w1 := mkWorld _ _ _ _ _).
  transitivity (l_plan_id (w_state w1)); [|done].
  destruct (_ <? _); [by rewrite bind_run|].
  destruct (_ <=? _); [by rewrite bind_run|].
  destruct (lookup_plan _ _) as [plan|]; [|done].
  destruct (p_steps plan) as [steps|]; [|done].
  rewrite bind_run. unfold lift.
  destruct (py_index steps _) as [step|e]; [|done].
  destruct (_get_last_tool_output history_output) as [last_output|]; [|apply Hcont].
  destruct (_verify_node step last_output).
  - rewrite bind_run. cbn [modify_state]. rewrite bind_run.
    destruct (n_name step) as [name|]; cbn [getitem]; [|done].
    rewrite bind_run. cbn [log]. rewrite bind_get.
    destruct (_ <=? _); [by rewrite bind_run|]. by rewrite Hcont.
  - destruct (String.eqb _ "skip").
    { rewrite bind_run. cbn [modify_state]. by rewrite Hcont. }
    destruct (String.eqb _ "abort"); [|apply Hcont].
    rewrite bind_run. cbn [modify_state]. rewrite bind_run.
    destruct (n_name step) as [name|]; cbn [getitem]; [|done].
    by rewrite bind_run.
Qed.

(** X18. While a plan is active the entry point only advances it: after
    [execute] the agent holds no plan or a state of the same mode and the
    same plan id.  No other plan is matched in that call, whatever the user
    message says. *)
Theorem active_plan_not_replaced library domain allowed_plans history_output h st :
  h_state h = Some st →
  let h' := execute library domain allowed_plans history_output h in
  h_state h' = None
  ∨ ∃ st', h_state h' = Some st' ∧ plan_of_state st' = plan_of_state st.
Proof.
  intros Hstate. cbv zeta. rewrite execute_state. unfold execute_body.
  destruct library as [library|]; [|right; by exists st].
  rewrite Hstate. destruct st as [s|l]; unfold run_on.
  - pose proof (check_graph_progress_plan_id history_output library
                  (mkWorld s true (h_pace h) (h_log h) (h_extras h))) as Hid.
    destruct (_check_graph_progress _ _ _) as [r w']. cbn [snd h_state] in *.
    destruct (w_attached w'); [|by left]. right. eexists. split; [done|].
    cbn [plan_of_state]. by rewrite Hid.
  - pose proof (check_linear_progress_plan_id history_output library
                  (mkWorld l true (h_pace h) (h_log h) (h_extras h))) as Hid.
    destruct (_check_linear_progress _ _ _) as [r w']. cbn [snd h_state] in *.
    destruct (w_attached w'); [|by left]. right. eexists. split; [done|].
    cbn [plan_of_state]. by rewrite Hid.
Qed.

Lemma active_plan_not_replaced_witness :
  let library := [("p", Sample.stale_plan); ("q", Sample.catch_all_plan)] in
  let h1 := execute (Some library) "" None [Sample.user_says "build and deploy"]
                    Sample.idle_host in
  let h2 := execute (Some library) "" None
                    [Sample.user_says "build and deploy"; Sample.user_says "something else"]
                    h1 in
  plan_of_state <$> h_state h1 = Some ("graph", "p")
  ∧ (h_state h2 = None
     ∨ ∃ st', h_state h2 = Some st' ∧ plan_of_state st' = ("graph", "p")).
Proof.
  cbv zeta. split; [vm_compute; reflexivity|].
  set (h1 := execute _ _ _ _ Sample.idle_host).
  destruct (h_state h1) as [st|] eqn:Hst; [|vm_compute in Hst; discriminate].
  assert (plan_of_state st = ("graph", "p")) as Hp.
  { assert (plan_of_state <$> h_state h1 = Some ("graph", "p")) as H
      by (vm_compute; reflexivity).
    rewrite Hst in H. by injection H. }
  rewrite <- Hp.
  exact (active_plan_not_replaced
           (Some [("p", Sample.stale_plan); ("q", Sample.catch_all_plan)]) "" None
           [Sample.user_says "build and deploy"; Sample.user_says "something else"]
           h1 st Hst).
Defined.

(** ** Activation through the entry point *)

Lemma state_only_bind {A B} (m : M State A) (k : A → M State B) :
  state_only m → (∀ a, state_only (k a)) → state_only (m ≫= k).
Proof.
  intros Hm Hk w. rewrite bind_run. specialize (Hm w).
  destruct (m w) as [[a|e] w1]; cbn [snd] in *; [|exact Hm].
  destruct (Hk a w1) as (-> & -> & -> & ->). exact Hm.
Qed.

Ltac state_only_steps known :=
  repeat first
    [ known
    | apply state_only_bind; [|intros ?]
    | progress cbv zeta
    | case_match
    | by intros ? ].

Lemma state_only_auto_route_from (n : nat) plan : state_only (auto_route_from n plan).
Proof.
  induction n as [|n IH]; simpl; [by intros ?|].
  unfold auto_route_body. state_only_steps ltac:(exact IH).
Qed.

Lemma state_only_advance_from_start plan : state_only (_advance_from_start plan).
Proof.
  unfold _advance_from_start.
  state_only_steps ltac:(apply state_only_auto_route_from).
Qed.

Lemma inject_graph_context_cases plan w :
  _inject_graph_context plan w = (Raise (KeyError "to"), w)
  ∨ _inject_graph_context plan w =
    (Ret tt, mkWorld (w_state w) (w_attached w) (w_pace w) (w_log w)
                     (Some (WorkflowStatus (w_state w)))).
Proof.
  unfold _inject_graph_context. rewrite bind_get. cbv zeta.
  case_bool_decide; [|by right].
  destruct (List.find _ _); [by left | by right].
Qed.

(** X19. A matched graph plan is always installed.  When the agent holds
    no plan, the user message is not empty and the matcher selects a plan
    with a graph, [execute] leaves a graph state of that plan on the agent,
    with [total_nodes] the number of declared task nodes and the plan's
    staleness window (default 15), and leaves the pace level alone.  If
    activation went through, the status rendered from that state is
    injected and the activation is the last log entry; if it raised, the
    state stays on the agent all the same, nothing is injected and the
    error is the last log entry. *)
Theorem activation_installs_plan library domain allowed_plans history_output h pid plan
    graph :
  h_state h = None →
  Text.truthy (_get_user_message history_output) = true →
  _match_plan library domain (_get_user_message history_output) allowed_plans
    = Ret (Some (pid, plan)) →
  p_graph plan = Some graph →
  let h' := execute (Some library) domain allowed_plans history_output h in
  ∃ s', h_state h' = Some (GraphSt s')
        ∧ plan_id s' = pid
        ∧ total_nodes s' = count_task_nodes (default ∅ (g_nodes graph))
        ∧ stale_after_turns s' = default 15 (p_stale_after_turns plan)
        ∧ h_pace h' = h_pace h
        ∧ ((h_extras h' = Some (WorkflowStatus s')
            ∧ h_log h' = h_log h
                ++ [mkLog "info" (MsgGraphActivated (default pid (p_name plan))
                                                    (total_steps s'))])
           ∨ (h_extras h' = h_extras h
              ∧ ∃ e, h_log h' = h_log h ++ [mkLog "warning" (MsgError e)])).
Proof.
  intros Hstate Hmsg Hmatch Hgraph. cbv zeta.
  unfold execute, execute_body. rewrite Hstate, Hmsg. cbn [negb].
  rewrite Hmatch, Hgraph. unfold run_on.
  set (s0 := _create_graph_state pid plan graph).
  set (w0 := mkWorld s0 true (h_pace h) (h_log h) (h_extras h)).
  assert (plan_id s0 = pid
          ∧ total_nodes s0 = count_task_nodes (default ∅ (g_nodes graph))
          ∧ stale_after_turns s0 = default 15 (p_stale_after_turns plan))
    as (Hid0 & Htot0 & Hst0).
  { unfold s0, _create_graph_state. cbv zeta.
    match goal with
    | |- context [ _emit_event ?ty ?f ?x ] =>
        destruct (emit_event_frame ty f x) as (->&->&_&_&_&_&->&_&_)
    end. done. }
  rewrite bind_run.
  destruct (state_only_advance_from_start plan w0) as (Hatt & Hpace & Hlog & Hext).
  destruct (preserves_advance_from_start _ "" False (only_completes_closed "" False) plan w0)
    as (Hid & Htot & _).
  destruct (preserves_advance_from_start_closed _ no_move_keeps_turns_closed plan w0)
    as (Hst & _).
  destruct (_advance_from_start plan w0) as [[[]|e] w1]; cbn [snd w_state w0] in *.
  2: { exists (w_state w1). rewrite Hatt, Hpace, Hlog, Hext. cbn.
       split; [done|]. split; [congruence|]. split; [congruence|].
       split; [congruence|]. split; [done|]. right. split; [done|]. by exists e. }
  rewrite bind_run.
  destruct (inject_graph_context_cases plan w1) as [-> | ->].
  - exists (w_state w1). rewrite Hatt, Hpace, Hlog, Hext. cbn.
    split; [done|]. split; [congruence|]. split; [congruence|].
    split; [congruence|]. split; [done|]. right. split; [done|]. by eexists.
  - exists (w_state w1). cbn. rewrite Hpace, Hlog.
    split; [done|]. split; [congruence|]. split; [congruence|].
    split; [congruence|]. split; [done|]. by left.
Qed.

Lemma activation_installs_plan_witness :
  let h' := execute (Some [("p", Sample.stale_plan)]) "" None
                    [Sample.user_says "  Build it, then DEPLOY  "] Sample.idle_host in
  ∃ s', h_state h' = Some (GraphSt s') ∧ plan_id s' = "p" ∧ total_nodes s' = 1.
Proof.
  cbv zeta.
  destruct (activation_installs_plan [("p", Sample.stale_plan)] "" None
              [Sample.user_says "  Build it, then DEPLOY  "] Sample.idle_host
              "p" Sample.stale_plan Sample.linear_graph)
    as (s' & H1 & H2 & H3 & _).
  - reflexivity.
  - vm_compute. reflexivity.
  - vm_compute. reflexivity.
  - reflexivity.
  - exists s'. split; [exact H1|]. split; [exact H2|]. rewrite H3. vm_compute. reflexivity.
Defined.

(** ** Moves in the event log *)

(** X20. A move always leaves its two events as the latest entries of the
    log, [edge_followed] then [node_entered], whatever was trimmed; both
    carry turn 0, because the transition counter is reset before they are
    emitted. *)
Theorem move_is_logged from_node to_node condition s :
  ∃ earlier,
    events (_move_to_node from_node to_node condition s) =
    earlier ++ [mkEvent "edge_followed" 0
                        {[ "from_node" := from_node; "to_node" := to_node;
                           "condition" := condition ]};
                mkEvent "node_entered" 0 {[ "node" := to_node ]}].
Proof.
  unfold _move_to_node.
  set (s1 := match visited _ !! to_node with Some _ => _ | None => _ end).
  assert (turns_since_transition s1 = 0) as Hturn
    by (unfold s1; by destruct (visited _ !! to_node)).
  clearbody s1.
  set (fields := {[ "from_node" := from_node; "to_node" := to_node;
                    "condition" := condition ]} : gmap string string).
  destruct (emit_event_last "edge_followed" fields s1) as (earlier & Hfirst).
  rewrite Hturn in Hfirst.
  rewrite emit_event_events, Hfirst.
  rewrite (proj1 (proj2 (proj2 (proj2 (proj2 (proj2 (emit_event_frame _ _ _))))))), Hturn.
  rewrite <- app_assoc. cbn [app]. unfold last_n.
  exists (drop (length (earlier ++ [mkEvent "edge_followed" 0 fields;
                                   mkEvent "node_entered" 0 {[ "node" := to_node ]}])
                - MAX_EVENTS) earlier).
  rewrite drop_app_le; [done|].
  rewrite length_app. unfold MAX_EVENTS. simpl. lia.
Qed.

(** ** The library cache *)

Lemma load_calls_cached {Doc : Type} (reads : list (option Doc)) (library : Doc) :
  load_calls reads (Some library) = (replicate (length reads) (Some library), Some library).
Proof.
  induction reads as [|read reads IH]; [done|].
  cbn [load_calls _load_library length replicate]. by rewrite IH.
Qed.

(** X21. The plan library is read until it loads once and never again: the
    calls before the first successful read return nothing and leave the
    cache empty, that call and every later one return the library read
    then, whatever the file holds afterwards. *)
Theorem library_cache_sticky {Doc : Type} (failed later : list (option Doc))
    (library : Doc) :
  Forall (λ read, read = None) failed →
  load_calls (failed ++ Some library :: later) None =
  (replicate (length failed) None ++ replicate (S (length later)) (Some library),
   Some library).
Proof.
  induction 1 as [|read failed -> _ IH].
  - cbn [app load_calls _load_library length replicate].
    by rewrite load_calls_cached.
  - cbn [app load_calls _load_library length replicate]. by rewrite IH.
Qed.

Lemma library_cache_sticky_witness :
  load_calls [None; Some "first"; Some "second"; None] None
  = ([None; Some "first"; Some "first"; Some "first"], Some "first").
Proof.
  apply (library_cache_sticky [None] [Some "second"; None] "first").
  by repeat constructor.
Defined.

(** ** The traversal summary *)




